(** * Lighthouse i18n: message-instance registry, identifier codec, value
      preprocessing, locale lookup and path formatting

    A shallow embedding of [lighthouse-core/lib/i18n/i18n.js], with the
    properties of its registry ([createMessageInstanceIdFn]), of its token
    codec ([isIcuMessage], [_resolveIcuMessageInstanceId], [getFormatted]),
    of [_preprocessMessageValues], [lookupLocale], [_formatPathAsString],
    [_formatIcuMessage], [getFormattedFromIdAndValues],
    [getRendererFormattedStrings] and of the document walker
    [replaceIcuMessageInstanceIds]; and of [bakePlaceholders] of the script
    [scripts/i18n/bake-ctc-to-lhl.js], whose other functions are file
    handling and are not covered.

    Conventions of the embedding.
    - A JS string is a sequence of UTF-16 code units.  The development covers
      the strings whose code units lie below 256 and writes them as [string],
      one [ascii] per code unit (so ["160"%char] is U+00A0).
    - A JS plain object used as a dictionary is a [gmap string _] of its
      own properties.  Where the code reads such an object at a key its
      caller chooses ([el.id in values], [LOCALES[locale]]), the names it
      inherits from [Object.prototype] are taken into account
      ([inherited]); the other keys are message ids and names of
      [UIStrings], which are no such names.  An object whose key order is
      observed ([Object.keys]) is an association list in enumeration order.
    - A thrown exception is the left injection of a sum; the right injection
      is the returned value.  The module-level [_icuMessageInstanceMap] is
      passed in and out of the function that writes it.
    - External libraries (the ICU parser and formatter, [lodash.isequal],
      [path], [JSON], [Intl]) and the arithmetic of JS numbers are Section
      variables; [lookup-closest-locale] is written out. *)

From Stdlib Require Import Ascii String ZArith NArith Lia Bool.
From Stdlib Require Import DecimalString DecimalNat DecimalFacts QArith Qround.
From stdpp Require Import base tactics option list gmap strings fin_maps.

Local Open Scope list_scope.
Local Open Scope nat_scope.
Local Open Scope stdpp_scope.

(** ** Strings *)

Module Str.

Abbreviation len := String.length.

Fixpoint all (p : ascii → bool) (s : string) : bool :=
  match s with
  | EmptyString => true
  | String a s' => p a && all p s'
  end.

Fixpoint any (p : ascii → bool) (s : string) : bool :=
  match s with
  | EmptyString => false
  | String a s' => p a || any p s'
  end.

(** [take n s] is the JS [s.substring(0, n)]. *)
Fixpoint take (n : nat) (s : string) : string :=
  match n, s with
  | S n', String a s' => String a (take n' s')
  | _, _ => EmptyString
  end.

(** [s.startsWith(w)] *)
Fixpoint starts_with (w s : string) : bool :=
  match w with
  | EmptyString => true
  | String a w' =>
      match s with
      | EmptyString => false
      | String b s' => Ascii.eqb a b && starts_with w' s'
      end
  end.

(** [s.includes(w)] *)
Fixpoint includes (w s : string) : bool :=
  if starts_with w s then true
  else match s with
       | EmptyString => false
       | String _ s' => includes w s'
       end.

End Str.

(** ** A backtracking matcher for the regular-expression literals of the file

    The matcher follows the ECMAScript pattern semantics for the constructs
    the source uses: a matcher takes the current position and a continuation
    and returns the first success in priority order; [*] is greedy and
    refuses an iteration that consumes nothing; an alternation tries its left
    branch first; without the [g], [m], [s] and [u] flags [^] and [$] match
    at the two ends of the input only, and [.] excludes the line
    terminators.  None of the literals has a group under a quantifier, so
    captures need no reset between iterations. *)

Module RegExp.

Inductive regex : Type :=
| Empty
| Char (p : ascii → bool)
| Seq (r1 r2 : regex)
| Alt (r1 r2 : regex)
| Star (r : regex)
| Group (n : nat) (r : regex)
| Bol
| Eol.

(** Captures: group number and captured text, most recent first. *)
Definition caps : Type := list (nat * string).

Fixpoint cap (c : caps) (n : nat) : option string :=
  match c with
  | [] => None
  | (n', w) :: c' => if Nat.eqb n' n then Some w else cap c' n
  end.

(** A configuration: index of the next code unit, the input from there on,
    and the captures so far. *)
Definition cfg : Type := nat * string * caps.

Section Matcher.
Context {A : Type}.

Definition cont : Type := nat → string → caps → option A.

Definition orelse (x y : option A) : option A :=
  match x with Some _ => x | None => y end.

Fixpoint star_loop (body : nat → string → caps → cont → option A)
    (k : cont) (fuel : nat) (i : nat) (s : string) (c : caps) : option A :=
  match fuel with
  | O => k i s c
  | S fuel' =>
      orelse
        (body i s c (fun i' s' c' =>
           if Nat.ltb (Str.len s') (Str.len s)
           then star_loop body k fuel' i' s' c'
           else None))
        (k i s c)
  end.

Fixpoint m (r : regex) (i : nat) (s : string) (c : caps) (k : cont)
    {struct r} : option A :=
  match r with
  | Empty => k i s c
  | Char p =>
      match s with
      | String a s' => if p a then k (S i) s' c else None
      | EmptyString => None
      end
  | Seq r1 r2 => m r1 i s c (fun i' s' c' => m r2 i' s' c' k)
  | Alt r1 r2 => orelse (m r1 i s c k) (m r2 i s c k)
  | Star r1 => star_loop (m r1) k (Str.len s) i s c
  | Group n r1 =>
      m r1 i s c (fun i' s' c' => k i' s' ((n, Str.take (i' - i) s) :: c'))
  | Bol => if Nat.eqb i 0 then k i s c else None
  | Eol => match s with EmptyString => k i s c | String _ _ => None end
  end.
End Matcher.

(** [RegExp.prototype.exec] without the [g] flag: the start positions are
    tried from the left; group 0 is the whole match. *)
Fixpoint search (r : regex) (i : nat) (s : string) : option caps :=
  match m (Group 0 r) i s [] (fun _ _ c => Some c) with
  | Some c => Some c
  | None =>
      match s with
      | EmptyString => None
      | String _ s' => search r (S i) s'
      end
  end.

Definition exec (r : regex) (s : string) : option caps := search r 0 s.

(** [RegExp.prototype.test] *)
Definition test (r : regex) (s : string) : bool :=
  match exec r s with Some _ => true | None => false end.

(** A literal run of characters. *)
Fixpoint lit (w : string) : regex :=
  match w with
  | EmptyString => Empty
  | String a w' => Seq (Char (Ascii.eqb a)) (lit w')
  end.

Definition plus (r : regex) : regex := Seq r (Star r).

(** *** Declarative reading of a pattern

    [run r x y]: the pattern [r] can take the matcher from configuration [x]
    to configuration [y].  The matcher is proved sound and complete for it
    below. *)

Inductive run : regex → cfg → cfg → Prop :=
| run_empty x : run Empty x x
| run_char p a i s c : p a = true → run (Char p) (i, String a s, c) (S i, s, c)
| run_seq r1 r2 x y z : run r1 x y → run r2 y z → run (Seq r1 r2) x z
| run_alt_l r1 r2 x y : run r1 x y → run (Alt r1 r2) x y
| run_alt_r r1 r2 x y : run r2 x y → run (Alt r1 r2) x y
| run_star_stop r x : run (Star r) x x
| run_star_step r i s c i' s' c' z :
    run r (i, s, c) (i', s', c') →
    Str.len s' < Str.len s →
    run (Star r) (i', s', c') z →
    run (Star r) (i, s, c) z
| run_group n r i s c i' s' c' :
    run r (i, s, c) (i', s', c') →
    run (Group n r) (i, s, c) (i', s', (n, Str.take (i' - i) s) :: c')
| run_bol s c : run Bol (0, s, c) (0, s, c)
| run_eol i c : run Eol (i, EmptyString, c) (i, EmptyString, c).

End RegExp.


(** ** Character classes and the regular-expression literals *)

(** Line terminators excluded by [.]: LF and CR (U+2028 and U+2029 lie
    outside the code-unit range of the model). *)
Definition is_line_terminator (a : ascii) : bool :=
  match a with
  | "010"%char | "013"%char => true
  | _ => false
  end.

Definition dot (a : ascii) : bool := negb (is_line_terminator a).

(** [\d] *)
Definition digit (a : ascii) : bool :=
  match a with
  | "0"%char | "1"%char | "2"%char | "3"%char | "4"%char
  | "5"%char | "6"%char | "7"%char | "8"%char | "9"%char => true
  | _ => false
  end.

(** [[a-z]] under the [i] flag: the ASCII letters of either case. *)
Definition letter (a : ascii) : bool :=
  let n := nat_of_ascii a in
  (Nat.leb 65 n && Nat.leb n 90) || (Nat.leb 97 n && Nat.leb n 122).

(** [\s]: TAB, LF, VT, FF, CR, space and U+00A0 (the other white-space code
    units lie outside the range of the model). *)
Definition white_space (a : ascii) : bool :=
  match a with
  | "009"%char | "010"%char | "011"%char | "012"%char | "013"%char
  | " "%char | "160"%char => true
  | _ => false
  end.

Definition dquote : ascii := "034"%char.
Definition squote : ascii := "039"%char.

(** [MESSAGE_INSTANCE_ID_REGEX]: group 1 holds a run of [.], the text " | "
    and a run of [.]; then the text " # "; group 2 holds one or more [\d];
    then the end of the input. *)
Definition MESSAGE_INSTANCE_ID_REGEX : RegExp.regex :=
  RegExp.Seq
    (RegExp.Group 1
       (RegExp.Seq (RegExp.Star (RegExp.Char dot))
          (RegExp.Seq (RegExp.lit " | ") (RegExp.Star (RegExp.Char dot)))))
    (RegExp.Seq (RegExp.lit " # ")
       (RegExp.Seq (RegExp.Group 2 (RegExp.plus (RegExp.Char digit)))
          RegExp.Eol)).

(** [MESSAGE_INSTANCE_ID_QUICK_REGEX]: the text " # ", one or more [\d], the
    end of the input. *)
Definition MESSAGE_INSTANCE_ID_QUICK_REGEX : RegExp.regex :=
  RegExp.Seq (RegExp.lit " # ")
    (RegExp.Seq (RegExp.plus (RegExp.Char digit)) RegExp.Eol).

(** The literal with source "/^[a-z]+$/i", the test of [_formatPathAsString]
    for a bare segment. *)
Definition BARE_SEGMENT_REGEX : RegExp.regex :=
  RegExp.Seq RegExp.Bol
    (RegExp.Seq (RegExp.plus (RegExp.Char letter)) RegExp.Eol).

(** The alternation of [_formatPathAsString] for what it cannot bracket: a
    closing bracket, a double quote, a single quote or white space. *)
Definition UNBRACKETABLE_REGEX : RegExp.regex :=
  RegExp.Alt (RegExp.Char (Ascii.eqb "]"%char))
    (RegExp.Alt (RegExp.Char (Ascii.eqb dquote))
       (RegExp.Alt (RegExp.Char (Ascii.eqb squote))
          (RegExp.Char white_space))).

(** ** Numbers in tokens *)

(** Template-literal interpolation of an array index: its decimal digits. *)
Definition index_to_string (n : nat) : string :=
  NilEmpty.string_of_uint (Nat.to_uint n).

Definition digit_value (a : ascii) : nat := nat_of_ascii a - 48.

Fixpoint Number_acc (acc : nat) (d : string) : nat :=
  match d with
  | EmptyString => acc
  | String a d' => Number_acc (10 * acc + digit_value a) d'
  end.

(** [Number(d)] for a string [d] of decimal digits: its exact value.  A JS
    number holds every integer below [2^53] exactly; above that [Number]
    rounds, which is not modelled (array indices stay below [2^32]). *)
Definition Number (d : string) : nat := Number_acc 0 d.

(** ** Exceptions *)

Inductive exn : Type :=
| Error (message : string)
| TypeError (message : string)
| RangeError (message : string)
| SyntaxError (message : string).

Definition result (A : Type) : Type := exn + A.

Definition throw {A} (e : exn) : result A := inl e.

#[global] Instance result_ret : MRet result := fun A x => inr x.

#[global] Instance result_bind : MBind result := fun A B f x =>
  match x with
  | inl e => inl e
  | inr a => f a
  end.

(** JS truthiness of an optional string: [undefined] and the empty string
    are falsy. *)
Definition truthy (s : option string) : bool :=
  match s with
  | Some (String _ _) => true
  | _ => false
  end.

(** ** JS objects whose key order is observed *)

(** Own enumerable string-keyed properties in enumeration order, which is
    insertion order for the declared names used here (none is an array
    index). *)
Definition obj : Type := list (string * string).

Fixpoint obj_get (o : obj) (k : string) : option string :=
  match o with
  | [] => None
  | (k', v) :: o' => if String.eqb k' k then Some v else obj_get o' k
  end.

(** [k in o] *)
Definition obj_has (o : obj) (k : string) : bool :=
  match obj_get o k with Some _ => true | None => false end.

(** [Object.keys(o)] *)
Definition obj_keys (o : obj) : list string := map fst o.

(** [o[k] = v]: an existing property keeps its place, a new one goes last. *)
Fixpoint obj_set (o : obj) (k v : string) : obj :=
  match o with
  | [] => [(k, v)]
  | (k', v') :: o' =>
      if String.eqb k' k then (k', v) :: o' else (k', v') :: obj_set o' k v
  end.

(** Object spread of [b] over [a]. *)
Definition spread (a b : obj) : obj :=
  fold_left (fun o kv => obj_set o kv.1 kv.2) b a.

(** [Array.prototype.findIndex]; [None] stands for [-1]. *)
Fixpoint findIndex {A} (p : A → bool) (l : list A) : option nat :=
  match l with
  | [] => None
  | x :: l' => if p x then Some 0 else S <$> findIndex p l'
  end.

Definition nbsp : string := String "160"%char EmptyString.

Definition UIStrings : obj :=
  [ ("ms", "{timeInMs, number, milliseconds}" +:+ nbsp +:+ "ms");
    ("seconds", "{timeInMs, number, seconds}" +:+ nbsp +:+ "s");
    ("displayValueByteSavings",
       "Potential savings of {wastedBytes, number, bytes}" +:+ nbsp +:+ "KB");
    ("displayValueMsSavings",
       "Potential savings of {wastedMs, number, milliseconds}" +:+ nbsp +:+ "ms");
    ("columnURL", "URL");
    ("columnSize", "Size");
    ("columnCacheTTL", "Cache TTL");
    ("columnWastedBytes", "Potential Savings");
    ("columnWastedMs", "Potential Savings");
    ("columnTimeSpent", "Time Spent");
    ("columnLocation", "Location");
    ("columnResourceType", "Resource Type");
    ("columnRequests", "Requests");
    ("columnTransferSize", "Transfer Size");
    ("columnName", "Name");
    ("totalResourceType", "Total");
    ("documentResourceType", "Document");
    ("scriptResourceType", "Script");
    ("stylesheetResourceType", "Stylesheet");
    ("imageResourceType", "Image");
    ("mediaResourceType", "Media");
    ("fontResourceType", "Font");
    ("otherResourceType", "Other");
    ("thirdPartyResourceType", "Third-party") ].

(** [s.replace(/\\/g, '/')] *)
Fixpoint replace_backslashes (s : string) : string :=
  match s with
  | EmptyString => EmptyString
  | String a s' =>
      String (if Ascii.eqb a "092"%char then "/"%char else a)
        (replace_backslashes s')
  end.

(** ** Names inherited from [Object.prototype] *)

(** The properties every plain object inherits. *)
Definition Object_prototype_names : list string :=
  [ "constructor"; "__defineGetter__"; "__defineSetter__"; "hasOwnProperty";
    "__lookupGetter__"; "__lookupSetter__"; "isPrototypeOf";
    "propertyIsEnumerable"; "toString"; "valueOf"; "__proto__";
    "toLocaleString" ].

Definition inherited (name : string) : bool :=
  existsb (String.eqb name) Object_prototype_names.

(** ** The parsed form of an ICU template

    The shape of the tree returned by [intl-messageformat-parser]: a pattern
    is a list of elements; an argument element carries its [id] and an
    optional format; only the simple formats (number, date, time) have a
    [style]; plural and select formats hold nested patterns in their
    options.  The [id] of an argument is a string, or a number where the
    template names the argument by a decimal numeral, as in [{0}]. *)

Inductive ident : Type :=
| IdStr (s : string)
| IdNum (n : nat).

#[global] Instance ident_eq_dec : EqDecision ident.
Proof. solve_decision. Defined.

(** The property key an id denotes: [String(el.id)], for a number its
    decimal digits (numbers below [2^53], which are held exactly). *)
Definition id_key (id : ident) : string :=
  match id with
  | IdStr s => s
  | IdNum n => index_to_string n
  end.

(** JS truthiness of an id: the empty string and the number 0 are falsy. *)
Definition id_truthy (id : ident) : bool :=
  match id with
  | IdStr EmptyString => false
  | IdStr (String _ _) => true
  | IdNum O => false
  | IdNum (S _) => true
  end.

Inductive element : Type :=
| messageTextElement (value : string)
| argumentElement (id : ident) (format : option format)
with format : Type :=
| simpleFormat (type : string) (style : option string)
| pluralFormat (ordinal : bool) (offset : Z)
    (options : list (string * list element))
| selectFormat (options : list (string * list element)).

(** [el.type === 'argumentElement'] *)
Definition is_argumentElement (el : element) : bool :=
  match el with argumentElement _ _ => true | messageTextElement _ => false end.

(** [el.id] ([None] is [undefined]) *)
Definition element_id (el : element) : option ident :=
  match el with argumentElement id _ => Some id | messageTextElement _ => None end.

(** The key of [clonedValues[el.id]] *)
Definition element_key (el : element) : option string :=
  match el with
  | argumentElement id _ => Some (id_key id)
  | messageTextElement _ => None
  end.

(** [el.format && el.format.style] *)
Definition element_style (el : element) : option string :=
  match el with
  | argumentElement _ (Some (simpleFormat _ style)) => style
  | _ => None
  end.

Definition has_style (style : string) (el : element) : bool :=
  match element_style el with
  | Some s => String.eqb s style
  | None => false
  end.

(** ** Locale lookup helpers *)

(** [s.split(sep)] for a one-character separator. *)
Fixpoint split (sep : ascii) (s : string) : list string :=
  match s with
  | EmptyString => [EmptyString]
  | String a s' =>
      if Ascii.eqb a sep then EmptyString :: split sep s'
      else match split sep s' with
           | h :: t => String a h :: t
           | [] => [String a EmptyString]
           end
  end.

(** [l.join(sep)] *)
Fixpoint join (sep : string) (l : list string) : string :=
  match l with
  | [] => EmptyString
  | [x] => x
  | x :: l' => x +:+ sep +:+ join sep l'
  end.

(** The [while (current.length)] loop of [lookup-closest-locale]: [n] is the
    number of subtags still in [current]. *)
Fixpoint pop_loop {V} (available : gmap string V) (parts : list string)
    (n : nat) : option string :=
  match n with
  | O => None
  | S n' =>
      let candidate := join "-" (take n parts) in
      match available !! candidate with
      | Some _ => Some candidate
      | None => pop_loop available parts n'
      end
  end.

(** The package [lookup-closest-locale], called with one tag (or
    [undefined]): the tag itself when available, else its longest available
    prefix obtained by dropping trailing subtags, else [undefined]. *)
Definition lookupClosestLocale {V} (locale : option string)
    (available : gmap string V) : option string :=
  match locale with
  | Some tag =>
      match available !! tag with
      | Some _ => Some tag
      | None =>
          match tag with
          | EmptyString => None
          | String _ _ =>
              let current := split "-"%char tag in
              pop_loop available current (length current)
          end
      end
  | None => None
  end.

(** ** Message instances *)

Module Inst.

Record IcuMessageInstance (val : Type) : Type := make {
  icuMessageId : string;
  icuMessage : string;
  values : option (gmap string val)
}.

Arguments make {val} _ _ _.
Arguments icuMessageId {val} _.
Arguments icuMessage {val} _.
Arguments values {val} _.

End Inst.

Definition _ICUMsgNotFoundMsg : string :=
  "ICU message not found in destination locale".

(** ** Stand-ins for the external libraries, used to run the examples *)

Module Sample.

(** Numbers as exact rationals in lowest terms; [None] is [NaN] (and
    [undefined]). *)
Definition num : Type := option Q.

#[global] Instance Q_eq_dec : EqDecision Q.
Proof. solve_decision. Defined.

Definition div (a b : num) : num :=
  match a, b with
  | Some x, Some y => Some (Qred (Qdiv x y))
  | _, _ => None
  end.

Definition mul (a b : num) : num :=
  match a, b with
  | Some x, Some y => Some (Qred (Qmult x y))
  | _, _ => None
  end.

(** [Math.round]: the nearest integer, a tie going up. *)
Definition round (a : num) : num :=
  match a with
  | Some x => Some (inject_Z (Qfloor (Qplus x (Qmake 1 2))))
  | None => None
  end.

Definition number (z : Z) : num := Some (inject_Z z).

Definition clone (v : gmap string num) : gmap string num := v.

Definition isEqual (a b : option (gmap string num)) : bool :=
  bool_decide (a = b).

Definition alnum (a : ascii) : bool := digit a || letter a.

Definition subtag_ok (t : string) : bool :=
  Nat.leb 1 (Str.len t) && Nat.leb (Str.len t) 8 && Str.all alnum t.

(** A canonicaliser that enforces one structural rule of language tags, that
    a tag is a hyphen-separated list of subtags of one to eight ASCII letters
    or digits, raises [RangeError] otherwise as [Intl.getCanonicalLocales]
    does, and returns an accepted tag as given. *)
Definition getCanonicalLocales (locale : option string) : result (list string) :=
  match locale with
  | None => mret []
  | Some tag =>
      if forallb subtag_ok (split "-"%char tag) then mret [tag]
      else throw (RangeError "Incorrect locale information provided")
  end.

Definition LOCALES : gmap string (gmap string string) :=
  <["en" := {["lighthouse-core/lib/i18n/i18n.js | ms" :=
               "{timeInMs, number, milliseconds}" +:+ nbsp +:+ "ms"]}]>
  (<["de" := ∅]> (<["de-CH" := ∅]> ∅)).

(** A table-driven parser for the templates of the examples. *)
Definition parse (t : string) : result (list element) :=
  if String.eqb t ("{timeInMs, number, milliseconds}" +:+ nbsp +:+ "ms") then
    mret [argumentElement (IdStr "timeInMs") (Some (simpleFormat "numberFormat" (Some "milliseconds")));
          messageTextElement (nbsp +:+ "ms")]
  else if String.eqb t ("{timeInMs, number, seconds}" +:+ nbsp +:+ "s") then
    mret [argumentElement (IdStr "timeInMs") (Some (simpleFormat "numberFormat" (Some "seconds")));
          messageTextElement (nbsp +:+ "s")]
  else if String.eqb t "{b, number, bytes} of {b, number, bytes}" then
    mret [argumentElement (IdStr "b") (Some (simpleFormat "numberFormat" (Some "bytes")));
          messageTextElement " of ";
          argumentElement (IdStr "b") (Some (simpleFormat "numberFormat" (Some "bytes")))]
  else if String.eqb t "{n, plural, one {{x}} other {}}" then
    mret [argumentElement (IdStr "n")
            (Some (pluralFormat false 0
               [("one", [argumentElement (IdStr "x") None]); ("other", [])]))]
  else if String.eqb t "{x}" then
    mret [argumentElement (IdStr "x") None]
  else if String.eqb t "{0} of {toString}" then
    mret [argumentElement (IdNum 0) None;
          messageTextElement " of ";
          argumentElement (IdStr "toString") None]
  else throw (SyntaxError t).

(** A formatter that renders every template as itself. *)
Definition MessageFormat (t locale : string)
    : result (gmap string num → result string) :=
  mret (fun _ => mret t).

End Sample.

(** ** The program *)


(** ** More string operations *)

Module JsStr.

(** [s.substring(n)] *)
Fixpoint drop (n : nat) (s : string) : string :=
  match n, s with
  | S n', String _ s' => drop n' s'
  | _, _ => s
  end.

(** The text before and after the first occurrence of [w] in [s], as
    [s.indexOf(w)] locates it. *)
Fixpoint cut (w s : string) : option (string * string) :=
  if Str.starts_with w s then Some (EmptyString, drop (Str.len w) s)
  else match s with
       | EmptyString => None
       | String a s' =>
           match cut w s' with
           | Some (before, after) => Some (String a before, after)
           | None => None
           end
       end.

(** The replacement text of [String.prototype.replace] for a string
    pattern, which has no captures: [$$] is a dollar sign, [$&] the matched
    text, [$`] the text before the match, [$'] the text after it, and every
    other character stands for itself. *)
Fixpoint substitution (matched before after replacement : string) : string :=
  match replacement with
  | EmptyString => EmptyString
  | String "$"%char (String "$"%char r) =>
      "$" +:+ substitution matched before after r
  | String "$"%char (String "&"%char r) =>
      matched +:+ substitution matched before after r
  | String "$"%char (String "`"%char r) =>
      before +:+ substitution matched before after r
  | String "$"%char (String "'"%char r) =>
      after +:+ substitution matched before after r
  | String a r => String a (substitution matched before after r)
  end.

(** [s.replace(w, replacement)] for a string pattern [w]: the first
    occurrence only. *)
Definition replace (s w replacement : string) : string :=
  match cut w s with
  | None => s
  | Some (before, after) =>
      before +:+ substitution w before after replacement +:+ after
  end.

(** [s.endsWith(w)] *)
Fixpoint ends_with (w s : string) : bool :=
  if String.eqb s w then true
  else match s with
       | EmptyString => false
       | String _ s' => ends_with w s'
       end.

(** [s.split(sep)] for a non-empty separator; [skip] counts the characters
    of a separator still to pass over. *)
Fixpoint split_go (sep : string) (skip : nat) (s : string) : list string :=
  match s with
  | EmptyString => [EmptyString]
  | String a s' =>
      match skip with
      | S k => split_go sep k s'
      | O =>
          if Str.starts_with sep s
          then EmptyString :: split_go sep (Str.len sep - 1) s'
          else match split_go sep 0 s' with
               | h :: t => String a h :: t
               | [] => [String a EmptyString]
               end
      end
  end.

Definition split (sep s : string) : list string := split_go sep 0 s.

End JsStr.

(** ** Matching with the [g] flag *)

Module RegExpG.

(** The first match at or after the current position: the matched text and
    the input that follows it. *)
Fixpoint search_rest (r : RegExp.regex) (i : nat) (s : string)
    : option (string * string) :=
  match RegExp.m (RegExp.Group 0 r) i s []
          (fun _ s' c => Some (default EmptyString (RegExp.cap c 0), s')) with
  | Some x => Some x
  | None =>
      match s with
      | EmptyString => None
      | String _ s' => search_rest r (S i) s'
      end
  end.

(** [s.match(r)] for a pattern with the [g] flag whose matches are never
    empty: all the matches, left to right, each search starting where the
    previous match ended. *)
Fixpoint match_all_go (r : RegExp.regex) (fuel i : nat) (s : string)
    : list string :=
  match fuel with
  | O => []
  | S fuel' =>
      match search_rest r i s with
      | None => []
      | Some (matched, rest) =>
          matched :: match_all_go r fuel' (i + (Str.len s - Str.len rest)) rest
      end
  end.

Definition match_all (r : RegExp.regex) (s : string) : list string :=
  match_all_go r (S (Str.len s)) 0 s.

End RegExpG.

(** [\w] *)
Definition word (a : ascii) : bool :=
  digit a || letter a || Ascii.eqb a "_"%char.

(** The literal of [getFormattedFromIdAndValues]: group 1 holds a run of
    [.], the text " | " and a run of [.]; then the end of the input. *)
Definition ICU_MESSAGE_ID_REGEX : RegExp.regex :=
  RegExp.Seq
    (RegExp.Group 1
       (RegExp.Seq (RegExp.Star (RegExp.Char dot))
          (RegExp.Seq (RegExp.lit " | ") (RegExp.Star (RegExp.Char dot)))))
    RegExp.Eol.

(** ** [scripts/i18n/bake-ctc-to-lhl.js] *)

Module Bake.

Record ICUPlaceholderDefn : Type := {
  content : string;
  example : option string
}.

Record ICUMessageDefn : Type := {
  message : string;
  description : option string;
  meaning : option string;
  placeholders : option (list (string * ICUPlaceholderDefn))
}.

(** The literal of the sanity check: a dollar sign, one or more [\w], a
    dollar sign. *)
Definition PLACEHOLDER_REGEX : RegExp.regex :=
  RegExp.Seq (RegExp.Char (Ascii.eqb "$"%char))
    (RegExp.Seq (RegExp.plus (RegExp.Char word))
       (RegExp.Char (Ascii.eqb "$"%char))).

Definition placeholder_not_found (placeholder message : string) : exn :=
  Error ("Provided placeholder " +:+ String dquote placeholder +:+
         String dquote " not found in message " +:+
         String dquote message +:+ String dquote ".").

Definition missing_placeholders (message : string) : exn :=
  Error ("Message " +:+ String dquote message +:+
         String dquote " is missing placeholder(s): " +:+
         join "," (RegExpG.match_all PLACEHOLDER_REGEX message)).

(** The inner loop over [Object.entries(placeholders)]. *)
Fixpoint replace_placeholders (message : string)
    (entries : list (string * ICUPlaceholderDefn)) : result string :=
  match entries with
  | [] => mret message
  | (placeholder, defn) :: rest =>
      let escapedPlaceholder := "$" +:+ placeholder +:+ "$" in
      if Str.includes escapedPlaceholder message then
        replace_placeholders
          (JsStr.replace message escapedPlaceholder (content defn)) rest
      else throw (placeholder_not_found placeholder message)
  end.

(** The body of the outer loop: the baked text of one message. *)
Definition bakeMessage (defn : ICUMessageDefn) : result string :=
  message ←
    match placeholders defn with
    | Some entries => replace_placeholders (message defn) entries
    | None => mret (message defn)
    end;
  if RegExp.test PLACEHOLDER_REGEX message
  then throw (missing_placeholders message)
  else mret message.

Fixpoint bake_loop (messages : list (string * ICUMessageDefn))
    (bakedMessages : obj) : result obj :=
  match messages with
  | [] => mret bakedMessages
  | (key, defn) :: rest =>
      message ← bakeMessage defn;
      bake_loop rest (obj_set bakedMessages key message)
  end.

(** [messages] is [Object.entries] of the argument; the result maps every
    key to its baked [message]. *)
Definition bakePlaceholders (messages : list (string * ICUMessageDefn))
    : result obj :=
  bake_loop messages [].

End Bake.
Section I18n.

(** JS values held in a [values] record, with the arithmetic the program
    applies to them. *)
Variable val : Type.
Variable undefined : val.
Variable js_div js_mul : val → val → val.
Variable Math_round : val → val.
Variable js_number : Z → val.

(** [JSON.parse(JSON.stringify(values))] *)
Variable JSON_clone : gmap string val → gmap string val.

(** [lodash.isequal] on the optional [values] of two instances. *)
Variable isDeepEqual : option (gmap string val) → option (gmap string val) → bool.

(** [MessageParser.parse(icuMessage).elements] *)
Variable MessageParser_parse : string → result (list element).

(** [new MessageFormat(message, locale, formats)] and its [format] method. *)
Variable MessageFormat : string → string → result (gmap string val → result string).

(** [require('./locales.js')]: locale tag to message id to message. *)
Variable LOCALES : gmap string (gmap string string).

(** [path.relative(LH_ROOT, file)] and the path of [i18n.js] itself. *)
Variable path_relative_LH_ROOT : string → string.
Variable __filename : string.

Variable Intl_getCanonicalLocales : option string → result (list string).

Abbreviation instance := (Inst.IcuMessageInstance val).

(** The state of [_icuMessageInstanceMap]. *)
Abbreviation registry := (gmap string (list instance)).

Definition lookupLocale (locale : option string) : result string :=
  canonicalLocales ← Intl_getCanonicalLocales locale;
  let canonicalLocale := head canonicalLocales in
  let closestLocale := lookupClosestLocale canonicalLocale LOCALES in
  mret (if truthy closestLocale then default "en" closestLocale else "en").

(** [clonedValues[id]].  (Under a name inherited from [Object.prototype]
    that the clone lacks, the code reads the inherited function; each use
    divides what is read by a number, which gives [NaN] for the function as
    for [undefined].) *)
Definition js_get (o : gmap string val) (id : string) : val :=
  default undefined (o !! id).

Definition value_not_provided (id : string) : exn :=
  Error ("ICU Message contains a value reference ("
         +:+ String dquote id +:+ String dquote ") that wasn't provided").

(** [key in values] for a plain object [values]: an own property, or one
    inherited from [Object.prototype]. *)
Definition js_in (key : string) (values : gmap string val) : bool :=
  bool_decide (is_Some (values !! key)) || inherited key.

(** The [forEach] that throws at the first argument element whose value is
    not provided: [el.id && (el.id in values) === false]. *)
Fixpoint check_provided (values : gmap string val) (els : list element)
    : result unit :=
  match els with
  | [] => mret tt
  | el :: els' =>
      match element_id el with
      | Some id =>
          if id_truthy id && negb (js_in (id_key id) values)
          then throw (value_not_provided (id_key id))
          else check_provided values els'
      | None => check_provided values els'
      end
  end.

(** One [forEach] pass: [clonedValues[el.id] = f(clonedValues[el.id])] for
    every selected element, in order. *)
Definition convert (f : val → val) (els : list element)
    (clonedValues : gmap string val) : gmap string val :=
  fold_left
    (fun cv el =>
       match element_key el with
       | Some key => <[key := f (js_get cv key)]> cv
       | None => cv
       end)
    els clonedValues.

Definition to_nearest_10 (v : val) : val :=
  js_mul (Math_round (js_div v (js_number 10))) (js_number 10).

Definition ms_to_seconds (v : val) : val :=
  js_div (Math_round (js_div v (js_number 100))) (js_number 10).

Definition bytes_to_kb (v : val) : val := js_div v (js_number 1024).

(** The three filters of [_preprocessMessageValues]. *)
Definition converts_ms (el : element) : bool := has_style "milliseconds" el.

Definition converts_seconds (el : element) : bool :=
  has_style "seconds" el &&
  bool_decide (element_id el = Some (IdStr "timeInMs")).

Definition converts_bytes (el : element) : bool := has_style "bytes" el.

Definition _preprocessMessageValues (icuMessage : string)
    (values : option (gmap string val)) : result (gmap string val) :=
  let values := default ∅ values in
  let clonedValues := JSON_clone values in
  elements ← MessageParser_parse icuMessage;
  _ ← check_provided values (List.filter is_argumentElement elements);
  let clonedValues :=
    convert to_nearest_10 (List.filter converts_ms elements) clonedValues in
  let clonedValues :=
    convert ms_to_seconds (List.filter converts_seconds elements) clonedValues in
  let clonedValues :=
    convert bytes_to_kb (List.filter converts_bytes elements) clonedValues in
  mret clonedValues.

(** Lines 185 to 204 of [_formatIcuMessage]: the template to format.
    [LOCALES[locale]] is read through the prototype chain: for a locale
    that is no key of [LOCALES] but a name of [Object.prototype] it is the
    inherited member, which is truthy and passes the test; such a member (a
    built-in function, or the prototype itself) has no property named by a
    message id (both callers pass an id that holds " | "), so
    [localeMessage] is [undefined] there.  The [log.warn] of
    the fallback branch leaves no trace in the result and is dropped; its
    condition reads [LOCALES.en[icuMessageId]], which throws when there is
    no [en] catalog. *)
Definition resolveLocaleMessage (locale icuMessageId : string)
    (uiStringMessage : option string) : result string :=
  localeMessage ←
    match LOCALES !! locale with
    | Some localeMessages => mret (localeMessages !! icuMessageId)
    | None =>
        if inherited locale then mret None
        else throw (Error ("Unsupported locale '" +:+ locale +:+ "'"))
    end;
  localeMessage ←
    (if negb (truthy localeMessage) && truthy uiStringMessage then
       match LOCALES !! "en" with
       | Some _ => mret uiStringMessage
       | None =>
           throw (TypeError
             ("Cannot read property '" +:+ icuMessageId +:+ "' of undefined"))
       end
     else mret localeMessage);
  match localeMessage with
  | Some (String a m') => mret (String a m')
  | _ => throw (Error _ICUMsgNotFoundMsg)
  end.

(** Returns [(formattedString, icuMessage)]. *)
Definition _formatIcuMessage (locale icuMessageId : string)
    (uiStringMessage : option string) (values : option (gmap string val))
    : result (string * string) :=
  localeMessage ← resolveLocaleMessage locale icuMessageId uiStringMessage;
  let localeForMessageFormat :=
    if String.eqb locale "en-XA" || String.eqb locale "en-XL"
    then "de-DE" else locale in
  valuesForMessageFormat ← _preprocessMessageValues localeMessage values;
  formatter ← MessageFormat localeMessage localeForMessageFormat;
  formattedString ← formatter valuesForMessageFormat;
  mret (formattedString, localeMessage).

Definition cannot_handle (property : string) : exn :=
  Error ("Cannot handle " +:+ String dquote property +:+ String dquote " in i18n").

Fixpoint formatPath_loop (pathAsString : string) (pathInLHR : list string)
    : result string :=
  match pathInLHR with
  | [] => mret pathAsString
  | property :: rest =>
      if RegExp.test BARE_SEGMENT_REGEX property then
        let pathAsString :=
          if Nat.eqb (Str.len pathAsString) 0 then pathAsString
          else pathAsString +:+ "." in
        formatPath_loop (pathAsString +:+ property) rest
      else if RegExp.test UNBRACKETABLE_REGEX property then
        throw (cannot_handle property)
      else formatPath_loop (pathAsString +:+ "[" +:+ property +:+ "]") rest
  end.

Definition _formatPathAsString (pathInLHR : list string) : result string :=
  formatPath_loop EmptyString pathInLHR.

(** Lines 272 to 277 of [getMessageInstanceIdFn]: the message id of a
    template, or the error when no declared string equals it. *)
Definition messageIdOf (filename : string) (fileStrings : obj)
    (icuMessage : string) : result string :=
  let mergedStrings := spread (spread [] UIStrings) fileStrings in
  let keyname :=
    find (fun key => match obj_get mergedStrings key with
                     | Some v => String.eqb v icuMessage
                     | None => false
                     end)
         (obj_keys mergedStrings) in
  match keyname with
  | Some (String a k') =>
      let keyname := String a k' in
      let filenameToLookup :=
        if obj_has fileStrings keyname then filename else __filename in
      let unixStyleFilename :=
        replace_backslashes (path_relative_LH_ROOT filenameToLookup) in
      mret (unixStyleFilename +:+ " | " +:+ keyname)
  | _ => throw (Error ("Could not locate: " +:+ icuMessage))
  end.

(** The encoder of reference tokens. *)
Definition encode (icuMessageId : string) (indexOfInstance : nat) : string :=
  icuMessageId +:+ " # " +:+ index_to_string indexOfInstance.

(** The function returned by [createMessageInstanceIdFn filename
    fileStrings], threading the registry. *)
Definition getMessageInstanceIdFn (filename : string) (fileStrings : obj)
    (icuMessage : string) (values : option (gmap string val))
    (map : registry) : result string * registry :=
  match messageIdOf filename fileStrings icuMessage with
  | inl e => (inl e, map)
  | inr icuMessageId =>
      let icuMessageInstances := default [] (map !! icuMessageId) in
      let '(icuMessageInstances, indexOfInstance) :=
        match findIndex (fun inst => isDeepEqual (Inst.values inst) values)
                icuMessageInstances with
        | Some i => (icuMessageInstances, i)
        | None =>
            let pushed :=
              icuMessageInstances ++ [Inst.make icuMessageId icuMessage values] in
            (pushed, length pushed - 1)
        end in
      (mret (encode icuMessageId indexOfInstance),
       <[icuMessageId := icuMessageInstances]> map)
  end.

Definition isIcuMessage (icuMessageIdOrRawString : string) : bool :=
  RegExp.test MESSAGE_INSTANCE_ID_QUICK_REGEX icuMessageIdOrRawString &&
  RegExp.test MESSAGE_INSTANCE_ID_REGEX icuMessageIdOrRawString.

(** Group [n] of a successful match (both groups of the instance-id literal
    take part in every match). *)
Definition group (c : RegExp.caps) (n : nat) : string :=
  default EmptyString (RegExp.cap c n).

(** The destructured [matches] of [_resolveIcuMessageInstanceId]: the message
    id and the digits of the index. *)
Definition decode (icuMessageInstanceId : string) : option (string * string) :=
  match RegExp.exec MESSAGE_INSTANCE_ID_REGEX icuMessageInstanceId with
  | Some c => Some (group c 1, group c 2)
  | None => None
  end.

Definition _resolveIcuMessageInstanceId (icuMessageInstanceId locale : string)
    (map : registry) : result (instance * string) :=
  match decode icuMessageInstanceId with
  | None =>
      throw (Error (icuMessageInstanceId +:+ " is not a valid message instance ID"))
  | Some (icuMessageId, icuMessageInstanceIndex) =>
      let icuMessageInstances := default [] (map !! icuMessageId) in
      match icuMessageInstances !! Number icuMessageInstanceIndex with
      | None => throw (TypeError "Cannot read property 'icuMessage' of undefined")
      | Some icuMessageInstance =>
          r ← _formatIcuMessage locale icuMessageId
                (Some (Inst.icuMessage icuMessageInstance))
                (Inst.values icuMessageInstance);
          mret (icuMessageInstance, r.1)
      end
  end.

Definition getFormatted (icuMessageIdOrRawString locale : string)
    (map : registry) : result string :=
  if isIcuMessage icuMessageIdOrRawString then
    r ← _resolveIcuMessageInstanceId icuMessageIdOrRawString locale map;
    mret r.2
  else mret icuMessageIdOrRawString.

(** [calls map map']: some sequence of calls of functions returned by
    [createMessageInstanceIdFn] takes the registry from [map] to [map']. *)
Inductive calls (map : registry) : registry → Prop :=
| calls_refl : calls map map
| calls_step filename fileStrings icuMessage values map' :
    calls map map' →
    calls map
      (getMessageInstanceIdFn filename fileStrings icuMessage values map').2.

(** The registry starts as the empty map. *)
Definition reachable (map : registry) : Prop := calls ∅ map.

(** Within every sequence an earlier entry is not deep-equal to a later
    one. *)
Definition distinct_values (map : registry) : Prop :=
  ∀ id L i j a b,
    map !! id = Some L → i < j → L !! i = Some a → L !! j = Some b →
    isDeepEqual (Inst.values a) (Inst.values b) = false.

(** How many top-level elements selected by [selects] carry the
    placeholder [x]. *)
Definition uses (selects : element → bool) (x : string)
    (els : list element) : nat :=
  length (List.filter
            (fun el => selects el && bool_decide (element_key el = Some x)) els).

(** The first top-level placeholder with a truthy id that is not [in]
    [values]. *)
Definition first_missing (values : gmap string val) (els : list element)
    : option ident :=
  head (List.filter
          (fun id => id_truthy id && negb (js_in (id_key id) values))
          (omap element_id els)).

(** The candidates of [lookup-closest-locale] for a tag: its first [n]
    subtags. *)
Definition tag_prefix (tag : string) (n : nat) : string :=
  join "-" (take n (split "-"%char tag)).

(** ** The specification's readings, for comparison *)

(** "anything containing ' | '", then " # ", then digits up to the end. *)
Definition spec_isToken (s : string) : Prop :=
  ∃ k d, s = k +:+ " # " +:+ d ∧ Str.includes " | " k = true ∧
         d ≠ EmptyString ∧ Str.all digit d = true.

(** Every placeholder a pattern references, at any depth. *)
Fixpoint placeholders (el : element) : list string :=
  match el with
  | messageTextElement _ => []
  | argumentElement id f =>
      id_key id ::
      match f with
      | Some (pluralFormat _ _ options) | Some (selectFormat options) =>
          flat_map (fun o => flat_map placeholders o.2) options
      | _ => []
      end
  end.

(** A bare segment: letters only, at least one. *)
Definition bare (s : string) : bool :=
  negb (Nat.eqb (Str.len s) 0) && Str.all letter s.

Definition unbracketable (a : ascii) : bool :=
  Ascii.eqb "]"%char a || Ascii.eqb dquote a || Ascii.eqb squote a ||
  white_space a.

(** The text a segment contributes: a bare segment is joined with a dot to
    what precedes it, any other segment is wrapped in brackets. *)
Definition spec_piece (first : bool) (s : string) : string :=
  if bare s then (if first then s else "." +:+ s)
  else "[" +:+ s +:+ "]".

Definition spec_formatPath (pathInLHR : list string) : string :=
  match pathInLHR with
  | [] => EmptyString
  | s :: rest =>
      spec_piece true s +:+
      fold_right String.append EmptyString (map (spec_piece false) rest)
  end.

(** ** The remaining entry points *)

Definition getFormattedFromIdAndValues (locale icuMessageId : string)
    (values : option (gmap string val)) : result string :=
  if RegExp.test ICU_MESSAGE_ID_REGEX icuMessageId then
    r ← _formatIcuMessage locale icuMessageId None values;
    mret r.1
  else throw (Error "This is not an ICU message ID").

(** [Object.keys] of a catalog, in the order of the catalog object. *)
Variable Object_keys : gmap string string → list string.

Definition unexpected_message (icuMessageId : string) : exn :=
  Error ("Unexpected message: " +:+ icuMessageId).

(** The loop of [getRendererFormattedStrings].  [varName] is [undefined]
    when the id has no " | ", and the property written is then the one
    named "undefined". *)
Fixpoint renderer_loop (localeMessages : gmap string string)
    (icuMessageIds : list string) (strings : gmap string string)
    : result (gmap string string) :=
  match icuMessageIds with
  | [] => mret strings
  | icuMessageId :: rest =>
      let parts := JsStr.split " | " icuMessageId in
      let filename := default EmptyString (head parts) in
      let varName := default "undefined" (parts !! 1) in
      if JsStr.ends_with "util.js" filename then
        match localeMessages !! icuMessageId with
        | Some message =>
            renderer_loop localeMessages rest (<[varName := message]> strings)
        | None =>
            throw (TypeError "Cannot read property 'message' of undefined")
        end
      else throw (unexpected_message icuMessageId)
  end.

(** For a locale that is no key of [LOCALES] but a name of
    [Object.prototype], [LOCALES[locale]] is the inherited member, whose
    [Object.keys] is empty: the loop does not run. *)
Definition getRendererFormattedStrings (locale : string)
    : result (gmap string string) :=
  match LOCALES !! locale with
  | None =>
      if inherited locale then mret ∅
      else throw (Error ("Unsupported locale '" +:+ locale +:+ "'"))
  | Some localeMessages =>
      let icuMessageIds :=
        List.filter (Str.includes "core/report/html/")
          (Object_keys localeMessages) in
      renderer_loop localeMessages icuMessageIds ∅
  end.

(** ** The document walker *)

(** Leaves of a document that are neither strings nor containers: numbers,
    booleans, [null], [undefined]. *)
Variable leaf : Type.

(** A document is a tree: no array or object is reached by two paths.  An
    object is the list of its entries in [Object.entries] order. *)
#[warnings="-register-all"]
Inductive doc : Type :=
| DLeaf (x : leaf)
| DStr (s : string)
| DArr (items : list doc)
| DObj (props : list (string * doc)).

(** An entry of the message path report. *)
Inductive path_entry : Type :=
| PathOnly (path : string)
| PathWithValues (values : gmap string val) (path : string).

Abbreviation report := (gmap string (list path_entry)).

(** Lines 372 to 383 of [replaceInObject]: what is done with a string value
    that [isIcuMessage] accepts.  Returns the formatted string to store and
    the updated report. *)
Definition replaceToken (locale : string) (map : registry) (value : string)
    (icuMessagePaths : report) (currentPathInLHR : list string)
    : result (string * report) :=
  r ← _resolveIcuMessageInstanceId value locale map;
  let icuMessageInstance := r.1 in
  let formattedString := r.2 in
  let messageInstancesInLHR :=
    default [] (icuMessagePaths !! Inst.icuMessageId icuMessageInstance) in
  currentPathAsString ← _formatPathAsString currentPathInLHR;
  let pushed :=
    messageInstancesInLHR ++
    [match Inst.values icuMessageInstance with
     | Some values => PathWithValues values currentPathAsString
     | None => PathOnly currentPathAsString
     end] in
  mret (formattedString,
        <[Inst.icuMessageId icuMessageInstance := pushed]> icuMessagePaths).

(** The state a visit leaves: the value as mutated, the report as mutated,
    and the exception that stopped it, if any. *)
Abbreviation visited := (doc * report * option exn)%type.

(** The body of the [for] loop for one entry; [recur] is the recursive call
    on the value. *)
Definition visit_entry (locale : string) (map : registry)
    (pathInLHR : list string) (property : string) (value : doc)
    (recur : report → list string → visited) (icuMessagePaths : report)
    : visited :=
  let currentPathInLHR := pathInLHR ++ [property] in
  match value with
  | DStr s =>
      if isIcuMessage s then
        match replaceToken locale map s icuMessagePaths currentPathInLHR with
        | inl e => (value, icuMessagePaths, Some e)
        | inr (formattedString, icuMessagePaths') =>
            (DStr formattedString, icuMessagePaths', None)
        end
      else recur icuMessagePaths currentPathInLHR
  | _ => recur icuMessagePaths currentPathInLHR
  end.

Fixpoint replaceInObject (locale : string) (map : registry) (subObject : doc)
    (icuMessagePaths : report) (pathInLHR : list string) {struct subObject}
    : visited :=
  match subObject with
  | DLeaf _ | DStr _ => (subObject, icuMessagePaths, None)
  | DArr items =>
      let '(items', r, e) :=
        (fix loop (items : list doc) (i : nat) (r : report)
           : list doc * report * option exn :=
           match items with
           | [] => ([], r, None)
           | value :: rest =>
               let '(value', r1, e1) :=
                 visit_entry locale map pathInLHR (index_to_string i) value
                   (replaceInObject locale map value) r in
               match e1 with
               | Some e => (value' :: rest, r1, Some e)
               | None =>
                   let '(rest', r2, e2) := loop rest (S i) r1 in
                   (value' :: rest', r2, e2)
               end
           end) items 0 icuMessagePaths in
      (DArr items', r, e)
  | DObj props =>
      let '(props', r, e) :=
        (fix loop (props : list (string * doc)) (r : report)
           : list (string * doc) * report * option exn :=
           match props with
           | [] => ([], r, None)
           | (property, value) :: rest =>
               let '(value', r1, e1) :=
                 visit_entry locale map pathInLHR property value
                   (replaceInObject locale map value) r in
               match e1 with
               | Some e => ((property, value') :: rest, r1, Some e)
               | None =>
                   let '(rest', r2, e2) := loop rest r1 in
                   ((property, value') :: rest', r2, e2)
               end
           end) props icuMessagePaths in
      (DObj props', r, e)
  end.

(** Returns the document as the call leaves it and the report, or the
    exception that stopped the walk. *)
Definition replaceIcuMessageInstanceIds (inputObject : doc) (locale : string)
    (map : registry) : doc * result report :=
  let '(inputObject', icuMessagePaths, e) :=
    replaceInObject locale map inputObject ∅ [] in
  (inputObject',
   match e with
   | Some e => inl e
   | None => inr icuMessagePaths
   end).

(** *** Reading a document *)

(** The strings the walk replaces, in the order it meets them, each with
    the path of its place: the entries of arrays and objects, at any depth,
    that are strings accepted by [isIcuMessage]. *)
Definition occurrence : Type := (list string * string)%type.

Definition entry_occurrences (currentPathInLHR : list string) (value : doc)
    (recur : list string → list occurrence) : list occurrence :=
  match value with
  | DStr s => if isIcuMessage s then [(currentPathInLHR, s)] else []
  | _ => recur currentPathInLHR
  end.

Fixpoint occurrences (d : doc) (path : list string) {struct d}
    : list occurrence :=
  match d with
  | DLeaf _ | DStr _ => []
  | DArr items =>
      (fix loop (items : list doc) (i : nat) : list occurrence :=
         match items with
         | [] => []
         | value :: rest =>
             entry_occurrences (path ++ [index_to_string i]) value
               (occurrences value) ++ loop rest (S i)
         end) items 0
  | DObj props =>
      (fix loop (props : list (string * doc)) : list occurrence :=
         match props with
         | [] => []
         | (property, value) :: rest =>
             entry_occurrences (path ++ [property]) value
               (occurrences value) ++ loop rest
         end) props
  end.

(** The document with [f] applied to every string that is an entry of an
    array or of an object; keys, shape and other leaves are kept. *)
Fixpoint map_entries (f : string → string) (d : doc) {struct d} : doc :=
  match d with
  | DLeaf _ | DStr _ => d
  | DArr items =>
      DArr ((fix loop (items : list doc) : list doc :=
               match items with
               | [] => []
               | value :: rest =>
                   match value with
                   | DStr s => DStr (f s)
                   | _ => map_entries f value
                   end :: loop rest
               end) items)
  | DObj props =>
      DObj ((fix loop (props : list (string * doc)) : list (string * doc) :=
               match props with
               | [] => []
               | (property, value) :: rest =>
                   (property,
                    match value with
                    | DStr s => DStr (f s)
                    | _ => map_entries f value
                    end) :: loop rest
               end) props)
  end.

(** What the walk does at one occurrence: the formatted string, the report
    key and the report entry, or the exception. *)
Definition occurrence_outcome (locale : string) (map : registry)
    (o : occurrence) : result (string * string * path_entry) :=
  r ← _resolveIcuMessageInstanceId o.2 locale map;
  currentPathAsString ← _formatPathAsString o.1;
  mret (r.2, Inst.icuMessageId r.1,
        match Inst.values r.1 with
        | Some values => PathWithValues values currentPathAsString
        | None => PathOnly currentPathAsString
        end).

(** The entries an occurrence list adds under the key [id], in order. *)
Definition entries_for (locale : string) (map : registry) (id : string)
    (os : list occurrence) : list path_entry :=
  omap (fun o => match occurrence_outcome locale map o with
                 | inr (_, key, entry) =>
                     if decide (key = id) then Some entry else None
                 | inl _ => None
                 end) os.

(** The string [getFormatted] returns, or the string itself when it
    throws. *)
Definition formatted_or_self (locale : string) (map : registry)
    (s : string) : string :=
  match getFormatted s locale map with
  | inr x => x
  | inl _ => s
  end.


(** The report after the walk has met the occurrences [os] in turn, and the
    exception of the first one that fails, where the walk stops. *)
Fixpoint record_all (locale : string) (map : registry)
    (os : list occurrence) (r : report) : report * option exn :=
  match os with
  | [] => (r, None)
  | o :: rest =>
      match occurrence_outcome locale map o with
      | inl e => (r, Some e)
      | inr (_, key, entry) =>
          record_all locale map rest
            (<[key := default [] (r !! key) ++ [entry]]> r)
      end
  end.

(** The path of a report entry. *)
Definition path_of (e : path_entry) : string :=
  match e with
  | PathOnly path => path
  | PathWithValues _ path => path
  end.

(** Every object of the document has distinct keys, as a JavaScript object
    does. *)
Fixpoint distinct_keys (d : doc) : bool :=
  match d with
  | DLeaf _ | DStr _ => true
  | DArr items => forallb distinct_keys items
  | DObj props =>
      bool_decide (NoDup (map fst props)) &&
      forallb (fun kv => distinct_keys kv.2) props
  end.
(** * Properties *)

(** ** Strings *)

Lemma str_app_nil_l (s : string) : EmptyString +:+ s = s.
Proof. reflexivity. Qed.

Lemma str_app_cons a (s t : string) : String a s +:+ t = String a (s +:+ t).
Proof. reflexivity. Qed.

Ltac str_simpl :=
  repeat (rewrite ?str_app_nil_l, ?str_app_cons in *; simpl in * ).

Lemma str_app_nil_r (s : string) : s +:+ EmptyString = s.
Proof. induction s as [|a s IH]; str_simpl; [done | by rewrite IH]. Qed.

Lemma str_app_assoc (a b c : string) : (a +:+ b) +:+ c = a +:+ (b +:+ c).
Proof. induction a as [|x a IH]; str_simpl; [done | by rewrite IH]. Qed.

Lemma str_len_app (a b : string) : Str.len (a +:+ b) = Str.len a + Str.len b.
Proof. induction a as [|x a IH]; str_simpl; [done | by rewrite IH]. Qed.

Lemma str_take_app (a b : string) : Str.take (Str.len a) (a +:+ b) = a.
Proof. induction a as [|x a IH]; str_simpl; [by destruct b | by rewrite IH]. Qed.

Lemma str_take_prefix n (s x r : string) :
  s = x +:+ r → n = Str.len x → Str.take n s = x.
Proof. intros -> ->. apply str_take_app. Qed.

Lemma str_take_all n (s : string) : Str.len s ≤ n → Str.take n s = s.
Proof.
  revert n. induction s as [|a s IH]; intros [|n] H; simpl in *; try done; try lia.
  rewrite IH; [done | lia].
Qed.

Lemma str_all_app p (a b : string) :
  Str.all p (a +:+ b) = Str.all p a && Str.all p b.
Proof.
  induction a as [|x a IH]; str_simpl; [done|].
  rewrite IH. by rewrite andb_assoc.
Qed.

Lemma str_any_app p (a b : string) :
  Str.any p (a +:+ b) = Str.any p a || Str.any p b.
Proof.
  induction a as [|x a IH]; str_simpl; [done|].
  rewrite IH. by rewrite orb_assoc.
Qed.

Lemma str_any_split p (s : string) :
  Str.any p s = true ↔ ∃ a x b, s = a +:+ String x b ∧ p x = true.
Proof.
  split.
  - induction s as [|y s IH]; simpl; [done|].
    destruct (p y) eqn:Hy; simpl.
    + intros _. by exists EmptyString, y, s.
    + intros (a & x & b & -> & Hx)%IH. by exists (String y a), x, b.
  - intros (a & x & b & -> & Hx). rewrite str_any_app. simpl.
    rewrite Hx. by rewrite orb_true_r.
Qed.

Lemma str_all_negb_any p (s : string) :
  Str.all (fun a => negb (p a)) s = negb (Str.any p s).
Proof.
  induction s as [|y s IH]; simpl; [done|].
  rewrite IH. by rewrite negb_orb.
Qed.

(** ** The matcher against the declarative reading *)

Import RegExp.

Lemma star_loop_sound {A} (r : regex) (k : @cont A) :
  (∀ i s c (k' : @cont A) x, m r i s c k' = Some x →
     ∃ i' s' c', run r (i, s, c) (i', s', c') ∧ k' i' s' c' = Some x) →
  ∀ fuel i s c x, star_loop (m r) k fuel i s c = Some x →
    ∃ i' s' c', run (Star r) (i, s, c) (i', s', c') ∧ k i' s' c' = Some x.
Proof.
  intros IH fuel. induction fuel as [|fuel IHf]; simpl; intros i s c x H.
  - exists i, s, c. split; [constructor | done].
  - unfold orelse in H.
    destruct (m r i s c _) as [x'|] eqn:E.
    + injection H as ->.
      apply IH in E as (i1 & s1 & c1 & Hr & Hk).
      destruct (Nat.ltb (Str.len s1) (Str.len s)) eqn:L; [|done].
      apply IHf in Hk as (i2 & s2 & c2 & Hr2 & Hk2).
      exists i2, s2, c2. split; [|done].
      eapply run_star_step; eauto. by apply Nat.ltb_lt.
    + exists i, s, c. split; [constructor | done].
Qed.

Lemma m_sound {A} (r : regex) :
  ∀ i s c (k : @cont A) x, m r i s c k = Some x →
    ∃ i' s' c', run r (i, s, c) (i', s', c') ∧ k i' s' c' = Some x.
Proof.
  induction r as [|p|r1 IH1 r2 IH2|r1 IH1 r2 IH2|r IH|n r IH| |];
    simpl; intros i s c k x H.
  - exists i, s, c. split; [constructor | done].
  - destruct s as [|a s]; [done|].
    destruct (p a) eqn:Hp; [|done].
    exists (S i), s, c. split; [by constructor | done].
  - apply IH1 in H as (i1 & s1 & c1 & Hr1 & H).
    apply IH2 in H as (i2 & s2 & c2 & Hr2 & H).
    exists i2, s2, c2. split; [by econstructor | done].
  - unfold orelse in H. destruct (m r1 i s c k) as [x'|] eqn:E.
    + injection H as ->. apply IH1 in E as (i1 & s1 & c1 & Hr & Hk).
      exists i1, s1, c1. split; [by apply run_alt_l | done].
    + apply IH2 in H as (i1 & s1 & c1 & Hr & Hk).
      exists i1, s1, c1. split; [by apply run_alt_r | done].
  - eapply star_loop_sound; eauto.
  - apply IH in H as (i1 & s1 & c1 & Hr & Hk).
    eexists _, _, _. split; [by apply run_group | done].
  - destruct (Nat.eqb i 0) eqn:E; [|done]. apply Nat.eqb_eq in E as ->.
    exists 0, s, c. split; [constructor | done].
  - destruct s; [|done]. exists i, EmptyString, c. split; [constructor | done].
Qed.

Lemma m_complete_gen {A} (r : regex) (x y : cfg) :
  run r x y →
  ∀ k : @cont A, is_Some (k y.1.1 y.1.2 y.2) →
    is_Some (m r x.1.1 x.1.2 x.2 k) ∧
    ∀ r1, r = Star r1 → ∀ fuel, Str.len x.1.2 ≤ fuel →
      is_Some (star_loop (m r1) k fuel x.1.1 x.1.2 x.2).
Proof.
  induction 1 as [x|p a i s c Hp|r1 r2 x y z H1 IH1 H2 IH2|r1 r2 x y H IH
                 |r1 r2 x y H IH|r x|r i s c i' s' c' z H1 IH1 Hlt H2 IH2
                 |n r i s c i' s' c' H IH|s c|i c]; intros k Hk; simpl in *.
  - done.
  - by rewrite Hp.
  - split; [|done]. apply IH1. by apply IH2.
  - split; [|done]. unfold orelse.
    destruct (IH k Hk) as [[v ->] _]. done.
  - split; [|done]. unfold orelse.
    destruct (m r1 x.1.1 x.1.2 x.2 k); [done|]. by apply IH.
  - assert (∀ fuel, is_Some (star_loop (m r) k fuel x.1.1 x.1.2 x.2)) as Hf.
    { intros [|fuel]; simpl; [done|]. unfold orelse.
      by destruct (m r _ _ _ _). }
    split; [apply Hf|]. intros r1 [= <-] fuel _. apply Hf.
  - assert (∀ fuel, Str.len s ≤ fuel →
              is_Some (star_loop (m r) k fuel i s c)) as Hf.
    { intros [|fuel] Hfuel; [lia|]. simpl. unfold orelse.
      destruct (m r i s c _) as [v|] eqn:E; [done|].
      destruct (IH1 (fun i' s' c' =>
                  if Nat.ltb (Str.len s') (Str.len s)
                  then star_loop (m r) k fuel i' s' c' else None)) as [[v Hv] _].
      - pose proof Hlt as Hlt'. apply Nat.ltb_lt in Hlt' as ->.
        destruct (IH2 k Hk) as [_ Hs]. apply (Hs r eq_refl). lia.
      - congruence. }
    split; [by apply Hf|]. intros r1 [= <-]. apply Hf.
  - split; [|done]. apply IH. done.
  - done.
  - done.
Qed.

Lemma m_complete {A} (r : regex) i s c i' s' c' (k : @cont A) :
  run r (i, s, c) (i', s', c') → is_Some (k i' s' c') →
  is_Some (m r i s c k).
Proof. intros H Hk. by apply (m_complete_gen r _ _ H k). Qed.

Lemma m_None {A} (r : regex) i s c (k : @cont A) :
  (∀ i' s' c', run r (i, s, c) (i', s', c') → k i' s' c' = None) →
  m r i s c k = None.
Proof.
  intros H. destruct (m r i s c k) as [x|] eqn:E; [|done].
  apply m_sound in E as (i' & s' & c' & Hr & Hk).
  rewrite (H _ _ _ Hr) in Hk. done.
Qed.

(** ** Shapes of runs *)

Lemma run_empty_inv x y : run Empty x y → y = x.
Proof. by inversion 1. Qed.

Lemma run_char_inv p i s c y :
  run (Char p) (i, s, c) y →
  ∃ a s', s = String a s' ∧ p a = true ∧ y = (S i, s', c).
Proof. inversion 1; subst. eauto. Qed.

Lemma run_seq_inv r1 r2 x z :
  run (Seq r1 r2) x z → ∃ y, run r1 x y ∧ run r2 y z.
Proof. inversion 1; subst. eauto. Qed.

Lemma run_alt_inv r1 r2 x y : run (Alt r1 r2) x y → run r1 x y ∨ run r2 x y.
Proof. inversion 1; subst; eauto. Qed.

Lemma run_group_inv n r i s c y :
  run (Group n r) (i, s, c) y →
  ∃ i' s' c', run r (i, s, c) (i', s', c') ∧
              y = (i', s', (n, Str.take (i' - i) s) :: c').
Proof. inversion 1; subst. eauto 6. Qed.

Lemma run_bol_inv i s c y : run Bol (i, s, c) y → i = 0 ∧ y = (i, s, c).
Proof. by inversion 1. Qed.

Lemma run_eol i s c y : run Eol (i, s, c) y ↔ s = EmptyString ∧ y = (i, s, c).
Proof.
  split.
  - by inversion 1.
  - intros [-> ->]. constructor.
Qed.

Lemma run_lit (w : string) i s c y :
  run (lit w) (i, s, c) y ↔ ∃ s', s = w +:+ s' ∧ y = (i + Str.len w, s', c).
Proof.
  revert i s. induction w as [|a w IH]; intros i s; simpl.
  - split.
    + intros ->%run_empty_inv. exists s. by rewrite Nat.add_0_r.
    + intros (s' & -> & ->). rewrite Nat.add_0_r. constructor.
  - split.
    + intros (y1 & H1 & H2)%run_seq_inv.
      apply run_char_inv in H1 as (b & s1 & -> & Hb & ->).
      apply IH in H2 as (s' & -> & ->).
      apply Ascii.eqb_eq in Hb as ->.
      exists s'. split; [done|]. f_equal. f_equal. lia.
    + intros (s' & -> & ->). str_simpl.
      eapply run_seq; [constructor; apply Ascii.eqb_refl|].
      apply IH. exists s'. split; [done|]. f_equal. f_equal. lia.
Qed.

Lemma run_star_char p i s c y :
  run (Star (Char p)) (i, s, c) y ↔
  ∃ a s', s = a +:+ s' ∧ Str.all p a = true ∧ y = (i + Str.len a, s', c).
Proof.
  split.
  - intros H. remember (Star (Char p)) as r eqn:Er.
    remember (i, s, c) as x eqn:Ex. revert i s c Er Ex.
    induction H as [| | | | |r0 x0|r0 i1 s1 c1 i2 s2 c2 z H1 _ Hlt H2 IH| | |];
      intros i0 s0 c0 Er Ex; try discriminate.
    + subst. exists EmptyString, s0. by rewrite Nat.add_0_r.
    + injection Er as ->. injection Ex as -> -> ->.
      apply run_char_inv in H1 as (a & s' & -> & Ha & [= -> -> ->]).
      destruct (IH _ _ _ eq_refl eq_refl) as (a0 & s3 & -> & Ha0 & ->).
      exists (String a a0), s3. split; [done|]. split.
      * simpl. by rewrite Ha.
      * simpl. f_equal. f_equal. lia.
  - intros (a & s' & -> & Ha & ->). revert i Ha.
    induction a as [|x a IH]; intros i Ha.
    + rewrite Nat.add_0_r. constructor.
    + simpl in Ha. apply andb_true_iff in Ha as [Hx Ha]. str_simpl.
      eapply run_star_step.
      * by constructor.
      * simpl. lia.
      * replace (i + S (Str.len (a +:+ s'))) with (S i + Str.len (a +:+ s')) by lia.
        replace (i + S (Str.len a)) with (S i + Str.len a) by lia. by apply IH.
Qed.

Lemma run_plus_char p i s c y :
  run (plus (Char p)) (i, s, c) y ↔
  ∃ a s', s = a +:+ s' ∧ Str.all p a = true ∧ a ≠ EmptyString ∧
          y = (i + Str.len a, s', c).
Proof.
  unfold plus. split.
  - intros (y1 & H1 & H2)%run_seq_inv.
    apply run_char_inv in H1 as (a & s1 & -> & Ha & ->).
    apply run_star_char in H2 as (a0 & s' & -> & Ha0 & ->).
    exists (String a a0), s'. split; [done|]. split; [simpl; by rewrite Ha|].
    split; [done|]. simpl. f_equal. f_equal. lia.
  - intros (a & s' & -> & Ha & Hne & ->).
    destruct a as [|x a]; [done|]. simpl in Ha.
    apply andb_true_iff in Ha as [Hx Ha]. str_simpl.
    eapply run_seq; [by constructor|].
    apply run_star_char. exists a, s'. split; [done|]. split; [done|].
    f_equal. f_equal. lia.
Qed.

(** A match of the instance-id literal from any position: the rest of the
    input is [a | b # d] with no line terminator in [a] and [b] and with [d]
    a non-empty run of digits; group 1 is [a | b] and group 2 is [d]. *)
Lemma run_MESSAGE_INSTANCE_ID_REGEX i s c y :
  run MESSAGE_INSTANCE_ID_REGEX (i, s, c) y ↔
  ∃ a b d,
    s = a +:+ " | " +:+ b +:+ " # " +:+ d ∧
    Str.all dot a = true ∧ Str.all dot b = true ∧
    Str.all digit d = true ∧ d ≠ EmptyString ∧
    y = (i + Str.len s, EmptyString, (2, d) :: (1, a +:+ " | " +:+ b) :: c).
Proof.
  unfold MESSAGE_INSTANCE_ID_REGEX. split.
  - intros (y1 & H1 & H2)%run_seq_inv.
    apply run_group_inv in H1 as (i1 & s1 & c1 & H1 & ->).
    apply run_seq_inv in H1 as (y2 & Ha & H1).
    apply run_star_char in Ha as (a & s2 & -> & Ha & ->).
    apply run_seq_inv in H1 as (y3 & Hl & Hb).
    apply (run_lit " | ") in Hl as (s3 & -> & ->).
    apply run_star_char in Hb as (b & s4 & -> & Hb & [= -> -> ->]).
    apply run_seq_inv in H2 as (y4 & Hl & H2).
    apply (run_lit " # ") in Hl as (s5 & -> & ->).
    apply run_seq_inv in H2 as (y5 & Hd & He).
    apply run_group_inv in Hd as (i6 & s6 & c6 & Hd & ->).
    apply run_plus_char in Hd as (d & s7 & -> & Hd & Hne & [= -> -> ->]).
    apply run_eol in He as [-> ->].
    exists a, b, d. rewrite str_app_nil_r.
    split; [done|]. repeat (split; [done|]).
    f_equal; [f_equal|].
    + rewrite !str_len_app. simpl. lia.
    + f_equal.
      * f_equal. apply str_take_all. simpl. lia.
      * f_equal. f_equal.
        apply (str_take_prefix _ _ _ (" # " +:+ d)).
        -- by rewrite !str_app_assoc.
        -- rewrite !str_len_app. simpl. lia.
  - intros (a & b & d & -> & Ha & Hb & Hd & Hne & ->).
    eapply run_seq.
    + replace (a +:+ " | " +:+ b +:+ " # " +:+ d)
        with ((a +:+ " | " +:+ b) +:+ " # " +:+ d)
        by (by rewrite !str_app_assoc).
      eapply (run_group 1 _ i _ c (i + Str.len (a +:+ " | " +:+ b)) (" # " +:+ d) c).
      eapply run_seq.
      { apply run_star_char. exists a, (" | " +:+ b +:+ " # " +:+ d).
        split; [by rewrite !str_app_assoc | done]. }
      eapply run_seq.
      { apply (run_lit " | "). eexists. split; [done|done]. }
      apply run_star_char. exists b, (" # " +:+ d). split; [done|].
      split; [done|]. f_equal. f_equal. rewrite !str_len_app. simpl. lia.
    + eapply run_seq.
      { apply (run_lit " # "). eexists. split; [done|done]. }
      eapply run_seq.
      { rewrite <- (str_app_nil_r d) at 1.
        eapply (run_group 2 _ _ _ _ (i + Str.len (a +:+ " | " +:+ b) + 3 + Str.len d)
                  EmptyString).
        apply run_plus_char. exists d, EmptyString.
        split; [done|]. by repeat split. }
      rewrite (str_take_all _ (d +:+ EmptyString))
        by (rewrite str_app_nil_r; simpl; lia).
      rewrite str_app_nil_r.
      rewrite (str_take_prefix _ _ (a +:+ " | " +:+ b) (" # " +:+ d))
        by (done || lia).
      replace (i + Str.len (a +:+ " | " +:+ b +:+ " # " +:+ d))
        with (i + Str.len (a +:+ " | " +:+ b) + 3 + Str.len d)
        by (rewrite !str_len_app; simpl; lia).
      constructor.
Qed.

(** ** Searching for a match *)

Lemma search_unfold r i s :
  search r i s =
  match m (Group 0 r) i s [] (fun _ _ c => Some c) with
  | Some c => Some c
  | None =>
      match s with
      | EmptyString => None
      | String _ s' => search r (S i) s'
      end
  end.
Proof. by destruct s. Qed.

Lemma group0_sound r i s x :
  m (Group 0 r) i s [] (fun _ _ c => Some c) = Some x →
  ∃ i' s' c', run r (i, s, []) (i', s', c') ∧
              x = (0, Str.take (i' - i) s) :: c'.
Proof.
  intros E. apply m_sound in E as (i' & s' & c' & Hr & [= <-]).
  apply run_group_inv in Hr as (i1 & s1 & c1 & Hr & ?). simplify_eq.
  eauto.
Qed.

Lemma search_Some r i s x :
  search r i s = Some x →
  ∃ pre s0 i' s' c',
    s = pre +:+ s0 ∧ run r (i + Str.len pre, s0, []) (i', s', c') ∧
    x = (0, Str.take (i' - (i + Str.len pre)) s0) :: c'.
Proof.
  revert i. induction s as [|a s IH]; intros i; rewrite search_unfold;
    destruct (m (Group 0 r) i _ [] (fun _ _ c => Some c)) as [c0|] eqn:E;
    intros H; try done.
  1,2: injection H as ->; apply group0_sound in E as (i' & s' & c' & Hr & ->);
       exists EmptyString; eexists _, i', s', c'; simpl;
       rewrite Nat.add_0_r; by repeat split.
  apply IH in H as (pre & s0 & i' & s' & c' & -> & Hr & ->).
  exists (String a pre), s0, i', s', c'. simpl.
  replace (i + S (Str.len pre)) with (S i + Str.len pre) by lia.
  by repeat split.
Qed.

Lemma search_first r i s y :
  run r (i, s, []) y →
  ∃ i' s' c', run r (i, s, []) (i', s', c') ∧
              search r i s = Some ((0, Str.take (i' - i) s) :: c').
Proof.
  intros Hr. destruct y as [[i1 s1] c1].
  assert (is_Some (m (Group 0 r) i s [] (fun _ _ c => Some c))) as [x E].
  { eapply m_complete; [by apply run_group|done]. }
  pose proof E as E'.
  apply group0_sound in E' as (i' & s' & c' & Hr' & ->).
  exists i', s', c'. split; [done|].
  rewrite search_unfold. by rewrite E.
Qed.

Lemma search_complete r i pre s0 y :
  run r (i + Str.len pre, s0, []) y → is_Some (search r i (pre +:+ s0)).
Proof.
  revert i. induction pre as [|a pre IH]; intros i Hr.
  - simpl in Hr. rewrite Nat.add_0_r in Hr. rewrite str_app_nil_l.
    apply search_first in Hr as (i' & s' & c' & _ & ->). done.
  - rewrite str_app_cons, search_unfold.
    destruct (m (Group 0 r) i _ [] (fun _ _ c => Some c)); [done|].
    apply IH. by replace (S i + Str.len pre) with (i + S (Str.len pre)) by (simpl; lia).
Qed.

Lemma test_true r s :
  test r s = true ↔ ∃ pre s0 y, s = pre +:+ s0 ∧ run r (Str.len pre, s0, []) y.
Proof.
  unfold test, exec. split.
  - destruct (search r 0 s) as [x|] eqn:E; [|done]. intros _.
    apply search_Some in E as (pre & s0 & i' & s' & c' & -> & Hr & _).
    by exists pre, s0, (i', s', c').
  - intros (pre & s0 & y & -> & Hr).
    by destruct (search_complete r 0 pre s0 y Hr) as [x ->].
Qed.

Lemma test_MESSAGE_INSTANCE_ID_REGEX s :
  test MESSAGE_INSTANCE_ID_REGEX s = true ↔
  ∃ a b d, s = a +:+ " | " +:+ b +:+ " # " +:+ d ∧
           Str.all dot b = true ∧ d ≠ EmptyString ∧ Str.all digit d = true.
Proof.
  rewrite test_true. split.
  - intros (pre & s0 & y & -> & Hr).
    apply run_MESSAGE_INSTANCE_ID_REGEX in Hr
      as (a & b & d & -> & Ha & Hb & Hd & Hne & _).
    exists (pre +:+ a), b, d. by rewrite str_app_assoc.
  - intros (a & b & d & -> & Hb & Hne & Hd).
    exists a, (" | " +:+ b +:+ " # " +:+ d). eexists. split; [done|].
    apply run_MESSAGE_INSTANCE_ID_REGEX.
    exists EmptyString, b, d. by repeat split.
Qed.

Lemma run_MESSAGE_INSTANCE_ID_QUICK_REGEX i s c y :
  run MESSAGE_INSTANCE_ID_QUICK_REGEX (i, s, c) y →
  ∃ d, s = " # " +:+ d ∧ Str.all digit d = true ∧ d ≠ EmptyString.
Proof.
  unfold MESSAGE_INSTANCE_ID_QUICK_REGEX.
  intros (y1 & Hl & H)%run_seq_inv.
  apply (run_lit " # ") in Hl as (s1 & -> & ->).
  apply run_seq_inv in H as (y2 & Hd & He).
  apply run_plus_char in Hd as (d & s2 & -> & Hd & Hne & ->).
  apply run_eol in He as [-> _].
  exists d. by rewrite str_app_nil_r.
Qed.

Lemma test_MESSAGE_INSTANCE_ID_QUICK_REGEX s :
  test MESSAGE_INSTANCE_ID_QUICK_REGEX s = true ↔
  ∃ p d, s = p +:+ " # " +:+ d ∧ d ≠ EmptyString ∧ Str.all digit d = true.
Proof.
  rewrite test_true. split.
  - intros (pre & s0 & y & -> & Hr).
    apply run_MESSAGE_INSTANCE_ID_QUICK_REGEX in Hr as (d & -> & Hd & Hne).
    by exists pre, d.
  - intros (p & d & -> & Hne & Hd).
    exists p, (" # " +:+ d). eexists. split; [done|].
    unfold MESSAGE_INSTANCE_ID_QUICK_REGEX.
    eapply run_seq; [apply (run_lit " # "); by eexists|].
    eapply run_seq; [|apply run_eol; done].
    apply run_plus_char. exists d, EmptyString.
    rewrite str_app_nil_r. by repeat split.
Qed.

(** The quick pre-filter accepts whatever the full literal accepts. *)
Lemma isIcuMessage_full s :
  isIcuMessage s = test MESSAGE_INSTANCE_ID_REGEX s.
Proof.
  unfold isIcuMessage.
  destruct (test MESSAGE_INSTANCE_ID_REGEX s) eqn:E; [|by rewrite andb_false_r].
  rewrite andb_true_r. apply test_MESSAGE_INSTANCE_ID_REGEX in E
    as (a & b & d & -> & Hb & Hne & Hd).
  apply test_MESSAGE_INSTANCE_ID_QUICK_REGEX.
  exists (a +:+ " | " +:+ b), d. by rewrite !str_app_assoc.
Qed.

(** ** Decimal digits of an index *)

Lemma string_of_uint_digits (d : Decimal.uint) :
  Str.all digit (NilEmpty.string_of_uint d) = true.
Proof. induction d; simpl; done. Qed.

Lemma to_uint_nonnil (n : nat) : Nat.to_uint n ≠ Decimal.Nil.
Proof.
  rewrite <- (DecimalNat.Unsigned.of_to n) at 1.
  rewrite DecimalNat.Unsigned.to_of.
  unfold Decimal.unorm. by destruct (Decimal.nzhead _).
Qed.

Lemma index_to_string_digits (n : nat) :
  Str.all digit (index_to_string n) = true ∧ index_to_string n ≠ EmptyString.
Proof.
  unfold index_to_string. split; [apply string_of_uint_digits|].
  pose proof (to_uint_nonnil n). by destruct (Nat.to_uint n).
Qed.

Lemma Number_acc_spec (d : Decimal.uint) (acc : nat) :
  Number_acc acc (NilEmpty.string_of_uint d) = Nat.of_uint_acc d acc.
Proof.
  revert acc. induction d; intros acc; simpl; [done|..];
    rewrite IHd; f_equal; rewrite Nat.tail_mul_spec;
    unfold digit_value; simpl; lia.
Qed.

Lemma Number_index_to_string (n : nat) : Number (index_to_string n) = n.
Proof.
  unfold Number, index_to_string. rewrite Number_acc_spec.
  apply DecimalNat.Unsigned.of_to.
Qed.

(** ** The identifier codec *)

Lemma starts_with_true (w s : string) :
  Str.starts_with w s = true ↔ ∃ b, s = w +:+ b.
Proof.
  revert s. induction w as [|a w IH]; intros s; simpl.
  - split; [by exists s | done].
  - destruct s as [|c s]; [split; [done | by intros [b ?]]|].
    rewrite andb_true_iff, IH, Ascii.eqb_eq.
    split.
    + intros [-> [b ->]]. by exists b.
    + intros [b Hb]. str_simpl. simplify_eq. eauto.
Qed.

Lemma includes_true (w s : string) :
  Str.includes w s = true ↔ ∃ a b, s = a +:+ w +:+ b.
Proof.
  split.
  - induction s as [|c s IH]; simpl;
      destruct (Str.starts_with w _) eqn:E.
    + apply starts_with_true in E as [b ->]. by exists EmptyString, b.
    + done.
    + apply starts_with_true in E as [b ->]. by exists EmptyString, b.
    + intros (a & b & ->)%IH. by exists (String c a), b.
  - intros (a & b & ->). induction a as [|c a IH].
    + rewrite str_app_nil_l.
      assert (Str.starts_with w (w +:+ b) = true) as E
        by (apply starts_with_true; by exists b).
      destruct (w +:+ b); simpl; by rewrite E.
    + rewrite str_app_cons. simpl.
      destruct (Str.starts_with w _); [done|]. apply IH.
Qed.

Lemma digits_no_space (u v : string) :
  Str.all digit (u +:+ String " "%char v) = false.
Proof.
  rewrite str_all_app. simpl. by rewrite andb_false_r.
Qed.

Lemma hash_suffix_digits (z d d' : string) :
  " # " +:+ d' = z +:+ " # " +:+ d → Str.all digit d' = true → z = EmptyString.
Proof.
  intros H Hd'. destruct z as [|c1 [|c2 [|c3 z]]]; [done|..];
    str_simpl; simplify_eq.
  by rewrite (digits_no_space z) in Hd'.
Qed.

Lemma str_app_eq_inv (x y x' y' : string) :
  x +:+ y = x' +:+ y' →
  (∃ z, x = x' +:+ z ∧ y' = z +:+ y) ∨ (∃ z, x' = x +:+ z ∧ y = z +:+ y').
Proof.
  revert x'. induction x as [|a x IH]; intros x' H.
  - right. by exists x'.
  - destruct x' as [|a' x'].
    + left. by exists (String a x).
    + rewrite !str_app_cons in H. injection H as -> H.
      destruct (IH _ H) as [(z & -> & ->)|(z & -> & ->)]; [left|right];
        by exists z.
Qed.

(** A token has one reading as [x # d] with [d] a run of digits. *)
Lemma hash_digits_unique (x x' d d' : string) :
  x +:+ " # " +:+ d = x' +:+ " # " +:+ d' →
  Str.all digit d = true → Str.all digit d' = true →
  x = x' ∧ d = d'.
Proof.
  intros H Hd Hd'.
  apply str_app_eq_inv in H as [(z & -> & H)|(z & -> & H)].
  - pose proof (hash_suffix_digits _ _ _ H Hd') as ->.
    rewrite str_app_nil_r. str_simpl. by simplify_eq.
  - pose proof (hash_suffix_digits _ _ _ H Hd) as ->.
    rewrite str_app_nil_r. str_simpl. by simplify_eq.
Qed.

Lemma decode_Some (s k d : string) :
  decode s = Some (k, d) →
  ∃ pre, s = pre +:+ k +:+ " # " +:+ d ∧
         Str.all digit d = true ∧ d ≠ EmptyString ∧
         ∃ a b, k = a +:+ " | " +:+ b.
Proof.
  unfold decode, exec.
  destruct (search _ 0 s) as [c|] eqn:E; [|done]. intros [= <- <-].
  apply search_Some in E as (pre & s0 & i' & s' & c' & -> & Hr & ->).
  apply run_MESSAGE_INSTANCE_ID_REGEX in Hr
    as (a & b & d & -> & Ha & Hb & Hd & Hne & [= -> -> ->]).
  exists pre. unfold group. simpl. split; [by rewrite !str_app_assoc|].
  repeat split; eauto.
Qed.

(** C4 (as amended). [isIcuMessage] accepts exactly the strings in which
    some " | " is followed, with no line terminator in between, by " # " and
    a non-empty run of digits that ends the string; the quick pre-filter
    does not change what the full literal accepts; and every encoded token
    whose key has such a " | " is accepted. *)
Theorem isIcuMessage_accepts :
  (∀ s, isIcuMessage s = true ↔
        ∃ a b d, s = a +:+ " | " +:+ b +:+ " # " +:+ d ∧
                 Str.all dot b = true ∧ d ≠ EmptyString ∧
                 Str.all digit d = true) ∧
  (∀ s, isIcuMessage s = RegExp.test MESSAGE_INSTANCE_ID_REGEX s) ∧
  (∀ a b n, Str.all dot b = true →
            isIcuMessage (encode (a +:+ " | " +:+ b) n) = true).
Proof.
  split; [|split].
  - intros s. rewrite isIcuMessage_full. apply test_MESSAGE_INSTANCE_ID_REGEX.
  - apply isIcuMessage_full.
  - intros a b n Hb. rewrite isIcuMessage_full.
    apply test_MESSAGE_INSTANCE_ID_REGEX.
    destruct (index_to_string_digits n) as [Hd Hne].
    exists a, b, (index_to_string n). unfold encode.
    by rewrite !str_app_assoc.
Qed.

(** C3 (as amended). For a key that contains " | ", does not end in " # "
    and digits, and holds no line terminator, and for an index [i] below
    [2^53], decoding the token [key # i] yields the key and the decimal
    digits of [i], whose number is [i]. *)
Theorem decode_encode (key : string) (i : nat) :
  Str.includes " | " key = true →
  RegExp.test MESSAGE_INSTANCE_ID_QUICK_REGEX key = false →
  Str.all dot key = true →
  (N.of_nat i < 2 ^ 53)%N →
  decode (encode key i) = Some (key, index_to_string i) ∧
  Number (index_to_string i) = i.
Proof.
  intros (a & b & ->)%includes_true _ Hdot _.
  split; [|apply Number_index_to_string].
  rewrite !str_all_app in Hdot.
  apply andb_true_iff in Hdot as [Ha Hdot].
  apply andb_true_iff in Hdot as [_ Hb].
  destruct (index_to_string_digits i) as [Hd Hne].
  unfold decode, exec, encode.
  destruct (search_first MESSAGE_INSTANCE_ID_REGEX 0
              ((a +:+ " | " +:+ b) +:+ " # " +:+ index_to_string i)
              (0 + Str.len ((a +:+ " | " +:+ b) +:+ " # " +:+ index_to_string i),
               EmptyString,
               [(2, index_to_string i); (1, a +:+ " | " +:+ b)]))
    as (i' & s' & c' & Hr & ->).
  { apply run_MESSAGE_INSTANCE_ID_REGEX.
    exists a, b, (index_to_string i). by rewrite !str_app_assoc. }
  apply run_MESSAGE_INSTANCE_ID_REGEX in Hr
    as (a' & b' & d' & E & _ & _ & Hd' & _ & [= -> -> ->]).
  unfold group. simpl.
  replace (a' +:+ " | " +:+ b' +:+ " # " +:+ d')
    with ((a' +:+ " | " +:+ b') +:+ " # " +:+ d') in E
    by (by rewrite !str_app_assoc).
  apply hash_digits_unique in E as [-> ->]; done.
Qed.

(** C10. A string that [isIcuMessage] rejects is returned as it is, whatever
    the locale, the registry and the catalogs. *)
Theorem getFormatted_passthrough (s : string) :
  isIcuMessage s = false →
  ∀ locale map, getFormatted s locale map = mret s.
Proof. intros H locale map. unfold getFormatted. by rewrite H. Qed.

(** ** Path formatting *)

Lemma test_BARE_SEGMENT_REGEX (s : string) :
  test BARE_SEGMENT_REGEX s = bare s.
Proof.
  apply eq_true_iff_eq. rewrite test_true. unfold bare, BARE_SEGMENT_REGEX.
  rewrite andb_true_iff, negb_true_iff, Nat.eqb_neq. split.
  - intros (pre & s0 & y & -> & H).
    apply run_seq_inv in H as ([[i1 s1] c1] & Hb & H).
    apply run_bol_inv in Hb as [Hpre [= -> -> ->]].
    destruct pre; [|done]. rewrite str_app_nil_l.
    apply run_seq_inv in H as (y2 & Hl & He).
    apply run_plus_char in Hl as (a & s' & -> & Ha & Hne & ->).
    apply run_eol in He as [-> _]. rewrite str_app_nil_r.
    split; [by destruct a | done].
  - intros [Hne Hall]. exists EmptyString, s. eexists. split; [done|].
    eapply run_seq; [constructor|].
    eapply run_seq; [|by apply run_eol].
    apply run_plus_char. exists s, EmptyString. rewrite str_app_nil_r.
    split; [done|]. split; [done|]. split; [by destruct s | done].
Qed.

Lemma run_UNBRACKETABLE_REGEX i s c y :
  run UNBRACKETABLE_REGEX (i, s, c) y ↔
  ∃ a s', s = String a s' ∧ unbracketable a = true ∧ y = (S i, s', c).
Proof.
  unfold UNBRACKETABLE_REGEX, unbracketable. split.
  - intros H.
    repeat (apply run_alt_inv in H as [H|H]);
      apply run_char_inv in H as (a & s' & -> & Ha & ->);
      exists a, s'; rewrite Ha; by rewrite ?orb_true_r.
  - intros (a & s' & -> & Ha & ->).
    rewrite !orb_true_iff in Ha. destruct Ha as [[[Ha|Ha]|Ha]|Ha].
    + by apply run_alt_l, run_char.
    + by apply run_alt_r, run_alt_l, run_char.
    + by apply run_alt_r, run_alt_r, run_alt_l, run_char.
    + by apply run_alt_r, run_alt_r, run_alt_r, run_char.
Qed.

Lemma test_UNBRACKETABLE_REGEX (s : string) :
  test UNBRACKETABLE_REGEX s = Str.any unbracketable s.
Proof.
  apply eq_true_iff_eq. rewrite test_true, str_any_split. split.
  - intros (pre & s0 & y & -> & H).
    apply run_UNBRACKETABLE_REGEX in H as (a & s' & -> & Ha & _).
    by exists pre, a, s'.
  - intros (pre & a & s' & -> & Ha).
    exists pre, (String a s'). eexists. split; [done|].
    apply run_UNBRACKETABLE_REGEX. by exists a, s'.
Qed.

Lemma spec_piece_nonempty first (s : string) :
  Str.len (spec_piece first s) ≠ 0.
Proof.
  unfold spec_piece, bare. destruct (Str.len s) eqn:E; simpl.
  - done.
  - destruct (Str.all letter s); [destruct first|]; simpl; [lia|done|done].
Qed.

Lemma formatPath_loop_spec (acc : string) (path : list string) :
  Str.len acc ≠ 0 →
  formatPath_loop acc path =
  match find (fun s => negb (bare s) && Str.any unbracketable s) path with
  | Some s => throw (cannot_handle s)
  | None =>
      mret (acc +:+
            fold_right String.append EmptyString (map (spec_piece false) path))
  end.
Proof.
  revert acc. induction path as [|s path IH]; intros acc Hacc; simpl.
  - by rewrite str_app_nil_r.
  - rewrite test_BARE_SEGMENT_REGEX, test_UNBRACKETABLE_REGEX.
    unfold spec_piece at 1. destruct (bare s) eqn:Hb; simpl.
    + apply Nat.eqb_neq in Hacc as ->.
      rewrite IH.
      * destruct (find _ path); [done|]. by rewrite !str_app_assoc.
      * rewrite !str_len_app. simpl. lia.
    + destruct (Str.any unbracketable s); [done|].
      rewrite IH.
      * destruct (find _ path); [done|]. by rewrite !str_app_assoc.
      * rewrite !str_len_app. simpl. lia.
Qed.

(** C9. [_formatPathAsString] fails, naming the segment, at the first
    segment that is not bare and holds a closing bracket, a quote or white
    space; when there is none it returns the segments in order, a bare one
    (letters only) joined by a dot to what precedes it and any other one
    wrapped in brackets. *)
Theorem _formatPathAsString_spec (pathInLHR : list string) :
  _formatPathAsString pathInLHR =
  match find (fun s => negb (bare s) && Str.any unbracketable s) pathInLHR with
  | Some s => throw (cannot_handle s)
  | None => mret (spec_formatPath pathInLHR)
  end.
Proof.
  unfold _formatPathAsString. destruct pathInLHR as [|s path]; [done|].
  simpl. rewrite test_BARE_SEGMENT_REGEX, test_UNBRACKETABLE_REGEX.
  pose proof (spec_piece_nonempty true s) as Hne.
  unfold spec_piece in *. destruct (bare s) eqn:Hb; simpl.
  - by rewrite formatPath_loop_spec.
  - destruct (Str.any unbracketable s); [done|].
    by rewrite formatPath_loop_spec.
Qed.

(** ** The instance registry *)

Lemma findIndex_Some {A} (p : A → bool) (l : list A) (i : nat) :
  findIndex p l = Some i →
  (∃ x, l !! i = Some x ∧ p x = true) ∧
  (∀ j y, j < i → l !! j = Some y → p y = false).
Proof.
  revert i. induction l as [|x l IH]; intros i; simpl; [done|].
  destruct (p x) eqn:Hx.
  - intros [= <-]. split; [by exists x|]. intros j y Hj. lia.
  - destruct (findIndex p l) as [i'|]; [|done]. intros [= <-].
    destruct (IH i' eq_refl) as [Hi Hlt]. split; [done|].
    intros [|j] y Hj; simpl.
    + by intros [= <-].
    + apply Hlt. lia.
Qed.

Lemma findIndex_None {A} (p : A → bool) (l : list A) :
  findIndex p l = None ↔ ∀ x, x ∈ l → p x = false.
Proof.
  induction l as [|x l IH]; simpl.
  - split; [|done]. intros _ x Hx. by apply elem_of_nil in Hx.
  - destruct (p x) eqn:Hx.
    + split; [done|]. intros H. rewrite H in Hx; [done|]. by left.
    + destruct (findIndex p l) as [i|].
      * split; [done|]. intros H.
        assert (Some i = None) as Hn; [|done].
        apply IH. intros y Hy. apply H. by right.
      * split; [|done]. intros _ y [->|Hy]%elem_of_cons; [done|].
        by apply IH.
Qed.

Lemma findIndex_ext {A} (p q : A → bool) (l : list A) :
  (∀ x, p x = q x) → findIndex p l = findIndex q l.
Proof.
  intros H. induction l as [|x l IH]; simpl; [done|].
  by rewrite H, IH.
Qed.

Lemma findIndex_app_l {A} (p : A → bool) (l l' : list A) (i : nat) :
  findIndex p l = Some i → findIndex p (l ++ l') = Some i.
Proof.
  revert i. induction l as [|x l IH]; intros i; simpl; [done|].
  destruct (p x); [done|].
  destruct (findIndex p l) as [j|]; [|done]. intros [= <-].
  by rewrite (IH j).
Qed.

Lemma findIndex_app_r {A} (p : A → bool) (l : list A) (x : A) :
  findIndex p l = None → p x = true → findIndex p (l ++ [x]) = Some (length l).
Proof.
  intros Hl Hx. induction l as [|y l IH]; simpl in *; [by rewrite Hx|].
  destruct (p y); [done|].
  destruct (findIndex p l); [done|]. by rewrite IH.
Qed.

Lemma findIndex_lt {A} (p : A → bool) (l : list A) (i : nat) :
  findIndex p l = Some i → i < length l.
Proof.
  intros [(x & Hx & _) _]%findIndex_Some. by eapply lookup_lt_Some.
Qed.

Lemma register_error filename fileStrings icuMessage values map e :
  messageIdOf filename fileStrings icuMessage = inl e →
  getMessageInstanceIdFn filename fileStrings icuMessage values map = (inl e, map).
Proof. intros H. unfold getMessageInstanceIdFn. by rewrite H. Qed.

Lemma register_found filename fileStrings icuMessage values map id i :
  messageIdOf filename fileStrings icuMessage = inr id →
  findIndex (fun inst => isDeepEqual (Inst.values inst) values)
    (default [] (map !! id)) = Some i →
  getMessageInstanceIdFn filename fileStrings icuMessage values map =
  (inr (encode id i), <[id := default [] (map !! id)]> map).
Proof. intros H Hi. unfold getMessageInstanceIdFn. by rewrite H, Hi. Qed.

Lemma register_fresh filename fileStrings icuMessage values map id :
  messageIdOf filename fileStrings icuMessage = inr id →
  findIndex (fun inst => isDeepEqual (Inst.values inst) values)
    (default [] (map !! id)) = None →
  getMessageInstanceIdFn filename fileStrings icuMessage values map =
  (inr (encode id (length (default [] (map !! id)))),
   <[id := default [] (map !! id) ++ [Inst.make id icuMessage values]]> map).
Proof.
  intros H Hi. unfold getMessageInstanceIdFn. rewrite H, Hi.
  rewrite length_app. simpl. do 3 f_equal. lia.
Qed.

(** What one call does to the sequence of any key: nothing, or one entry
    appended to the sequence of its own key. *)
Lemma register_appends filename fileStrings icuMessage values map id :
  ∃ extra,
    default [] ((getMessageInstanceIdFn filename fileStrings icuMessage values map).2 !! id)
    = default [] (map !! id) ++ extra.
Proof.
  destruct (messageIdOf filename fileStrings icuMessage) as [e|id'] eqn:E.
  - rewrite (register_error _ _ _ _ _ _ E). exists []. by rewrite app_nil_r.
  - destruct (findIndex (fun inst => isDeepEqual (Inst.values inst) values)
                (default [] (map !! id'))) as [i|] eqn:F.
    + rewrite (register_found _ _ _ _ _ _ _ E F). simpl. exists [].
      rewrite app_nil_r. destruct (decide (id' = id)) as [->|Hne].
      * by rewrite lookup_insert_eq.
      * by rewrite lookup_insert_ne.
    + rewrite (register_fresh _ _ _ _ _ _ E F). simpl.
      destruct (decide (id' = id)) as [->|Hne].
      * rewrite lookup_insert_eq. by eexists.
      * rewrite lookup_insert_ne by done. exists []. by rewrite app_nil_r.
Qed.

Lemma calls_appends map map' id :
  calls map map' →
  ∃ extra, default [] (map' !! id) = default [] (map !! id) ++ extra.
Proof.
  induction 1 as [|f fs t v map' _ [extra IH]].
  - exists []. by rewrite app_nil_r.
  - destruct (register_appends f fs t v map' id) as [extra' ->].
    rewrite IH. exists (extra ++ extra'). by rewrite app_assoc.
Qed.

(** A call leaves its key present in the registry. *)
Lemma register_Some filename fileStrings icuMessage values map id :
  messageIdOf filename fileStrings icuMessage = inr id →
  is_Some ((getMessageInstanceIdFn filename fileStrings icuMessage values map).2 !! id).
Proof.
  intros E.
  destruct (findIndex (fun inst => isDeepEqual (Inst.values inst) values)
              (default [] (map !! id))) as [i|] eqn:F.
  - rewrite (register_found _ _ _ _ _ _ _ E F). simpl.
    by rewrite lookup_insert_eq.
  - rewrite (register_fresh _ _ _ _ _ _ E F). simpl.
    by rewrite lookup_insert_eq.
Qed.

Lemma index_to_string_inj (i j : nat) :
  index_to_string i = index_to_string j → i = j.
Proof.
  intros H. by rewrite <- (Number_index_to_string i), H, Number_index_to_string.
Qed.

Lemma encode_inj (id id' : string) (i j : nat) :
  encode id i = encode id' j → id = id' ∧ i = j.
Proof.
  unfold encode. intros H.
  destruct (index_to_string_digits i) as [Hi _].
  destruct (index_to_string_digits j) as [Hj _].
  apply hash_digits_unique in H as [-> H]; [|done..].
  by apply index_to_string_inj in H.
Qed.

(** The index a call returns is a position of the sequence it leaves. *)
Lemma register_index_valid filename fileStrings icuMessage values map id i :
  (getMessageInstanceIdFn filename fileStrings icuMessage values map).1
    = inr (encode id i) →
  i < length (default []
        ((getMessageInstanceIdFn filename fileStrings icuMessage values map).2 !! id)).
Proof.
  destruct (messageIdOf filename fileStrings icuMessage) as [e|id'] eqn:E.
  - by rewrite (register_error _ _ _ _ _ _ E).
  - destruct (findIndex (fun inst => isDeepEqual (Inst.values inst) values)
                (default [] (map !! id'))) as [i'|] eqn:F.
    + rewrite (register_found _ _ _ _ _ _ _ E F). simpl.
      intros [= H]. apply encode_inj in H as [? ?]. subst.
      rewrite lookup_insert_eq. simpl. by apply findIndex_lt in F.
    + rewrite (register_fresh _ _ _ _ _ _ E F). simpl.
      intros [= H]. apply encode_inj in H as [? ?]. subst.
      rewrite lookup_insert_eq. simpl. rewrite length_app. simpl. lia.
Qed.

Lemma isDeepEqual_congr (v v' w : option (gmap string val)) :
  (∀ a b, isDeepEqual a b = isDeepEqual b a) →
  (∀ a b c, isDeepEqual a b = true → isDeepEqual b c = true →
            isDeepEqual a c = true) →
  isDeepEqual v v' = true → isDeepEqual w v = isDeepEqual w v'.
Proof.
  intros Hsym Htrans Hvv'.
  destruct (isDeepEqual w v) eqn:E1, (isDeepEqual w v') eqn:E2; try done.
  - by rewrite (Htrans w v v') in E2.
  - rewrite Hsym in Hvv'. by rewrite (Htrans w v' v) in E1.
Qed.

(** After a call with [values], the sequence of its key holds at the
    returned index the first entry that is deep-equal to [values], and to
    whatever is deep-equal to [values]. *)
Lemma register_post filename fileStrings icuMessage values values' map id :
  (∀ a b, isDeepEqual a b = isDeepEqual b a) →
  (∀ a b c, isDeepEqual a b = true → isDeepEqual b c = true →
            isDeepEqual a c = true) →
  isDeepEqual values values' = true →
  messageIdOf filename fileStrings icuMessage = inr id →
  ∃ i,
    (getMessageInstanceIdFn filename fileStrings icuMessage values map).1
      = inr (encode id i) ∧
    findIndex (fun inst => isDeepEqual (Inst.values inst) values')
      (default []
         ((getMessageInstanceIdFn filename fileStrings icuMessage values map).2 !! id))
      = Some i.
Proof.
  intros Hsym Htrans Hvv' E.
  assert (∀ l, findIndex (fun inst => isDeepEqual (Inst.values inst) values) l
               = findIndex (fun inst => isDeepEqual (Inst.values inst) values') l)
    as Hext.
  { intros l. apply findIndex_ext. intros x. by apply isDeepEqual_congr. }
  destruct (findIndex (fun inst => isDeepEqual (Inst.values inst) values)
              (default [] (map !! id))) as [i|] eqn:F.
  - rewrite (register_found _ _ _ _ _ _ _ E F). simpl. exists i.
    split; [done|]. rewrite lookup_insert_eq. simpl. by rewrite <- Hext.
  - rewrite (register_fresh _ _ _ _ _ _ E F). simpl. eexists.
    split; [done|]. rewrite lookup_insert_eq. simpl.
    apply findIndex_app_r; [by rewrite <- Hext | done].
Qed.

(** C1. With a deep equality that is symmetric and transitive: once a
    template has been registered with some values, registering it again,
    at any later time, with deep-equal values returns the same token; and
    registering it with values that are deep-equal to no entry of its key
    returns the token whose index is the length of the key's sequence, an
    index above every index returned before for that key. *)
Theorem register_tokens filename fileStrings icuMessage values map :
  (∀ a b, isDeepEqual a b = isDeepEqual b a) →
  (∀ a b c, isDeepEqual a b = true → isDeepEqual b c = true →
            isDeepEqual a c = true) →
  (∀ values' map',
     isDeepEqual values values' = true →
     calls (getMessageInstanceIdFn filename fileStrings icuMessage values map).2 map' →
     (getMessageInstanceIdFn filename fileStrings icuMessage values' map').1
     = (getMessageInstanceIdFn filename fileStrings icuMessage values map).1) ∧
  (∀ id,
     messageIdOf filename fileStrings icuMessage = inr id →
     (∀ inst, inst ∈ default [] (map !! id) →
              isDeepEqual (Inst.values inst) values = false) →
     (getMessageInstanceIdFn filename fileStrings icuMessage values map).1
       = inr (encode id (length (default [] (map !! id)))) ∧
     ∀ filename0 fileStrings0 icuMessage0 values0 map0 j,
       (getMessageInstanceIdFn filename0 fileStrings0 icuMessage0 values0 map0).1
         = inr (encode id j) →
       calls (getMessageInstanceIdFn filename0 fileStrings0 icuMessage0 values0 map0).2 map →
       j < length (default [] (map !! id))).
Proof.
  intros Hsym Htrans. split.
  - intros values' map' Hvv' Hcalls.
    destruct (messageIdOf filename fileStrings icuMessage) as [e|id] eqn:E.
    + by rewrite !(register_error _ _ _ _ _ _ E).
    + destruct (register_post _ _ _ values values' map id Hsym Htrans Hvv' E)
        as (i & -> & F).
      destruct (calls_appends _ _ id Hcalls) as [extra Hext].
      rewrite (register_found _ _ _ values' map' id i E); [done|].
      rewrite Hext. by apply findIndex_app_l.
  - intros id E Hfresh. split.
    + rewrite (register_fresh _ _ _ _ _ _ E); [done|].
      by apply findIndex_None.
    + intros f0 fs0 t0 v0 map0 j Htok Hcalls.
      apply register_index_valid in Htok.
      destruct (calls_appends _ _ id Hcalls) as [extra ->].
      rewrite length_app. lia.
Qed.

Lemma register_keeps filename fileStrings icuMessage values map id L :
  map !! id = Some L →
  is_Some ((getMessageInstanceIdFn filename fileStrings icuMessage values map).2 !! id).
Proof.
  intros HL.
  destruct (messageIdOf filename fileStrings icuMessage) as [e|id'] eqn:E.
  - rewrite (register_error _ _ _ _ _ _ E). simpl. by rewrite HL.
  - destruct (decide (id' = id)) as [->|Hne]; [by apply register_Some|].
    unfold getMessageInstanceIdFn. rewrite E.
    destruct (findIndex _ _); simpl; rewrite lookup_insert_ne by done;
      by rewrite HL.
Qed.

Lemma calls_keeps map map' id L :
  calls map map' → map !! id = Some L →
  ∃ extra, map' !! id = Some (L ++ extra).
Proof.
  intros Hcalls HL.
  destruct (calls_appends _ _ id Hcalls) as [extra Hext].
  rewrite HL in Hext. simpl in Hext. exists extra.
  assert (is_Some (map' !! id)) as [L' HL'].
  { clear Hext. induction Hcalls as [|f fs t v map' _ [L' IH]]; [by rewrite HL|].
    by eapply register_keeps. }
  rewrite HL' in Hext. simpl in Hext. by rewrite HL', Hext.
Qed.

Lemma register_distinct filename fileStrings icuMessage values map :
  distinct_values map →
  distinct_values
    (getMessageInstanceIdFn filename fileStrings icuMessage values map).2.
Proof.
  intros Hinv.
  destruct (messageIdOf filename fileStrings icuMessage) as [e|id'] eqn:E.
  { by rewrite (register_error _ _ _ _ _ _ E). }
  destruct (findIndex (fun inst => isDeepEqual (Inst.values inst) values)
              (default [] (map !! id'))) as [i0|] eqn:F.
  - rewrite (register_found _ _ _ _ _ _ _ E F). simpl.
    intros id L i j a b HL Hij Ha Hb.
    destruct (decide (id' = id)) as [->|Hne].
    + rewrite lookup_insert_eq in HL. injection HL as <-.
      destruct (map !! id) as [L0|] eqn:HL0; simpl in *; [|done].
      by eapply (Hinv id L0 i j).
    + rewrite lookup_insert_ne in HL by done. by eapply (Hinv id L i j).
  - rewrite (register_fresh _ _ _ _ _ _ E F). simpl.
    intros id L i j a b HL Hij Ha Hb.
    destruct (decide (id' = id)) as [->|Hne].
    + rewrite lookup_insert_eq in HL. injection HL as <-.
      destruct (decide (j < length (default [] (map !! id)))) as [Hj|Hj].
      * rewrite lookup_app_l in Ha by lia. rewrite lookup_app_l in Hb by lia.
        destruct (map !! id) as [L0|] eqn:HL0; simpl in *; [|done].
        by eapply (Hinv id L0 i j).
      * pose proof (lookup_lt_Some _ _ _ Hb) as Hlen.
        rewrite length_app in Hlen. simpl in Hlen.
        assert (j = length (default [] (map !! id))) as -> by lia.
        rewrite lookup_app_l in Ha by lia.
        rewrite list_lookup_middle in Hb by done. injection Hb as <-. simpl.
        rewrite findIndex_None in F. apply F.
        apply list_elem_of_lookup. eauto.
    + rewrite lookup_insert_ne in HL by done. by eapply (Hinv id L i j).
Qed.

Lemma reachable_distinct map : reachable map → distinct_values map.
Proof.
  unfold reachable. induction 1 as [|f fs t v map' _ IH].
  - intros id L i j a b HL. by rewrite lookup_empty in HL.
  - by apply register_distinct.
Qed.

(** C2. With a symmetric deep equality, in every registry reached from the
    empty map no sequence holds two entries with deep-equal values; and
    whatever calls follow, every sequence keeps its entries at their
    positions and only grows at its end. *)
Theorem registry_invariant map :
  (∀ a b, isDeepEqual a b = isDeepEqual b a) →
  reachable map →
  (∀ id L i j a b,
     map !! id = Some L → L !! i = Some a → L !! j = Some b → i ≠ j →
     isDeepEqual (Inst.values a) (Inst.values b) = false) ∧
  (∀ map', calls map map' →
     ∀ id L, map !! id = Some L → ∃ extra, map' !! id = Some (L ++ extra)).
Proof.
  intros Hsym Hreach. split.
  - intros id L i j a b HL Ha Hb Hij.
    pose proof (reachable_distinct _ Hreach) as Hinv.
    destruct (decide (i < j)) as [Hlt|Hge].
    + by eapply (Hinv id L i j).
    + rewrite Hsym. eapply (Hinv id L j i); eauto. lia.
  - intros map' Hcalls id L HL. by eapply calls_keeps.
Qed.

(** C5 (what the code does). A token that decodes to a key without a
    sequence, or to an index past the end of the key's sequence, makes
    [_resolveIcuMessageInstanceId] throw, for every locale; the exception is
    the [TypeError] of reading [icuMessage] from [undefined], not the error
    "is not a valid message instance ID". *)
Theorem resolve_unknown_instance (token locale : string) map id d :
  decode token = Some (id, d) →
  map !! id = None ∨ (∃ L, map !! id = Some L ∧ length L ≤ Number d) →
  _resolveIcuMessageInstanceId token locale map =
  throw (TypeError "Cannot read property 'icuMessage' of undefined").
Proof.
  intros Hdec H. unfold _resolveIcuMessageInstanceId. rewrite Hdec.
  destruct H as [->|(L & -> & Hlen)]; simpl.
  - done.
  - by rewrite lookup_ge_None_2.
Qed.

(** ** Value preprocessing *)

Lemma check_provided_spec (values : gmap string val) (els : list element) :
  check_provided values (List.filter is_argumentElement els) =
  match first_missing values els with
  | Some id => throw (value_not_provided (id_key id))
  | None => mret tt
  end.
Proof.
  unfold first_missing. induction els as [|el els IH]; [done|].
  destruct el as [text|id fmt]; simpl; [done|].
  by destruct (id_truthy id && negb (js_in (id_key id) values)).
Qed.

Lemma first_missing_Some (values : gmap string val) (els : list element) id :
  first_missing values els = Some id →
  (∃ fmt, argumentElement id fmt ∈ els) ∧ id_truthy id = true ∧
  js_in (id_key id) values = false.
Proof.
  unfold first_missing. induction els as [|el els IH]; [done|].
  destruct el as [text|id' fmt]; simpl.
  - intros (? & ? & ?)%IH. split; [|done].
    destruct H as [f Hf]. exists f. by right.
  - destruct (id_truthy id' && negb (js_in (id_key id') values)) eqn:E; simpl.
    + intros [= <-]. apply andb_true_iff in E as [E1 E2].
      apply negb_true_iff in E2. split; [|done]. exists fmt. by left.
    + intros (? & ? & ?)%IH. split; [|done].
      destruct H as [f Hf]. exists f. by right.
Qed.

Lemma js_in_own (values : gmap string val) (key : string) :
  is_Some (values !! key) → js_in key values = true.
Proof. intros H. unfold js_in. by rewrite bool_decide_eq_true_2. Qed.

Lemma first_missing_None (values : gmap string val) (els : list element) :
  (∀ id fmt, argumentElement id fmt ∈ els → id_truthy id = true →
             js_in (id_key id) values = true) →
  first_missing values els = None.
Proof.
  intros H. destruct (first_missing values els) as [id|] eqn:E; [|done].
  apply first_missing_Some in E as ([fmt Hel] & Hne & Hnone).
  rewrite (H id fmt Hel Hne) in Hnone. done.
Qed.

Lemma first_missing_exists (values : gmap string val) (els : list element) x fmt :
  argumentElement x fmt ∈ els → id_truthy x = true →
  js_in (id_key x) values = false →
  is_Some (first_missing values els).
Proof.
  intros Hel Hne Hx. destruct (first_missing values els) as [id|] eqn:E; [done|].
  exfalso. unfold first_missing in E. induction els as [|el els IH].
  - by apply elem_of_nil in Hel.
  - apply elem_of_cons in Hel as [<-|Hel]; simpl in E.
    + by rewrite Hne, Hx in E.
    + destruct el as [text|id' fmt']; simpl in E; [by apply IH|].
      destruct (id_truthy id' && negb (js_in (id_key id') values)); [done|].
      by apply IH.
Qed.

Lemma convert_cons (f : val → val) el els cv :
  convert f (el :: els) cv =
  convert f els
    match element_key el with
    | Some key => <[key := f (js_get cv key)]> cv
    | None => cv
    end.
Proof. reflexivity. Qed.

Lemma js_get_insert_eq (cv : gmap string val) x y :
  js_get (<[x := y]> cv) x = y.
Proof. unfold js_get. by rewrite lookup_insert_eq. Qed.

Lemma js_get_insert_ne (cv : gmap string val) x x' y :
  x ≠ x' → js_get (<[x := y]> cv) x' = js_get cv x'.
Proof. intros H. unfold js_get. by rewrite lookup_insert_ne. Qed.

(** One pass applies its conversion to a placeholder once for every
    selected element that carries it, and leaves the other entries. *)
Lemma convert_uses (f : val → val) (selects : element → bool)
    (els : list element) (cv : gmap string val) (x : string) :
  convert f (List.filter selects els) cv !! x =
  match uses selects x els with
  | O => cv !! x
  | S k => Some (Nat.iter (S k) f (js_get cv x))
  end.
Proof.
  unfold uses. revert cv. induction els as [|el els IH]; intros cv; [done|].
  simpl List.filter. destruct (selects el) eqn:Hs; simpl andb; [|apply IH].
  rewrite convert_cons. destruct (element_key el) as [id|] eqn:Hid.
  - destruct (decide (id = x)) as [->|Hne].
    + rewrite bool_decide_eq_true_2 by done. simpl length. rewrite IH.
      rewrite js_get_insert_eq, lookup_insert_eq.
      destruct (length _) as [|k]; [done|].
      f_equal. by rewrite (Nat.iter_succ_r (S k)).
    + rewrite bool_decide_eq_false_2 by congruence. rewrite IH.
      by rewrite js_get_insert_ne, lookup_insert_ne.
  - rewrite bool_decide_eq_false_2 by done. apply IH.
Qed.

Lemma convert_unused (f : val → val) (selects : element → bool)
    (els : list element) (cv : gmap string val) (x : string) :
  uses selects x els = 0 →
  convert f (List.filter selects els) cv !! x = cv !! x ∧
  js_get (convert f (List.filter selects els) cv) x = js_get cv x.
Proof.
  intros H. unfold js_get. by rewrite convert_uses, H.
Qed.

Lemma convert_used_once (f : val → val) (selects : element → bool)
    (els : list element) (cv : gmap string val) (x : string) :
  uses selects x els = 1 →
  convert f (List.filter selects els) cv !! x = Some (f (js_get cv x)).
Proof. intros H. by rewrite convert_uses, H. Qed.

Lemma uses_seconds_other (x : string) (els : list element) :
  x ≠ "timeInMs" → uses converts_seconds x els = 0.
Proof.
  intros Hne. unfold uses, converts_seconds.
  induction els as [|el els IH]; [done|]. simpl.
  destruct (has_style "seconds" el); simpl; [|done].
  destruct (decide (element_id el = Some (IdStr "timeInMs"))) as [E|E].
  - rewrite bool_decide_eq_true_2 by done.
    destruct el as [text|id fmt]; [done|]. injection E as ->. simpl.
    rewrite bool_decide_eq_false_2 by congruence. done.
  - rewrite bool_decide_eq_false_2 by done. done.
Qed.

Lemma preprocess_ok (t : string) (values : option (gmap string val))
    (els : list element) :
  MessageParser_parse t = inr els →
  first_missing (default ∅ values) els = None →
  _preprocessMessageValues t values =
  inr (convert bytes_to_kb (List.filter converts_bytes els)
         (convert ms_to_seconds (List.filter converts_seconds els)
            (convert to_nearest_10 (List.filter converts_ms els)
               (JSON_clone (default ∅ values))))).
Proof.
  intros Hp Hm. unfold _preprocessMessageValues. rewrite Hp. simpl.
  rewrite check_provided_spec, Hm. done.
Qed.

(** C7. The check for missing values looks at the top-level elements only:
    a placeholder that the template references inside the options of a
    plural or select format, and that [values] lacks, raises no error.  When
    every top-level argument passes the check, [_preprocessMessageValues]
    returns the converted values, and [_formatIcuMessage] goes on to the
    formatter: its result is whatever the formatter makes of them. *)
Theorem nested_value_not_checked (t : string)
    (values : option (gmap string val)) (els : list element) (x : string) :
  MessageParser_parse t = inr els →
  x ∈ flat_map placeholders els →
  js_in x (default ∅ values) = false →
  (∀ id fmt, argumentElement id fmt ∈ els → id_truthy id = true →
             js_in (id_key id) (default ∅ values) = true) →
  ∃ out,
    _preprocessMessageValues t values = inr out ∧
    ∀ locale icuMessageId uiStringMessage,
      resolveLocaleMessage locale icuMessageId uiStringMessage = inr t →
      _formatIcuMessage locale icuMessageId uiStringMessage values =
      (formatter ←
         MessageFormat t
           (if String.eqb locale "en-XA" || String.eqb locale "en-XL"
            then "de-DE" else locale);
       formattedString ← formatter out;
       mret (formattedString, t)).
Proof.
  intros Hp _ _ Hall. eexists. split.
  { apply preprocess_ok; [done|]. by apply first_missing_None. }
  intros locale icuMessageId ui Hr. unfold _formatIcuMessage.
  rewrite Hr. simpl.
  rewrite (preprocess_ok _ _ _ Hp (first_missing_None _ _ Hall)). done.
Qed.

(** The check at work: a top-level argument with a truthy id that is not
    [in] the values stops [_preprocessMessageValues] with the error that
    names the first such argument, before anything is formatted. *)
Lemma missing_value_error (t : string) (values : option (gmap string val))
    (els : list element) (x : ident) (fmt : option format) :
  MessageParser_parse t = inr els →
  argumentElement x fmt ∈ els → id_truthy x = true →
  js_in (id_key x) (default ∅ values) = false →
  ∃ id,
    first_missing (default ∅ values) els = Some id ∧
    _preprocessMessageValues t values = throw (value_not_provided (id_key id)) ∧
    ∀ locale icuMessageId uiStringMessage,
      resolveLocaleMessage locale icuMessageId uiStringMessage = inr t →
      _formatIcuMessage locale icuMessageId uiStringMessage values
      = throw (value_not_provided (id_key id)).
Proof.
  intros Hp Hel Hne Hx.
  destruct (first_missing_exists _ _ _ _ Hel Hne Hx) as [id Hid].
  assert (_preprocessMessageValues t values
          = throw (value_not_provided (id_key id))) as E.
  { unfold _preprocessMessageValues. rewrite Hp. simpl.
    by rewrite check_provided_spec, Hid. }
  exists id. split; [done|]. split; [done|].
  intros locale icuMessageId ui Hr. unfold _formatIcuMessage.
  rewrite Hr. simpl. by rewrite E.
Qed.

(** C8. The pass for the style bytes divides once for every top-level
    element that carries the placeholder, not once for the placeholder: when
    every top-level placeholder has a value, a placeholder that [S n] such
    elements carry, and that the two other passes leave alone, comes out as
    its cloned value divided by 1024 [S n] times. *)
Theorem bytes_divided_per_element (t : string)
    (values : option (gmap string val)) (els : list element) (x : string)
    (n : nat) :
  MessageParser_parse t = inr els →
  (∀ id fmt, argumentElement id fmt ∈ els → id_truthy id = true →
             is_Some (default ∅ values !! id_key id)) →
  uses converts_ms x els = 0 →
  uses converts_seconds x els = 0 →
  uses converts_bytes x els = S n →
  ∃ out,
    _preprocessMessageValues t values = inr out ∧
    out !! x
    = Some (Nat.iter (S n) bytes_to_kb
              (js_get (JSON_clone (default ∅ values)) x)).
Proof.
  intros Hp Hall Hms Hsec Hkb. eexists. split.
  { apply preprocess_ok; [done|]. apply first_missing_None.
    intros id fmt Hel Hid. apply js_in_own. by apply (Hall id fmt). }
  rewrite convert_uses, Hkb.
  rewrite (proj2 (convert_unused _ _ _ _ _ Hsec)).
  by rewrite (proj2 (convert_unused _ _ _ _ _ Hms)).
Qed.

(** ** Locale lookup *)

Lemma pop_loop_Some {V} (available : gmap string V) (parts : list string)
    (n : nat) (c : string) :
  pop_loop available parts n = Some c →
  ∃ k, 1 ≤ k ≤ n ∧ c = join "-" (take k parts) ∧ is_Some (available !! c) ∧
       ∀ k', k < k' ≤ n → available !! join "-" (take k' parts) = None.
Proof.
  induction n as [|n IH]; simpl; [done|].
  destruct (available !! join "-" (take (S n) parts)) as [v|] eqn:E.
  - intros [= <-]. exists (S n). split; [lia|]. split; [done|].
    split; [by rewrite E|]. intros k' Hk'. lia.
  - intros (k & Hk & -> & Hsome & Hnone)%IH. exists k.
    split; [lia|]. split; [done|]. split; [done|].
    intros k' Hk'. destruct (decide (k' = S n)) as [->|Hne]; [done|].
    apply Hnone. lia.
Qed.

Lemma pop_loop_None {V} (available : gmap string V) (parts : list string)
    (n : nat) :
  pop_loop available parts n = None ↔
  ∀ k, 1 ≤ k ≤ n → available !! join "-" (take k parts) = None.
Proof.
  induction n as [|n IH]; simpl.
  - split; [|done]. intros _ k Hk. lia.
  - destruct (available !! join "-" (take (S n) parts)) as [v|] eqn:E.
    + split; [done|]. intros H. rewrite H in E; [done|lia].
    + rewrite IH. split.
      * intros H k Hk. destruct (decide (k = S n)) as [->|Hne]; [done|].
        apply H. lia.
      * intros H k Hk. apply H. lia.
Qed.

Lemma split_nonempty (sep : ascii) (s : string) : split sep s ≠ [].
Proof.
  destruct s as [|a s]; simpl; [done|].
  destruct (Ascii.eqb a sep); [done|]. by destruct (split sep s).
Qed.

Lemma join_cons (sep x : string) (l : list string) :
  l ≠ [] → join sep (x :: l) = x +:+ sep +:+ join sep l.
Proof. by destruct l. Qed.

(** Joining the subtags of a tag gives the tag back, so the first
    candidate of the loop is the tag itself. *)
Lemma join_split (s : string) : join "-" (split "-"%char s) = s.
Proof.
  induction s as [|a s IH]; simpl; [done|].
  destruct (Ascii.eqb a "-"%char) eqn:E.
  - apply Ascii.eqb_eq in E as ->.
    rewrite join_cons by apply split_nonempty. by rewrite IH.
  - pose proof (split_nonempty "-"%char s) as Hne.
    destruct (split "-"%char s) as [|h t]; [done|].
    destruct t as [|h' t]; simpl in *; [by rewrite IH|].
    rewrite <- IH. by rewrite str_app_cons.
Qed.

(** Every candidate is a prefix of what is joined. *)
Lemma join_take_prefix (sep : string) (parts : list string) (n : nat) :
  1 ≤ n → ∃ rest, join sep parts = join sep (take n parts) +:+ rest.
Proof.
  revert n. induction parts as [|x parts IH]; intros n Hn.
  - exists EmptyString. by destruct n.
  - destruct n as [|n]; [lia|]. destruct parts as [|y parts].
    + exists EmptyString. rewrite str_app_nil_r. by destruct n.
    + destruct n as [|n].
      * exists (sep +:+ join sep (y :: parts)). simpl take.
        by rewrite join_cons.
      * destruct (IH (S n)) as [rest Hrest]; [lia|].
        exists rest. rewrite join_cons by done. rewrite Hrest.
        change (take (S (S n)) (x :: y :: parts))
          with (x :: take (S n) (y :: parts)).
        rewrite join_cons by done. by rewrite !str_app_assoc.
Qed.

Lemma tag_prefix_prefix (tag : string) (n : nat) :
  1 ≤ n → ∃ rest, tag = tag_prefix tag n +:+ rest.
Proof.
  intros Hn. unfold tag_prefix.
  destruct (join_take_prefix "-" (split "-"%char tag) n Hn) as [rest H].
  exists rest. by rewrite <- H, join_split.
Qed.

Lemma tag_prefix_full (tag : string) :
  tag_prefix tag (length (split "-"%char tag)) = tag.
Proof. unfold tag_prefix. by rewrite firstn_all, join_split. Qed.

Lemma lookupClosestLocale_exact {V} (available : gmap string V) tag v :
  available !! tag = Some v → lookupClosestLocale (Some tag) available = Some tag.
Proof. intros H. unfold lookupClosestLocale. by rewrite H. Qed.

Lemma lookupClosestLocale_prefixes {V} (available : gmap string V) tag :
  available !! tag = None → tag ≠ EmptyString →
  lookupClosestLocale (Some tag) available =
  pop_loop available (split "-"%char tag) (length (split "-"%char tag)).
Proof. intros H Hne. unfold lookupClosestLocale. rewrite H. by destruct tag. Qed.

Lemma lookupClosestLocale_empty {V} (available : gmap string V) :
  available !! EmptyString = None →
  lookupClosestLocale (Some EmptyString) available = None.
Proof. intros H. unfold lookupClosestLocale. by rewrite H. Qed.

Lemma lookupLocale_unfold (locale : option string) (tags : list string) :
  Intl_getCanonicalLocales locale = inr tags →
  lookupLocale locale =
  inr match lookupClosestLocale (head tags) LOCALES with
      | Some (String a s) => String a s
      | _ => "en"
      end.
Proof.
  intros H. unfold lookupLocale. rewrite H. unfold mbind, result_bind.
  by destruct (lookupClosestLocale (head tags) LOCALES) as [[|a s]|].
Qed.

(** C6 (as amended). [lookupLocale] throws exactly when the
    canonicalisation of the requested tag throws.  Otherwise it returns: the
    default ["en"] when no tag was requested; the canonical tag when it is a
    supported locale; else the longest supported prefix of the canonical
    tag, obtained by dropping trailing subtags; else ["en"]. *)
Theorem lookupLocale_result (locale : option string) :
  match Intl_getCanonicalLocales locale with
  | inl e => lookupLocale locale = inl e
  | inr tags =>
      match head tags with
      | None => lookupLocale locale = inr "en"
      | Some tag =>
          ∃ r, lookupLocale locale = inr r ∧
            (is_Some (LOCALES !! tag) → tag ≠ EmptyString → r = tag) ∧
            (LOCALES !! tag = None →
             ∀ n, 1 ≤ n ≤ length (split "-"%char tag) →
                  is_Some (LOCALES !! tag_prefix tag n) →
                  tag_prefix tag n ≠ EmptyString →
                  (∀ n', n < n' ≤ length (split "-"%char tag) →
                         LOCALES !! tag_prefix tag n' = None) →
                  r = tag_prefix tag n) ∧
            (LOCALES !! tag = None →
             (∀ n, 1 ≤ n ≤ length (split "-"%char tag) →
                   LOCALES !! tag_prefix tag n = None) →
             r = "en")
      end
  end.
Proof.
  destruct (Intl_getCanonicalLocales locale) as [e|tags] eqn:Hc.
  { unfold lookupLocale. by rewrite Hc. }
  rewrite (lookupLocale_unfold _ _ Hc).
  destruct (head tags) as [tag|]; [|done].
  eexists. split; [done|].
  destruct (LOCALES !! tag) as [v|] eqn:E.
  { rewrite (lookupClosestLocale_exact _ _ _ E).
    split; [|split; done]. intros _ Hne. by destruct tag. }
  split; [by intros [? ?]|].
  destruct (decide (tag = EmptyString)) as [->|Hne].
  { rewrite (lookupClosestLocale_empty _ E). split; [|done].
    intros _ n Hn Hsome. simpl in Hn. assert (n = 1) as -> by lia.
    unfold tag_prefix in Hsome. simpl in Hsome. rewrite E in Hsome.
    by destruct Hsome. }
  rewrite (lookupClosestLocale_prefixes _ _ E Hne).
  destruct (pop_loop LOCALES _ _) as [c|] eqn:P.
  - apply pop_loop_Some in P as (k & Hk & -> & Hsome & Hnone).
    fold (tag_prefix tag k) in *. split.
    + intros _ n Hn Hn_some Hn_ne Hn_none.
      destruct (decide (n = k)) as [->|Hnk].
      * by destruct (tag_prefix tag k).
      * exfalso. destruct (decide (n < k)) as [Hlt|Hge].
        -- rewrite Hn_none in Hsome by lia. by destruct Hsome.
        -- unfold tag_prefix in Hn_some. rewrite Hnone in Hn_some by lia.
           by destruct Hn_some.
    + intros _ Hall. rewrite Hall in Hsome by done. by destruct Hsome.
  - split; [|done]. intros _ n Hn Hn_some.
    rewrite pop_loop_None in P. unfold tag_prefix in Hn_some.
    rewrite P in Hn_some by done. by destruct Hn_some.
Qed.


(** * Further properties *)

(** ** Tokens and the registry *)

(** What [decode] returns on a token built by [encode], for a key without
    line terminators that holds a " | ". *)
Lemma decode_token (a b : string) (i : nat) :
  Str.all dot (a +:+ " | " +:+ b) = true →
  decode (encode (a +:+ " | " +:+ b) i)
  = Some (a +:+ " | " +:+ b, index_to_string i).
Proof.
  intros Hdot. rewrite !str_all_app in Hdot.
  apply andb_true_iff in Hdot as [Ha Hdot].
  apply andb_true_iff in Hdot as [_ Hb].
  destruct (index_to_string_digits i) as [Hd Hne].
  unfold decode, exec, encode.
  destruct (search_first MESSAGE_INSTANCE_ID_REGEX 0
              ((a +:+ " | " +:+ b) +:+ " # " +:+ index_to_string i)
              (0 + Str.len ((a +:+ " | " +:+ b) +:+ " # " +:+ index_to_string i),
               EmptyString,
               [(2, index_to_string i); (1, a +:+ " | " +:+ b)]))
    as (i' & s' & c' & Hr & ->).
  { apply run_MESSAGE_INSTANCE_ID_REGEX.
    exists a, b, (index_to_string i). by rewrite !str_app_assoc. }
  apply run_MESSAGE_INSTANCE_ID_REGEX in Hr
    as (a' & b' & d' & E & _ & _ & Hd' & _ & [= -> -> ->]).
  unfold group. simpl.
  replace (a' +:+ " | " +:+ b' +:+ " # " +:+ d')
    with ((a' +:+ " | " +:+ b') +:+ " # " +:+ d') in E
    by (by rewrite !str_app_assoc).
  apply hash_digits_unique in E as [-> ->]; done.
Qed.

(** X1. [decode] succeeds exactly on the strings [isIcuMessage] accepts, so
    a caller that tests with [isIcuMessage] first never meets the error for
    an invalid instance id; and what [decode] returns is a reading of the
    end of the string: a key with a " | " and no line terminator, then
    " # ", then a non-empty run of digits. *)
Theorem decode_accepts (s : string) :
  (isIcuMessage s = true ↔ ∃ k d, decode s = Some (k, d)) ∧
  (∀ k d, decode s = Some (k, d) →
     (∃ pre, s = pre +:+ k +:+ " # " +:+ d) ∧
     Str.includes " | " k = true ∧ Str.all dot k = true ∧
     Str.all digit d = true ∧ d ≠ EmptyString).
Proof.
  split.
  - rewrite isIcuMessage_full. unfold test, decode.
    destruct (exec MESSAGE_INSTANCE_ID_REGEX s) as [c|].
    + split; [eauto | done].
    + split; [done | by intros (k & d & ?)].
  - unfold decode, exec.
    destruct (search _ 0 s) as [c|] eqn:E; [|done]. intros k d [= <- <-].
    apply search_Some in E as (pre & s0 & i' & s' & c' & -> & Hr & ->).
    apply run_MESSAGE_INSTANCE_ID_REGEX in Hr
      as (a & b & d & -> & Ha & Hb & Hd & Hne & [= -> -> ->]).
    unfold group. simpl. split; [|split; [|split; [|split]]]; try done.
    + exists pre. by rewrite !str_app_assoc.
    + apply includes_true. by exists a, b.
    + rewrite !str_all_app. by rewrite Ha, Hb.
Qed.

Lemma replace_backslashes_spec (s : string) :
  Str.any (Ascii.eqb "092"%char) (replace_backslashes s) = false.
Proof.
  induction s as [|a s IH]; [done|].
  cbn [replace_backslashes Str.any]. rewrite IH, orb_false_r.
  destruct (Ascii.eqb a "092"%char) eqn:E; [done|].
  by rewrite Ascii.eqb_sym.
Qed.

Lemma find_Some_first {A} (p : A → bool) (l : list A) (x : A) :
  find p l = Some x →
  ∃ l1 l2, l = l1 ++ x :: l2 ∧ p x = true ∧ ∀ y, y ∈ l1 → p y = false.
Proof.
  induction l as [|y l IH]; simpl; [done|].
  destruct (p y) eqn:Hy.
  - intros [= <-]. exists [], l. split; [done|]. split; [done|].
    intros z Hz. by apply elem_of_nil in Hz.
  - intros (l1 & l2 & -> & Hx & Hl1)%IH. exists (y :: l1), l2.
    split; [done|]. split; [done|].
    intros z [->|Hz]%elem_of_cons; [done | by apply Hl1].
Qed.

Lemma find_None_all {A} (p : A → bool) (l : list A) :
  find p l = None → ∀ y, y ∈ l → p y = false.
Proof.
  induction l as [|y l IH]; simpl.
  - intros _ z Hz. by apply elem_of_nil in Hz.
  - destruct (p y) eqn:Hy; [done|]. intros H z [->|Hz]%elem_of_cons; [done|].
    by apply IH.
Qed.

Lemma obj_get_Some_keys (o : obj) (k v : string) :
  obj_get o k = Some v → k ∈ obj_keys o.
Proof.
  induction o as [|[k' v'] o IH]; simpl; [done|].
  destruct (String.eqb k' k) eqn:E.
  - apply String.eqb_eq in E as ->. intros _. by left.
  - intros H. right. by apply IH.
Qed.

(** The shape of the ids [messageIdOf] issues. *)
Lemma messageIdOf_inr filename fileStrings icuMessage id :
  messageIdOf filename fileStrings icuMessage = inr id →
  ∃ keyname,
    keyname ≠ EmptyString ∧
    obj_get (spread (spread [] UIStrings) fileStrings) keyname = Some icuMessage ∧
    id = replace_backslashes
           (path_relative_LH_ROOT
              (if obj_has fileStrings keyname then filename else __filename))
         +:+ " | " +:+ keyname.
Proof.
  unfold messageIdOf.
  destruct (find _ _) as [[|a k]|] eqn:F; try done.
  intros [= <-]. exists (String a k). split; [done|]. split; [|done].
  apply find_Some_first in F as (l1 & l2 & _ & Hp & _).
  destruct (obj_get _ (String a k)) as [v|]; [|done].
  by apply String.eqb_eq in Hp as ->.
Qed.

Lemma messageIdOf_inl filename fileStrings icuMessage e :
  messageIdOf filename fileStrings icuMessage = inl e →
  e = Error ("Could not locate: " +:+ icuMessage) ∧
  ∀ k, obj_get (spread (spread [] UIStrings) fileStrings) k = Some icuMessage →
       obj_get (spread (spread [] UIStrings) fileStrings) EmptyString
       = Some icuMessage.
Proof.
  unfold messageIdOf.
  destruct (find _ _) as [[|a k]|] eqn:F; try done; intros [= <-];
    (split; [done|]).
  - intros k _. apply find_Some_first in F as (l1 & l2 & _ & Hp & _).
    destruct (obj_get _ EmptyString) as [v|]; [|done].
    by apply String.eqb_eq in Hp as ->.
  - intros k Hk.
    pose proof (find_None_all _ _ F k (obj_get_Some_keys _ _ _ Hk)) as H.
    cbv beta in H. rewrite Hk in H. by rewrite String.eqb_refl in H.
Qed.

Lemma obj_get_set (o : obj) (k v k' : string) :
  obj_get (obj_set o k v) k' = if String.eqb k k' then Some v else obj_get o k'.
Proof.
  induction o as [|[k0 v0] o IH]; simpl.
  - done.
  - destruct (String.eqb k0 k) eqn:E0; simpl.
    + apply String.eqb_eq in E0 as ->. by destruct (String.eqb k k').
    + rewrite IH. destruct (String.eqb k0 k') eqn:E1; [|done].
      apply String.eqb_eq in E1 as ->. rewrite String.eqb_sym. by rewrite E0.
Qed.

Lemma obj_get_app (o1 o2 : obj) (k : string) :
  obj_get (o1 ++ o2) k =
  match obj_get o1 k with Some v => Some v | None => obj_get o2 k end.
Proof.
  induction o1 as [|[k0 v0] o1 IH]; simpl; [done|].
  by destruct (String.eqb k0 k).
Qed.

Lemma obj_get_None_keys (o : obj) (k : string) :
  obj_get o k = None ↔ k ∉ obj_keys o.
Proof.
  induction o as [|[k0 v0] o IH]; simpl.
  - split; [|done]. intros _ H. by apply elem_of_nil in H.
  - destruct (String.eqb k0 k) eqn:E.
    + apply String.eqb_eq in E as ->. split; [done|]. intros H.
      exfalso. apply H. by left.
    + apply String.eqb_neq in E. rewrite IH, not_elem_of_cons.
      split; [by intros ? | by intros [_ ?]].
Qed.

Lemma obj_get_rev (o : obj) (k : string) :
  NoDup (obj_keys o) → obj_get (rev o) k = obj_get o k.
Proof.
  induction o as [|[k0 v0] o IH]; [done|].
  intros [Hnotin Hnd]%NoDup_cons. specialize (IH Hnd).
  simpl rev. rewrite obj_get_app, IH. simpl.
  destruct (String.eqb k0 k) eqn:E.
  - apply String.eqb_eq in E as ->.
    by rewrite (proj2 (obj_get_None_keys o k) Hnotin).
  - by destruct (obj_get o k).
Qed.

(** In a spread the last entry of the second object wins. *)
Lemma obj_get_spread (a b : obj) (k : string) :
  obj_get (spread a b) k =
  match obj_get (rev b) k with Some v => Some v | None => obj_get a k end.
Proof.
  unfold spread. revert a. induction b as [|[k1 v1] b IH]; intros a; [done|].
  simpl fold_left. rewrite IH. simpl rev. rewrite obj_get_app.
  destruct (obj_get (rev b) k); [done|]. simpl.
  rewrite obj_get_set. by destruct (String.eqb k1 k).
Qed.

Lemma UIStrings_NoDup : NoDup (obj_keys UIStrings).
Proof.
  unfold UIStrings, obj_keys. simpl.
  repeat (apply NoDup_cons_2; [rewrite ?not_elem_of_cons; repeat split;
                                 try discriminate; apply not_elem_of_nil|]).
  apply NoDup_nil_2.
Qed.

(** The merged table of a file: the file's text for a name it declares,
    the shared text for any other name. *)
Lemma mergedStrings_get (fileStrings : obj) (k : string) :
  NoDup (obj_keys fileStrings) →
  obj_get (spread (spread [] UIStrings) fileStrings) k =
  match obj_get fileStrings k with
  | Some v => Some v
  | None => obj_get UIStrings k
  end.
Proof.
  intros Hnd. rewrite !obj_get_spread.
  rewrite (obj_get_rev _ _ Hnd), (obj_get_rev _ _ UIStrings_NoDup).
  destruct (obj_get fileStrings k); [done|].
  by destruct (obj_get UIStrings k).
Qed.

(** X2. For a file whose declared names are distinct and non-empty: the id
    issued for a template is [path | name] with a non-empty name whose text
    is the template, the path being the file's when the file declares the
    name and that of [i18n.js] when only the shared strings do; the path has
    no backslash; and the error "Could not locate" is thrown exactly when
    neither the file nor an unshadowed shared string has that text. *)
Theorem messageIdOf_declared filename fileStrings icuMessage :
  NoDup (obj_keys fileStrings) →
  obj_get fileStrings EmptyString = None →
  match messageIdOf filename fileStrings icuMessage with
  | inr id =>
      ∃ file keyname,
        id = replace_backslashes (path_relative_LH_ROOT file)
             +:+ " | " +:+ keyname ∧
        keyname ≠ EmptyString ∧
        Str.any (Ascii.eqb "092"%char)
          (replace_backslashes (path_relative_LH_ROOT file)) = false ∧
        ((obj_get fileStrings keyname = Some icuMessage ∧ file = filename) ∨
         (obj_get fileStrings keyname = None ∧
          obj_get UIStrings keyname = Some icuMessage ∧ file = __filename))
  | inl e =>
      e = Error ("Could not locate: " +:+ icuMessage) ∧
      ∀ k, obj_get fileStrings k ≠ Some icuMessage ∧
           (obj_get UIStrings k = Some icuMessage →
            is_Some (obj_get fileStrings k))
  end.
Proof.
  intros Hnd Hempty.
  destruct (messageIdOf filename fileStrings icuMessage) as [e|id] eqn:E.
  - apply messageIdOf_inl in E as [-> H]. split; [done|].
    intros k. specialize (H k). rewrite !mergedStrings_get in H by done.
    rewrite Hempty in H. change (obj_get UIStrings EmptyString) with (@None string) in H.
    destruct (obj_get fileStrings k) as [v|] eqn:Ek.
    + split; [|by eauto]. intros [= ->]. by specialize (H eq_refl).
    + split; [done|]. intros Hk. rewrite Hk in H. by specialize (H eq_refl).
  - apply messageIdOf_inr in E as (keyname & Hne & Hget & ->).
    rewrite mergedStrings_get in Hget by done. unfold obj_has.
    destruct (obj_get fileStrings keyname) as [v|] eqn:Ek.
    + injection Hget as ->. exists filename, keyname.
      split; [done|]. split; [done|]. split; [apply replace_backslashes_spec|].
      by left.
    + exists __filename, keyname.
      split; [done|]. split; [done|]. split; [apply replace_backslashes_spec|].
      by right.
Qed.

(** Every entry of a reachable registry sits under its own id, which some
    file issues for the entry's template. *)
Lemma reachable_entries map :
  reachable map →
  ∀ id L, map !! id = Some L →
    L ≠ [] ∧
    ∀ inst, inst ∈ L →
      Inst.icuMessageId inst = id ∧
      ∃ filename fileStrings,
        messageIdOf filename fileStrings (Inst.icuMessage inst) = inr id.
Proof.
  unfold reachable. induction 1 as [|f fs t v map' _ IH].
  { intros id L HL. by rewrite lookup_empty in HL. }
  destruct (messageIdOf f fs t) as [e|id'] eqn:E.
  { by rewrite (register_error _ _ _ _ _ _ E). }
  destruct (findIndex (fun inst => isDeepEqual (Inst.values inst) v)
              (default [] (map' !! id'))) as [i0|] eqn:F.
  - rewrite (register_found _ _ _ _ _ _ _ E F). simpl. intros id L HL.
    destruct (decide (id' = id)) as [->|Hne].
    + rewrite lookup_insert_eq in HL. injection HL as <-.
      destruct (map' !! id) as [L0|] eqn:HL0; simpl in *; [by apply IH|done].
    + rewrite lookup_insert_ne in HL by done. by apply IH.
  - rewrite (register_fresh _ _ _ _ _ _ E F). simpl. intros id L HL.
    destruct (decide (id' = id)) as [->|Hne].
    + rewrite lookup_insert_eq in HL. injection HL as <-.
      split; [by destruct (default [] (map' !! id))|].
      intros inst [Hin|Hin]%elem_of_app.
      * destruct (map' !! id) as [L0|] eqn:HL0; simpl in *.
        -- by apply (IH id L0).
        -- by apply elem_of_nil in Hin.
      * apply list_elem_of_singleton in Hin as ->. simpl. eauto.
    + rewrite lookup_insert_ne in HL by done. by apply IH.
Qed.

(** X3. In every registry reached from the empty map, no key holds an empty
    sequence, every key is an id [path | name] issued for a template, and
    every instance carries the key it is stored under and a template that
    some file registers under that key. *)
Theorem registry_entries map :
  reachable map →
  ∀ id L, map !! id = Some L →
    L ≠ [] ∧ Str.includes " | " id = true ∧
    ∀ inst, inst ∈ L →
      Inst.icuMessageId inst = id ∧
      ∃ filename fileStrings,
        messageIdOf filename fileStrings (Inst.icuMessage inst) = inr id.
Proof.
  intros Hreach id L HL.
  destruct (reachable_entries _ Hreach id L HL) as [Hne Hall].
  split; [done|]. split; [|done].
  destruct L as [|inst L]; [done|].
  destruct (Hall inst) as [_ (f & fs & Hid)]; [by left|].
  apply messageIdOf_inr in Hid as (keyname & _ & _ & ->).
  apply includes_true. by eexists _, _.
Qed.

(** The entry a call returns the index of. *)
Lemma register_entry filename fileStrings icuMessage values map id :
  messageIdOf filename fileStrings icuMessage = inr id →
  ∃ i inst,
    (getMessageInstanceIdFn filename fileStrings icuMessage values map).1
      = inr (encode id i) ∧
    default []
      ((getMessageInstanceIdFn filename fileStrings icuMessage values map).2 !! id)
      !! i = Some inst ∧
    (Inst.values inst = values ∨
     isDeepEqual (Inst.values inst) values = true) ∧
    (inst ∈ default [] (map !! id) ∨ inst = Inst.make id icuMessage values).
Proof.
  intros E.
  destruct (findIndex (fun inst => isDeepEqual (Inst.values inst) values)
              (default [] (map !! id))) as [i|] eqn:F.
  - rewrite (register_found _ _ _ _ _ _ _ E F). simpl.
    rewrite lookup_insert_eq. simpl.
    apply findIndex_Some in F as [(inst & Hi & Hp) _].
    exists i, inst. split; [done|]. split; [done|]. split; [by right|].
    left. apply list_elem_of_lookup. eauto.
  - rewrite (register_fresh _ _ _ _ _ _ E F). simpl.
    rewrite lookup_insert_eq. simpl.
    exists (length (default [] (map !! id))), (Inst.make id icuMessage values).
    split; [done|]. split; [by rewrite list_lookup_middle|].
    split; [by left | by right].
Qed.

Lemma isIcuMessage_encode (a b : string) (i : nat) :
  Str.all dot b = true → isIcuMessage (encode (a +:+ " | " +:+ b) i) = true.
Proof.
  intros Hb. rewrite isIcuMessage_full.
  apply test_MESSAGE_INSTANCE_ID_REGEX.
  destruct (index_to_string_digits i) as [Hd Hne].
  exists a, b, (index_to_string i). unfold encode.
  by rewrite !str_app_assoc.
Qed.

(** X4. A token issued for a template whose id holds no line terminator
    resolves, in the registry the call leaves and in every later one, to the
    instance at its index: an instance stored under that id whose values are
    the registered ones or deep-equal to them.  [isIcuMessage] accepts the
    token, and [_resolveIcuMessageInstanceId] and [getFormatted] are then the
    formatting of that instance's template and values, with the template as
    the fallback: neither the error for an invalid id nor the [TypeError] of
    a missing instance can occur. *)
Theorem registered_token_resolves filename fileStrings icuMessage values
    map map' id locale :
  reachable map →
  messageIdOf filename fileStrings icuMessage = inr id →
  Str.all dot id = true →
  calls (getMessageInstanceIdFn filename fileStrings icuMessage values map).2 map' →
  ∃ i inst,
    (getMessageInstanceIdFn filename fileStrings icuMessage values map).1
      = inr (encode id i) ∧
    isIcuMessage (encode id i) = true ∧
    default [] (map' !! id) !! i = Some inst ∧
    Inst.icuMessageId inst = id ∧
    (Inst.values inst = values ∨
     isDeepEqual (Inst.values inst) values = true) ∧
    _resolveIcuMessageInstanceId (encode id i) locale map' =
      (r ← _formatIcuMessage locale id (Some (Inst.icuMessage inst))
             (Inst.values inst);
       mret (inst, r.1)) ∧
    getFormatted (encode id i) locale map' =
      (r ← _formatIcuMessage locale id (Some (Inst.icuMessage inst))
             (Inst.values inst);
       mret r.1).
Proof.
  intros Hreach E Hdot Hcalls.
  destruct (register_entry _ _ _ values map _ E)
    as (i & inst & Htok & Hi & Hvals & Horigin).
  pose proof E as E'.
  apply messageIdOf_inr in E' as (keyname & _ & _ & Hid).
  set (a := replace_backslashes _) in Hid.
  assert (Str.all dot keyname = true) as Hk.
  { rewrite Hid, !str_all_app in Hdot.
    apply andb_true_iff in Hdot as [_ Hdot].
    by apply andb_true_iff in Hdot as [_ Hdot]. }
  assert (isIcuMessage (encode id i) = true) as Hacc
    by (rewrite Hid; by apply isIcuMessage_encode).
  assert (decode (encode id i) = Some (id, index_to_string i)) as Hdec
    by (rewrite Hid in *; by apply decode_token).
  destruct (calls_appends _ _ id Hcalls) as [extra Hext].
  assert (default [] (map' !! id) !! i = Some inst) as Hi'.
  { rewrite Hext. rewrite lookup_app_l; [done|]. by eapply lookup_lt_Some. }
  assert (Inst.icuMessageId inst = id) as Hkey.
  { destruct Horigin as [Hin| ->]; [|done].
    destruct (map !! id) as [L|] eqn:HL; simpl in Hin.
    - by apply (reachable_entries _ Hreach id L HL).
    - by apply elem_of_nil in Hin. }
  assert (_resolveIcuMessageInstanceId (encode id i) locale map' =
          (r ← _formatIcuMessage locale id (Some (Inst.icuMessage inst))
                 (Inst.values inst);
           mret (inst, r.1))) as Hres.
  { unfold _resolveIcuMessageInstanceId.
    by rewrite Hdec, Number_index_to_string, Hi'. }
  exists i, inst. repeat (split; [done|]).
  unfold getFormatted. rewrite Hacc, Hres.
  by destruct (_formatIcuMessage _ _ _ _).
Qed.

(** X5. With a symmetric and transitive deep equality, two registrations
    that return the same token were made with deep-equal values: a token
    stands for one set of values up to deep equality. *)
Theorem equal_tokens_equal_values
    filename fileStrings icuMessage values map
    filename' fileStrings' icuMessage' values' map' token :
  (∀ a b, isDeepEqual a b = isDeepEqual b a) →
  (∀ a b c, isDeepEqual a b = true → isDeepEqual b c = true →
            isDeepEqual a c = true) →
  (getMessageInstanceIdFn filename fileStrings icuMessage values map).1
    = inr token →
  calls (getMessageInstanceIdFn filename fileStrings icuMessage values map).2 map' →
  (getMessageInstanceIdFn filename' fileStrings' icuMessage' values' map').1
    = inr token →
  isDeepEqual values values' = true.
Proof.
  intros Hsym Htrans Htok Hcalls Htok'.
  destruct (messageIdOf filename fileStrings icuMessage) as [e|id] eqn:E.
  { by rewrite (register_error _ _ _ _ _ _ E) in Htok. }
  destruct (register_entry _ _ _ values map _ E)
    as (i & inst & Hret & Hi & Hvals & _).
  rewrite Hret in Htok. injection Htok as <-.
  destruct (calls_appends _ _ id Hcalls) as [extra Hext].
  destruct (messageIdOf filename' fileStrings' icuMessage') as [e|id'] eqn:E'.
  { by rewrite (register_error _ _ _ _ _ _ E') in Htok'. }
  assert (isDeepEqual (Inst.values inst) values' = true) as Hinst.
  { destruct (findIndex (fun inst => isDeepEqual (Inst.values inst) values')
                (default [] (map' !! id'))) as [j|] eqn:F.
    - rewrite (register_found _ _ _ _ _ _ _ E' F) in Htok'. simpl in Htok'.
      injection Htok' as Htok'. apply encode_inj in Htok' as [-> ->].
      apply findIndex_Some in F as [(x & Hx & Hp) _].
      rewrite Hext in Hx. rewrite lookup_app_l in Hx by (by eapply lookup_lt_Some).
      by simplify_eq.
    - rewrite (register_fresh _ _ _ _ _ _ E' F) in Htok'. simpl in Htok'.
      injection Htok' as Htok'. apply encode_inj in Htok' as [-> Hlen].
      apply lookup_lt_Some in Hi. rewrite Hext, length_app in Hlen. lia. }
  destruct Hvals as [<-|Hvals]; [done|].
  apply (Htrans _ (Inst.values inst)); [|done]. by rewrite Hsym.
Qed.

(** ** Locale lookup, continued *)

Lemma lookupClosestLocale_Some {V} (available : gmap string V) locale c :
  lookupClosestLocale locale available = Some c → is_Some (available !! c).
Proof.
  unfold lookupClosestLocale. destruct locale as [tag|]; [|done].
  destruct (available !! tag) as [v|] eqn:E.
  - intros [= <-]. by rewrite E.
  - destruct tag as [|a tag]; [done|].
    by intros (k & _ & -> & Hsome & _)%pop_loop_Some.
Qed.

(** X6. Whatever [lookupLocale] returns is a locale with a catalog or the
    default ["en"], and never the empty string; when the catalogs include
    ["en"], the result always has a catalog. *)
Theorem lookupLocale_supported (locale : option string) (r : string) :
  lookupLocale locale = inr r →
  r ≠ EmptyString ∧
  (r = "en" ∨ is_Some (LOCALES !! r)) ∧
  (is_Some (LOCALES !! "en") → is_Some (LOCALES !! r)).
Proof.
  destruct (Intl_getCanonicalLocales locale) as [e|tags] eqn:Hc.
  { unfold lookupLocale. by rewrite Hc. }
  rewrite (lookupLocale_unfold _ _ Hc).
  destruct (lookupClosestLocale (head tags) LOCALES) as [[|a s]|] eqn:E;
    intros [= <-]; try (split; [done|]; split; [by left | done]).
  apply lookupClosestLocale_Some in E.
  split; [done|]. split; [by right | done].
Qed.

(** ** Value preprocessing, continued *)

(** X7. When every top-level placeholder is provided, each pass applies its
    conversion to a placeholder once for every top-level element it selects
    that carries the placeholder, the passes running in the order
    milliseconds, seconds, bytes on the JSON-cloned values; an entry is
    absent from the result exactly when it is absent from the clone and no
    pass selects an element that carries it. *)
Theorem preprocess_compounds (t : string) (values : option (gmap string val))
    (els : list element) :
  MessageParser_parse t = inr els →
  (∀ id fmt, argumentElement id fmt ∈ els → id_truthy id = true →
             is_Some (default ∅ values !! id_key id)) →
  ∃ out,
    _preprocessMessageValues t values = inr out ∧
    ∀ x,
      let pass (f : val → val) (n : nat) (entry : option val) :=
        match n with
        | O => entry
        | S _ => Some (Nat.iter n f (default undefined entry))
        end in
      out !! x =
        pass bytes_to_kb (uses converts_bytes x els)
          (pass ms_to_seconds (uses converts_seconds x els)
             (pass to_nearest_10 (uses converts_ms x els)
                (JSON_clone (default ∅ values) !! x))) ∧
      (out !! x = None ↔
       JSON_clone (default ∅ values) !! x = None ∧
       uses converts_ms x els = 0 ∧ uses converts_seconds x els = 0 ∧
       uses converts_bytes x els = 0).
Proof using val undefined js_div js_mul Math_round js_number JSON_clone
  MessageParser_parse.
  intros Hp Hall. eexists. split.
  { apply preprocess_ok; [done|]. apply first_missing_None.
    intros id fmt Hel Hid. apply js_in_own. by apply (Hall id fmt). }
  intros x pass.
  assert (∀ f sel cv,
            convert f (List.filter sel els) cv !! x
            = pass f (uses sel x els) (cv !! x)) as Hpass.
  { intros f sel cv. rewrite convert_uses. by destruct (uses sel x els). }
  rewrite !Hpass. split; [done|].
  unfold pass.
  clear Hp Hall Hpass pass.
  destruct (uses converts_bytes x els), (uses converts_seconds x els),
    (uses converts_ms x els); split; try done; by intros (? & ? & ? & ?).
Qed.

(** ** Path formatting, continued *)

Lemma formatPath_result (pathInLHR : list string) :
  _formatPathAsString pathInLHR =
  match find (fun s => negb (bare s) && Str.any unbracketable s) pathInLHR with
  | Some s => throw (cannot_handle s)
  | None => mret (spec_formatPath pathInLHR)
  end.
Proof.
  destruct pathInLHR as [|s path]; [done|].
  unfold _formatPathAsString. cbn [formatPath_loop find spec_formatPath].
  rewrite test_BARE_SEGMENT_REGEX, test_UNBRACKETABLE_REGEX.
  pose proof (spec_piece_nonempty true s) as Hne. unfold spec_piece in *.
  destruct (bare s); simpl.
  - by apply formatPath_loop_spec.
  - destruct (Str.any unbracketable s); [done|].
    by apply formatPath_loop_spec.
Qed.

(** Two readings of one string as a run of [P] characters followed by
    something that does not go on with a [P] character are the same. *)
Lemma span_unique (P : ascii → bool) (a b x y : string) :
  a +:+ x = b +:+ y →
  Str.all P a = true → Str.all P b = true →
  (x = EmptyString ∨ ∃ c x', x = String c x' ∧ P c = false) →
  (y = EmptyString ∨ ∃ c y', y = String c y' ∧ P c = false) →
  a = b ∧ x = y.
Proof.
  revert b. induction a as [|c a IH]; intros b H Ha Hb Hx Hy.
  - rewrite str_app_nil_l in H. destruct b as [|d b]; [by rewrite H|].
    exfalso. rewrite str_app_cons in H. simpl in Hb.
    apply andb_true_iff in Hb as [Hd _].
    destruct Hx as [->|(c & x' & -> & Hc)]; [done|].
    injection H as -> _. congruence.
  - destruct b as [|d b].
    + exfalso. rewrite str_app_cons, str_app_nil_l in H. simpl in Ha.
      apply andb_true_iff in Ha as [Hc _].
      destruct Hy as [->|(d & y' & -> & Hd)]; [done|].
      injection H as -> _. congruence.
    + rewrite !str_app_cons in H. injection H as -> H. simpl in Ha, Hb.
      apply andb_true_iff in Ha as [_ Ha]. apply andb_true_iff in Hb as [_ Hb].
      destruct (IH b H Ha Hb Hx Hy) as [-> ->]. done.
Qed.

Lemma bare_letters (s : string) :
  bare s = true → Str.all letter s = true ∧ s ≠ EmptyString.
Proof.
  unfold bare. intros [Hne Hall]%andb_true_iff. split; [done|].
  by destruct s.
Qed.

Lemma bracketable_no_bracket (s : string) :
  Str.any unbracketable s = false →
  Str.all (fun a => negb (Ascii.eqb "]"%char a)) s = true.
Proof.
  induction s as [|a s IH]; [done|]. cbn [Str.all Str.any].
  intros [Ha Hs]%orb_false_iff. rewrite IH by done.
  unfold unbracketable in Ha. rewrite !orb_false_iff in Ha.
  destruct Ha as [[[-> _] _] _]. done.
Qed.

(** What follows a segment in a formatted path does not start with a
    letter. *)
Lemma path_tail_start (rest : list string) :
  let tail := fold_right String.append EmptyString (map (spec_piece false) rest) in
  tail = EmptyString ∨ ∃ c tail', tail = String c tail' ∧ letter c = false.
Proof.
  destruct rest as [|s rest]; simpl; [by left|]. right.
  unfold spec_piece. destruct (bare s); by eexists _, _.
Qed.

Lemma bracket_stop (tail : string) :
  "]" +:+ tail = EmptyString ∨
  ∃ c x, "]" +:+ tail = String c x ∧ negb (Ascii.eqb "]"%char c) = false.
Proof. right. by exists "]"%char, tail. Qed.

(** A piece and what follows it determine the segment and what follows. *)
Lemma piece_unique (first : bool) (s t : string) (ps qs : list string) :
  (bare s = true ∨ Str.any unbracketable s = false) →
  (bare t = true ∨ Str.any unbracketable t = false) →
  spec_piece first s +:+
    fold_right String.append EmptyString (map (spec_piece false) ps) =
  spec_piece first t +:+
    fold_right String.append EmptyString (map (spec_piece false) qs) →
  s = t ∧
  fold_right String.append EmptyString (map (spec_piece false) ps) =
  fold_right String.append EmptyString (map (spec_piece false) qs).
Proof.
  intros Hs Ht H.
  pose proof (path_tail_start ps) as Tp. pose proof (path_tail_start qs) as Tq.
  simpl in Tp, Tq.
  set (tp := fold_right _ _ (map _ ps)) in *.
  set (tq := fold_right _ _ (map _ qs)) in *.
  unfold spec_piece in H.
  destruct (bare s) eqn:Bs, (bare t) eqn:Bt.
  - apply bare_letters in Bs as [Ls _]. apply bare_letters in Bt as [Lt _].
    apply (span_unique letter s t tp tq); try done.
    destruct first; [done|].
    change ("." +:+ s) with (String "."%char s) in H.
    change ("." +:+ t) with (String "."%char t) in H.
    rewrite !str_app_cons in H. by injection H.
  - exfalso. apply bare_letters in Bs as [Ls Hne].
    change ("[" +:+ t +:+ "]") with (String "["%char (t +:+ "]")) in H.
    destruct first.
    + destruct s as [|c s]; [done|]. rewrite !str_app_cons in H.
      injection H as -> _. by simpl in Ls.
    + change ("." +:+ s) with (String "."%char s) in H.
      by rewrite !str_app_cons in H.
  - exfalso. apply bare_letters in Bt as [Lt Hne].
    change ("[" +:+ s +:+ "]") with (String "["%char (s +:+ "]")) in H.
    destruct first.
    + destruct t as [|c t]; [done|]. rewrite !str_app_cons in H.
      injection H as <- _. by simpl in Lt.
    + change ("." +:+ t) with (String "."%char t) in H.
      by rewrite !str_app_cons in H.
  - change ("[" +:+ s +:+ "]") with (String "["%char (s +:+ "]")) in H.
    change ("[" +:+ t +:+ "]") with (String "["%char (t +:+ "]")) in H.
    rewrite !str_app_cons, !str_app_assoc in H. injection H as H.
    destruct Hs as [?|Hs]; [congruence|]. destruct Ht as [?|Ht]; [congruence|].
    apply bracketable_no_bracket in Hs, Ht.
    destruct (span_unique _ s t ("]" +:+ tp) ("]" +:+ tq) H Hs Ht
                (bracket_stop tp) (bracket_stop tq)) as [-> H'].
    split; [done|]. rewrite !str_app_cons in H'. by injection H'.
Qed.

Lemma path_tail_injective (p q : list string) :
  (∀ s, s ∈ p → bare s = true ∨ Str.any unbracketable s = false) →
  (∀ s, s ∈ q → bare s = true ∨ Str.any unbracketable s = false) →
  fold_right String.append EmptyString (map (spec_piece false) p) =
  fold_right String.append EmptyString (map (spec_piece false) q) →
  p = q.
Proof.
  revert q. induction p as [|s p IH]; intros q Hp Hq H.
  - destruct q as [|t q]; [done|]. exfalso. simpl in H.
    pose proof (spec_piece_nonempty false t) as Hne.
    destruct (spec_piece false t); [done|]. by rewrite str_app_cons in H.
  - destruct q as [|t q].
    { exfalso. simpl in H.
      pose proof (spec_piece_nonempty false s) as Hne.
      destruct (spec_piece false s); [done|]. by rewrite str_app_cons in H. }
    simpl in H.
    apply piece_unique in H as [-> H]; [| apply Hp; by left | apply Hq; by left].
    f_equal. apply IH; [| |done].
    + intros u Hu. apply Hp. by right.
    + intros u Hu. apply Hq. by right.
Qed.

Lemma formatPath_injective (p q : list string) (s : string) :
  _formatPathAsString p = inr s → _formatPathAsString q = inr s → p = q.
Proof.
  rewrite !formatPath_result.
  destruct (find _ p) as [?|] eqn:Fp; [done|].
  destruct (find _ q) as [?|] eqn:Fq; [done|].
  intros [= <-] [= H]. symmetry in H.
  assert (∀ l, find (fun s => negb (bare s) && Str.any unbracketable s) l = None →
               ∀ u, u ∈ l → bare u = true ∨ Str.any unbracketable u = false)
    as Hvalid.
  { intros l Hl u Hu. pose proof (find_None_all _ _ Hl u Hu) as Hf.
    cbv beta in Hf. destruct (bare u); [by left | by right]. }
  pose proof (Hvalid _ Fp) as Hp. pose proof (Hvalid _ Fq) as Hq.
  destruct p as [|a p], q as [|b q]; [done|..]; unfold spec_formatPath in H.
  - exfalso. pose proof (spec_piece_nonempty true b) as Hne.
    destruct (spec_piece true b); [done|]. by rewrite str_app_cons in H.
  - exfalso. pose proof (spec_piece_nonempty true a) as Hne.
    destruct (spec_piece true a); [done|]. by rewrite str_app_cons in H.
  - apply piece_unique in H as [-> H]; [| apply Hp; by left | apply Hq; by left].
    f_equal. apply path_tail_injective; [| |done].
    + intros u Hu. apply Hp. by right.
    + intros u Hu. apply Hq. by right.
Qed.

(** X8. Two paths that [_formatPathAsString] gives the same string are the
    same path: the report's path strings identify the places they name. *)
Theorem _formatPathAsString_injective (p q : list string) (s : string) :
  _formatPathAsString p = inr s → _formatPathAsString q = inr s → p = q.
Proof. apply formatPath_injective. Qed.

(** ** Formatting by id *)

Lemma test_ICU_MESSAGE_ID_REGEX (s : string) :
  test ICU_MESSAGE_ID_REGEX s = true ↔
  ∃ a b, s = a +:+ " | " +:+ b ∧ Str.all dot b = true.
Proof.
  rewrite test_true. unfold ICU_MESSAGE_ID_REGEX. split.
  - intros (pre & s0 & y & -> & H).
    apply run_seq_inv in H as (y1 & H & He).
    apply run_group_inv in H as (i1 & s1 & c1 & H & ->).
    apply run_seq_inv in H as (y2 & Ha & H).
    apply run_star_char in Ha as (a & s2 & -> & Ha & ->).
    apply run_seq_inv in H as (y3 & Hl & Hb).
    apply (run_lit " | ") in Hl as (s3 & -> & ->).
    apply run_star_char in Hb as (b & s4 & -> & Hb & [= -> -> ->]).
    apply run_eol in He as [-> _].
    exists (pre +:+ a), b. by rewrite str_app_nil_r, !str_app_assoc.
  - intros (a & b & -> & Hb).
    exists a, (" | " +:+ b). eexists. split; [done|].
    eapply run_seq; [|by apply run_eol].
    rewrite <- (str_app_nil_r (" | " +:+ b)) at 1.
    eapply (run_group 1 _ _ _ _ (Str.len a + 3 + Str.len b) EmptyString []).
    eapply run_seq.
    { apply run_star_char. by exists EmptyString, ((" | " +:+ b) +:+ EmptyString). }
    eapply run_seq.
    { apply (run_lit " | "). eexists. split; [|done]. by rewrite str_app_assoc. }
    apply run_star_char. exists b, EmptyString. split; [done|]. split; [done|].
    f_equal. f_equal. simpl. lia.
Qed.

(** X9. [getFormattedFromIdAndValues] rejects, as not an ICU message id,
    exactly the ids without a " | " that no line terminator follows.  For any
    other id: a locale that is a key of [LOCALES] gives "ICU message not
    found" when its catalog has no non-empty text for the id (there is no
    fallback to a base-language string on this path), and otherwise what the
    formatter makes of the catalog's text and the preprocessed values; a
    locale that is no key of [LOCALES] gives "Unsupported locale", unless it
    is a name inherited from [Object.prototype], which passes the test for a
    catalog and ends in "ICU message not found". *)
Theorem getFormattedFromIdAndValues_cases (locale icuMessageId : string)
    (values : option (gmap string val)) :
  ((∀ a b, icuMessageId = a +:+ " | " +:+ b → Str.all dot b = false) →
   getFormattedFromIdAndValues locale icuMessageId values
   = throw (Error "This is not an ICU message ID")) ∧
  (∀ a b, icuMessageId = a +:+ " | " +:+ b → Str.all dot b = true →
     getFormattedFromIdAndValues locale icuMessageId values =
     match LOCALES !! locale with
     | None =>
         if inherited locale then throw (Error _ICUMsgNotFoundMsg)
         else throw (Error ("Unsupported locale '" +:+ locale +:+ "'"))
     | Some localeMessages =>
         match localeMessages !! icuMessageId with
         | Some (String c m') =>
             valuesForMessageFormat ←
               _preprocessMessageValues (String c m') values;
             formatter ←
               MessageFormat (String c m')
                 (if String.eqb locale "en-XA" || String.eqb locale "en-XL"
                  then "de-DE" else locale);
             formatter valuesForMessageFormat
         | _ => throw (Error _ICUMsgNotFoundMsg)
         end
     end).
Proof.
  unfold getFormattedFromIdAndValues. split.
  - intros Hno.
    destruct (test ICU_MESSAGE_ID_REGEX icuMessageId) eqn:E; [|done].
    apply test_ICU_MESSAGE_ID_REGEX in E as (a & b & -> & Hb).
    by rewrite (Hno a b) in Hb.
  - intros a b Hid Hb.
    rewrite (proj2 (test_ICU_MESSAGE_ID_REGEX _)) by eauto.
    unfold _formatIcuMessage, resolveLocaleMessage.
    destruct (LOCALES !! locale) as [cat|]; simpl.
    + destruct (cat !! icuMessageId) as [[|c m']|]; simpl; try done.
      destruct (_preprocessMessageValues _ _) as [e|v]; simpl; [done|].
      destruct (MessageFormat _ _) as [e|f]; simpl; [done|].
      by destruct (f v).
    + by destruct (inherited locale).
Qed.

Lemma resolveLocaleMessage_catalog (locale icuMessageId : string)
    (uiStringMessage : option string) (localeMessages : gmap string string)
    (c : ascii) (m : string) :
  LOCALES !! locale = Some localeMessages →
  localeMessages !! icuMessageId = Some (String c m) →
  resolveLocaleMessage locale icuMessageId uiStringMessage
  = inr (String c m).
Proof. intros Hl Hm. unfold resolveLocaleMessage. by rewrite Hl, Hm. Qed.

Lemma resolveLocaleMessage_fallback (locale icuMessageId : string)
    (localeMessages : gmap string string) (c : ascii) (m : string) :
  LOCALES !! locale = Some localeMessages →
  truthy (localeMessages !! icuMessageId) = false →
  is_Some (LOCALES !! "en") →
  resolveLocaleMessage locale icuMessageId (Some (String c m))
  = inr (String c m) ∧
  resolveLocaleMessage locale icuMessageId None
  = throw (Error _ICUMsgNotFoundMsg).
Proof.
  intros Hl Hm [en Hen]. unfold resolveLocaleMessage. rewrite Hl. simpl.
  rewrite Hm, Hen. simpl. split; [done|].
  by destruct (localeMessages !! icuMessageId) as [[|? ?]|].
Qed.

(** X10. Formatting a token and formatting by id.  For an instance stored
    at index [i] under an id that holds a " | " and no line terminator, and a
    locale with a catalog: when the catalog has a non-empty text for the id,
    [getFormatted] on the token [id # i] and [getFormattedFromIdAndValues]
    on the id and the instance's values give the same result, the same
    error included.  When the catalog has no such text they differ:
    formatting by id throws "ICU message not found", while the token is
    formatted from the template stored with the instance, if that is
    non-empty and an ["en"] catalog exists. *)
Theorem token_and_id_formatting (a b : string) (i : nat) (inst : instance)
    (map : registry) (locale : string) (localeMessages : gmap string string) :
  Str.all dot (a +:+ " | " +:+ b) = true →
  default [] (map !! (a +:+ " | " +:+ b)) !! i = Some inst →
  LOCALES !! locale = Some localeMessages →
  (truthy (localeMessages !! (a +:+ " | " +:+ b)) = true →
   getFormatted (encode (a +:+ " | " +:+ b) i) locale map
   = getFormattedFromIdAndValues locale (a +:+ " | " +:+ b)
       (Inst.values inst)) ∧
  (truthy (localeMessages !! (a +:+ " | " +:+ b)) = false →
   getFormattedFromIdAndValues locale (a +:+ " | " +:+ b) (Inst.values inst)
   = throw (Error _ICUMsgNotFoundMsg) ∧
   (truthy (Some (Inst.icuMessage inst)) = true →
    is_Some (LOCALES !! "en") →
    getFormatted (encode (a +:+ " | " +:+ b) i) locale map =
    (valuesForMessageFormat ←
       _preprocessMessageValues (Inst.icuMessage inst) (Inst.values inst);
     formatter ←
       MessageFormat (Inst.icuMessage inst)
         (if String.eqb locale "en-XA" || String.eqb locale "en-XL"
          then "de-DE" else locale);
     formatter valuesForMessageFormat))).
Proof.
  intros Hdot Hinst Hl.
  assert (Str.all dot b = true) as Hb.
  { rewrite !str_all_app in Hdot.
    by apply andb_true_iff in Hdot as [_ [_ ?]%andb_true_iff]. }
  assert (getFormatted (encode (a +:+ " | " +:+ b) i) locale map =
          (r ← _formatIcuMessage locale (a +:+ " | " +:+ b)
                 (Some (Inst.icuMessage inst)) (Inst.values inst);
           mret r.1)) as Htok.
  { unfold getFormatted, _resolveIcuMessageInstanceId.
    rewrite (isIcuMessage_encode _ _ _ Hb), (decode_token _ _ _ Hdot).
    rewrite Number_index_to_string, Hinst. simpl.
    by destruct (_formatIcuMessage _ _ _ _) as [e|[x y]]. }
  assert (getFormattedFromIdAndValues locale (a +:+ " | " +:+ b)
            (Inst.values inst) =
          (r ← _formatIcuMessage locale (a +:+ " | " +:+ b) None
                 (Inst.values inst);
           mret r.1)) as Hid.
  { unfold getFormattedFromIdAndValues.
    by rewrite (proj2 (test_ICU_MESSAGE_ID_REGEX _)) by eauto. }
  rewrite Htok, Hid. unfold _formatIcuMessage. split.
  - intros Ht.
    destruct (localeMessages !! (a +:+ " | " +:+ b)) as [[|c m]|] eqn:Hm;
      try done.
    by rewrite !(resolveLocaleMessage_catalog _ _ _ _ _ _ Hl Hm).
  - intros Ht. split.
    + unfold resolveLocaleMessage. rewrite Hl. simpl. rewrite Ht. simpl.
      by destruct (localeMessages !! (a +:+ " | " +:+ b)) as [[|? ?]|].
    + intros Hui Hen.
      destruct (Inst.icuMessage inst) as [|c m] eqn:Em; [done|].
      rewrite (proj1 (resolveLocaleMessage_fallback _ _ _ c m Hl Ht Hen)).
      simpl.
      destruct (_preprocessMessageValues _ _) as [e|v]; simpl; [done|].
      destruct (MessageFormat _ _) as [e|f]; simpl; [done|].
      by destruct (f v).
Qed.

(** ** Baking placeholders *)

Lemma test_PLACEHOLDER_REGEX (s : string) :
  test Bake.PLACEHOLDER_REGEX s = true ↔
  ∃ pre w post, s = pre +:+ "$" +:+ w +:+ "$" +:+ post ∧
                w ≠ EmptyString ∧ Str.all word w = true.
Proof.
  rewrite test_true. unfold Bake.PLACEHOLDER_REGEX. split.
  - intros (pre & s0 & y & -> & H).
    apply run_seq_inv in H as (y1 & H1 & H).
    apply run_char_inv in H1 as (c1 & s1 & -> & Hc1 & ->).
    apply run_seq_inv in H as (y2 & Hw & H2).
    apply run_plus_char in Hw as (w & s2 & -> & Hw & Hne & ->).
    apply run_char_inv in H2 as (c2 & s3 & -> & Hc2 & _).
    apply Ascii.eqb_eq in Hc1 as <-. apply Ascii.eqb_eq in Hc2 as <-.
    by exists pre, w, s3.
  - intros (pre & w & post & -> & Hne & Hw).
    exists pre, (String "$"%char (w +:+ String "$"%char post)).
    eexists. split; [done|].
    eapply run_seq; [by apply run_char|].
    eapply run_seq.
    { apply run_plus_char. by exists w, (String "$"%char post). }
    by apply run_char.
Qed.

Lemma substitution_plain (matched before after r : string) :
  Str.any (Ascii.eqb "$"%char) r = false →
  JsStr.substitution matched before after r = r.
Proof.
  induction r as [|c r IH]; [done|]. cbn [Str.any].
  intros [Hc Hr]%orb_false_iff. apply Ascii.eqb_neq in Hc.
  assert (JsStr.substitution matched before after (String c r)
          = String c (JsStr.substitution matched before after r)) as ->.
  { simpl. destruct c as [[] [] [] [] [] [] [] []]; try done. }
  by rewrite IH.
Qed.

Lemma starts_with_app (w s : string) : Str.starts_with w (w +:+ s) = true.
Proof. apply starts_with_true. by exists s. Qed.

Lemma drop_app (w s : string) : JsStr.drop (Str.len w) (w +:+ s) = s.
Proof.
  induction w as [|c w IH]; [by destruct s|]. by rewrite str_app_cons.
Qed.

(** The first occurrence of a text that starts with a character is not
    before the end of a prefix without that character. *)
Lemma cut_first (c : ascii) (w before after : string) :
  Str.any (Ascii.eqb c) before = false →
  JsStr.cut (String c w) (before +:+ String c w +:+ after)
  = Some (before, after).
Proof.
  intros Hb. induction before as [|b before IH].
  - rewrite str_app_nil_l.
    pose proof (starts_with_app (String c w) after) as Hs.
    pose proof (drop_app (String c w) after) as Hd.
    destruct (String c w +:+ after) eqn:E; [done|].
    cbn [JsStr.cut]. by rewrite Hs, Hd.
  - cbn [Str.any] in Hb. apply orb_false_iff in Hb as [Hcb Hb].
    rewrite str_app_cons. cbn [JsStr.cut Str.starts_with].
    rewrite Hcb. cbn [andb]. by rewrite (IH Hb).
Qed.

Lemma bakeMessage_clean (defn : Bake.ICUMessageDefn) (m : string) :
  Bake.bakeMessage defn = inr m → test Bake.PLACEHOLDER_REGEX m = false.
Proof.
  unfold Bake.bakeMessage.
  destruct (match Bake.placeholders defn with
            | Some entries => _ | None => _ end) as [e|m']; [done|].
  simpl. destruct (test Bake.PLACEHOLDER_REGEX m') eqn:E; [done|].
  by intros [= <-].
Qed.

Lemma obj_set_fresh (o : obj) (k v : string) :
  k ∉ obj_keys o → obj_set o k v = o ++ [(k, v)].
Proof.
  induction o as [|[k0 v0] o IH]; simpl; [done|].
  intros [Hne Hnotin]%not_elem_of_cons.
  destruct (String.eqb k0 k) eqn:E.
  - apply String.eqb_eq in E. congruence.
  - by rewrite IH.
Qed.

Lemma bake_loop_result (messages : list (string * Bake.ICUMessageDefn))
    (acc : obj) :
  NoDup (obj_keys acc ++ map fst messages) →
  match find (fun kd => match Bake.bakeMessage kd.2 with
                        | inl _ => true | inr _ => false end) messages with
  | Some (key, defn) =>
      ∃ e, Bake.bakeMessage defn = inl e ∧ Bake.bake_loop messages acc = inl e
  | None =>
      ∃ baked,
        Bake.bake_loop messages acc = inr (acc ++ baked) ∧
        Forall2 (fun kd km => km.1 = kd.1 ∧ Bake.bakeMessage kd.2 = inr km.2)
          messages baked
  end.
Proof.
  revert acc. induction messages as [|[key defn] messages IH]; intros acc Hnd.
  - exists []. by rewrite app_nil_r.
  - cbn [find Bake.bake_loop snd].
    destruct (Bake.bakeMessage defn) as [e|m] eqn:E; simpl; [by exists e|].
    assert (key ∉ obj_keys acc) as Hfresh.
    { apply NoDup_app in Hnd as (_ & Hdisj & _). intros Hin.
      apply (Hdisj key Hin). by left. }
    rewrite (obj_set_fresh _ _ _ Hfresh).
    specialize (IH (acc ++ [(key, m)])).
    destruct (find _ messages) as [[k d]|].
    + apply IH. unfold obj_keys. rewrite map_app. simpl.
      rewrite <- app_assoc. done.
    + destruct IH as (baked & -> & HF).
      { unfold obj_keys. rewrite map_app. simpl. by rewrite <- app_assoc. }
      exists ((key, m) :: baked). rewrite <- app_assoc. split; [done|].
      by constructor.
Qed.

(** X11. For messages with distinct keys, [bakePlaceholders] throws the
    error of the first message that fails to bake, and otherwise returns
    the keys in their order, each with the baked text of its message; a
    baked text holds no [$name$] any more. *)
Theorem bakePlaceholders_result
    (messages : list (string * Bake.ICUMessageDefn)) :
  NoDup (map fst messages) →
  match find (fun kd => match Bake.bakeMessage kd.2 with
                        | inl _ => true | inr _ => false end) messages with
  | Some (key, defn) =>
      ∃ e, Bake.bakeMessage defn = inl e ∧
           Bake.bakePlaceholders messages = inl e
  | None =>
      ∃ baked,
        Bake.bakePlaceholders messages = inr baked ∧
        Forall2 (fun kd km => km.1 = kd.1 ∧ Bake.bakeMessage kd.2 = inr km.2)
          messages baked ∧
        ∀ key m, (key, m) ∈ baked →
          ¬ ∃ pre w post, m = pre +:+ "$" +:+ w +:+ "$" +:+ post ∧
                          w ≠ EmptyString ∧ Str.all word w = true
  end.
Proof.
  intros Hnd. pose proof (bake_loop_result messages [] Hnd) as H.
  unfold Bake.bakePlaceholders.
  destruct (find _ messages) as [[key defn]|]; [done|].
  destruct H as (baked & Hb & HF). exists baked. split; [done|].
  split; [done|]. intros key m Hin Hex.
  apply test_PLACEHOLDER_REGEX in Hex.
  apply list_elem_of_lookup in Hin as [i Hi].
  destruct (Forall2_lookup_r _ _ _ _ _ HF Hi) as ([k d] & _ & _ & Hbake).
  apply bakeMessage_clean in Hbake. simpl in Hbake. congruence.
Qed.

(** X12. Baking one message.  Without placeholders the text is returned as
    it is, unless it holds a [$name$], which is an error.  A placeholder
    whose [$name$] the text lacks is an error that names it.  A text
    [before $name$ after] with one placeholder [name], where neither
    [before], [after] nor the content holds a dollar sign, bakes to
    [before content after]. *)
Theorem bakeMessage_cases (msg : string) (description meaning : option string) :
  (Bake.bakeMessage
     {| Bake.message := msg; Bake.description := description;
        Bake.meaning := meaning; Bake.placeholders := None |}
   = if test Bake.PLACEHOLDER_REGEX msg
     then throw (Bake.missing_placeholders msg) else inr msg) ∧
  (∀ name defn rest,
     Str.includes ("$" +:+ name +:+ "$") msg = false →
     Bake.bakeMessage
       {| Bake.message := msg; Bake.description := description;
          Bake.meaning := meaning;
          Bake.placeholders := Some ((name, defn) :: rest) |}
     = throw (Bake.placeholder_not_found name msg)) ∧
  (∀ before name after defn,
     msg = before +:+ "$" +:+ name +:+ "$" +:+ after →
     Str.any (Ascii.eqb "$"%char) before = false →
     Str.any (Ascii.eqb "$"%char) after = false →
     Str.any (Ascii.eqb "$"%char) (Bake.content defn) = false →
     Bake.bakeMessage
       {| Bake.message := msg; Bake.description := description;
          Bake.meaning := meaning;
          Bake.placeholders := Some [(name, defn)] |}
     = inr (before +:+ Bake.content defn +:+ after)).
Proof.
  split; [done|]. split.
  - intros name defn rest Hinc. unfold Bake.bakeMessage. simpl.
    by rewrite Hinc.
  - intros before name after defn -> Hb Ha Hc.
    unfold Bake.bakeMessage. cbn [Bake.placeholders Bake.message
      Bake.replace_placeholders].
    assert (Str.includes ("$" +:+ name +:+ "$")
              (before +:+ "$" +:+ name +:+ "$" +:+ after) = true) as ->.
    { apply includes_true. exists before, after. by rewrite !str_app_assoc. }
    unfold JsStr.replace.
    change ("$" +:+ name +:+ "$") with (String "$"%char (name +:+ "$")).
    replace (before +:+ "$" +:+ name +:+ "$" +:+ after)
      with (before +:+ String "$"%char (name +:+ "$") +:+ after)
      by (by rewrite !str_app_cons, !str_app_assoc).
    rewrite (cut_first _ _ _ _ Hb), (substitution_plain _ _ _ _ Hc).
    simpl.
    destruct (test Bake.PLACEHOLDER_REGEX _) eqn:E; [|done].
    exfalso. apply test_PLACEHOLDER_REGEX in E as (pre & w & post & E & _ & _).
    assert (Str.any (Ascii.eqb "$"%char)
              (before +:+ Bake.content defn +:+ after) = true) as Hany.
    { rewrite E, !str_any_app. simpl. by rewrite orb_true_r. }
    rewrite !str_any_app, Hb, Hc, Ha in Hany. done.
Qed.

(** ** The document walker *)

Lemma doc_ind' (P : doc → Prop) :
  (∀ x, P (DLeaf x)) →
  (∀ s, P (DStr s)) →
  (∀ items, Forall P items → P (DArr items)) →
  (∀ props, Forall (fun kv => P kv.2) props → P (DObj props)) →
  ∀ d, P d.
Proof.
  intros Hl Hs Ha Ho. fix IH 1. intros [x|s|items|props].
  - apply Hl.
  - apply Hs.
  - apply Ha. induction items as [|d items IHi]; constructor;
      [apply IH | apply IHi].
  - apply Ho. induction props as [|[k d] props IHp]; constructor;
      [apply IH | apply IHp].
Qed.

Lemma record_all_app locale map (os1 os2 : list occurrence) (r : report) :
  record_all locale map (os1 ++ os2) r =
  match record_all locale map os1 r with
  | (r1, None) => record_all locale map os2 r1
  | (r1, Some e) => (r1, Some e)
  end.
Proof.
  revert r. induction os1 as [|o os1 IH]; intros r; simpl; [done|].
  destruct (occurrence_outcome locale map o) as [e|[[x key] entry]]; [done|].
  apply IH.
Qed.

Lemma replaceToken_outcome locale map (s : string) (r : report)
    (p : list string) :
  replaceToken locale map s r p =
  match occurrence_outcome locale map (p, s) with
  | inl e => inl e
  | inr (x, key, entry) =>
      inr (x, <[key := default [] (r !! key) ++ [entry]]> r)
  end.
Proof.
  unfold replaceToken, occurrence_outcome. simpl.
  destruct (_resolveIcuMessageInstanceId s locale map) as [e|[inst x]];
    [done|]. simpl.
  by destruct (_formatPathAsString p) as [e|path].
Qed.

Lemma formatted_or_self_outcome locale map (p : list string) (s x key : string)
    (entry : path_entry) :
  isIcuMessage s = true →
  occurrence_outcome locale map (p, s) = inr (x, key, entry) →
  formatted_or_self locale map s = x.
Proof.
  unfold occurrence_outcome, formatted_or_self, getFormatted. simpl.
  intros ->.
  destruct (_resolveIcuMessageInstanceId s locale map) as [e|[inst y]];
    [done|]. simpl.
  destruct (_formatPathAsString p) as [e|path]; [done|]. simpl.
  by intros [= -> _ _].
Qed.

Lemma formatted_or_self_raw locale map (s : string) :
  isIcuMessage s = false → formatted_or_self locale map s = s.
Proof. unfold formatted_or_self, getFormatted. by intros ->. Qed.

Lemma visit_entry_spec locale map (value : doc) :
  (∀ r p,
     (replaceInObject locale map value r p).1.2
     = (record_all locale map (occurrences value p) r).1 ∧
     (replaceInObject locale map value r p).2
     = (record_all locale map (occurrences value p) r).2 ∧
     ((replaceInObject locale map value r p).2 = None →
      (replaceInObject locale map value r p).1.1
      = map_entries (formatted_or_self locale map) value)) →
  ∀ r p property,
    let res := visit_entry locale map p property value
                 (replaceInObject locale map value) r in
    let os := entry_occurrences (p ++ [property]) value (occurrences value) in
    res.1.2 = (record_all locale map os r).1 ∧
    res.2 = (record_all locale map os r).2 ∧
    (res.2 = None →
     res.1.1 = match value with
               | DStr s => DStr (formatted_or_self locale map s)
               | _ => map_entries (formatted_or_self locale map) value
               end).
Proof.
  intros IH r p property.
  destruct value as [x|s|items|props]; try apply IH.
  unfold visit_entry, entry_occurrences.
  destruct (isIcuMessage s) eqn:E.
  - rewrite replaceToken_outcome. cbn [record_all].
    destruct (occurrence_outcome locale map (p ++ [property], s))
      as [e|[[x key] entry]] eqn:Eo; [done|].
    cbn. repeat split. intros _.
    by rewrite (formatted_or_self_outcome _ _ _ _ _ _ _ E Eo).
  - cbn. repeat split. intros _. by rewrite formatted_or_self_raw.
Qed.

Lemma replaceInObject_spec locale map (d : doc) :
  ∀ r p,
    (replaceInObject locale map d r p).1.2
    = (record_all locale map (occurrences d p) r).1 ∧
    (replaceInObject locale map d r p).2
    = (record_all locale map (occurrences d p) r).2 ∧
    ((replaceInObject locale map d r p).2 = None →
     (replaceInObject locale map d r p).1.1
     = map_entries (formatted_or_self locale map) d).
Proof.
  induction d as [x|s|items IH|props IH] using doc_ind'; intros r p;
    [done | done | |].
  - cbn [replaceInObject occurrences map_entries].
    generalize 0 as i. revert r.
    induction IH as [|value rest Hv _ IHrest]; intros r i; [done|].
    pose proof (visit_entry_spec locale map value Hv r p (index_to_string i))
      as Hvis. cbv zeta in Hvis.
    cbn beta match fix. rewrite record_all_app.
    destruct (visit_entry locale map p (index_to_string i) value
                (replaceInObject locale map value) r) as [[v' r1] e1].
    destruct (record_all locale map
                (entry_occurrences (p ++ [index_to_string i]) value
                   (occurrences value)) r) as [r1' e1'].
    simpl in Hvis. destruct Hvis as (-> & -> & Hd).
    destruct e1' as [e|]; [done|].
    specialize (IHrest r1' (S i)).
    revert IHrest.
    match goal with
    | |- context [?f rest (S i) r1'] =>
        destruct (f rest (S i) r1') as [[rest' r2] e2]
    end.
    simpl. intros (-> & -> & Hd').
    repeat split. intros He. simpl in He.
    simpl. rewrite (Hd eq_refl).
    specialize (Hd' He). injection Hd' as ->.
    by destruct value.
  - cbn [replaceInObject occurrences map_entries]. revert r.
    induction IH as [|[property value] rest Hv _ IHrest]; intros r; [done|].
    pose proof (visit_entry_spec locale map value Hv r p property) as Hvis.
    cbv zeta in Hvis.
    cbn beta match fix. rewrite record_all_app.
    destruct (visit_entry locale map p property value
                (replaceInObject locale map value) r) as [[v' r1] e1].
    destruct (record_all locale map
                (entry_occurrences (p ++ [property]) value
                   (occurrences value)) r) as [r1' e1'].
    simpl in Hvis. destruct Hvis as (-> & -> & Hd).
    destruct e1' as [e|]; [done|].
    specialize (IHrest r1'). revert IHrest.
    match goal with
    | |- context [?f rest r1'] =>
        destruct (f rest r1') as [[rest' r2] e2]
    end.
    simpl. intros (-> & -> & Hd').
    repeat split. intros He. simpl in He.
    simpl. rewrite (Hd eq_refl).
    specialize (Hd' He). injection Hd' as ->.
    by destruct value.
Qed.

Lemma entries_for_cons locale map (id : string) (o : occurrence)
    (os : list occurrence) :
  entries_for locale map id (o :: os) =
  match occurrence_outcome locale map o with
  | inr (_, key, entry) =>
      if decide (key = id) then entry :: entries_for locale map id os
      else entries_for locale map id os
  | inl _ => entries_for locale map id os
  end.
Proof.
  unfold entries_for. cbn [omap list_omap].
  destruct (occurrence_outcome locale map o) as [e|[[x key] entry]]; [done|].
  by destruct (decide (key = id)).
Qed.

Lemma record_all_report locale map (os : list occurrence) (r r' : report) :
  record_all locale map os r = (r', None) →
  ∀ id, r' !! id = match entries_for locale map id os with
                   | [] => r !! id
                   | l => Some (default [] (r !! id) ++ l)
                   end.
Proof.
  revert r. induction os as [|o os IH]; intros r; cbn [record_all].
  - by intros [= ->].
  - intros H id. rewrite entries_for_cons.
    destruct (occurrence_outcome locale map o) as [e|[[x key] entry]];
      [done|].
    rewrite (IH _ H id). destruct (decide (key = id)) as [->|Hne].
    + rewrite lookup_insert_eq. simpl.
      destruct (entries_for locale map id os) as [|e0 l]; [done|].
      by rewrite <- app_assoc.
    + by rewrite lookup_insert_ne.
Qed.

Lemma record_all_succeeds locale map (os : list occurrence) (r : report) :
  Forall (fun o => ∃ x, occurrence_outcome locale map o = inr x) os →
  (record_all locale map os r).2 = None.
Proof.
  intros H. revert r. induction H as [|o os [[[x key] entry] Ho] _ IH];
    intros r; [done|].
  cbn [record_all]. rewrite Ho. apply IH.
Qed.

Lemma record_all_throws locale map (os : list occurrence) (r : report)
    (e : exn) :
  (record_all locale map os r).2 = Some e ↔
  ∃ pre o post,
    os = pre ++ o :: post ∧
    Forall (fun o' => ∃ x, occurrence_outcome locale map o' = inr x) pre ∧
    occurrence_outcome locale map o = inl e.
Proof.
  split.
  - revert r. induction os as [|o os IH]; intros r; cbn [record_all];
      [done|].
    destruct (occurrence_outcome locale map o) as [e'|[[x key] entry]] eqn:Eo.
    + intros [= ->]. by exists [], o, os.
    + intros (pre & o' & post & -> & Hpre & Ho')%IH.
      exists (o :: pre), o', post. split; [done|]. split; [|done].
      constructor; [by eexists | done].
  - intros (pre & o & post & -> & Hpre & Ho).
    rewrite record_all_app.
    pose proof (record_all_succeeds locale map pre r Hpre) as Hs.
    destruct (record_all locale map pre r) as [r1 e1]. simpl in Hs. subst e1.
    cbn [record_all]. by rewrite Ho.
Qed.

Lemma entry_unchanged (f : string → string) (value : doc) (p : list string) :
  (∀ s, isIcuMessage s = false → f s = s) →
  (∀ p, occurrences value p = [] → map_entries f value = value) →
  entry_occurrences p value (occurrences value) = [] →
  match value with
  | DStr s => DStr (f s)
  | _ => map_entries f value
  end = value.
Proof.
  intros Hf IH. destruct value as [x|s|items|props]; try apply IH.
  unfold entry_occurrences.
  destruct (isIcuMessage s) eqn:E; [done|]. intros _. by rewrite Hf.
Qed.

Lemma map_entries_unchanged (f : string → string) (d : doc) :
  (∀ s, isIcuMessage s = false → f s = s) →
  ∀ p, occurrences d p = [] → map_entries f d = d.
Proof.
  intros Hf.
  induction d as [x|s|items IH|props IH] using doc_ind'; intros p;
    [done | done | |].
  - cbn [occurrences map_entries]. generalize 0 as i.
    induction IH as [|value rest Hv _ IHrest]; intros i; [done|].
    cbn beta match fix. intros [Hvalue Hrest]%app_eq_nil.
    specialize (IHrest _ Hrest). injection IHrest as ->.
    by rewrite (entry_unchanged f value _ Hf Hv Hvalue).
  - cbn [occurrences map_entries].
    induction IH as [|[property value] rest Hv _ IHrest]; [done|].
    cbn beta match fix. intros [Hvalue Hrest]%app_eq_nil.
    specialize (IHrest Hrest). injection IHrest as ->.
    by rewrite (entry_unchanged f value _ Hf Hv Hvalue).
Qed.

Lemma occurrences_tokens (d : doc) :
  ∀ p, Forall (fun o => isIcuMessage o.2 = true) (occurrences d p).
Proof.
  assert (∀ value p,
            (∀ p, Forall (fun o => isIcuMessage o.2 = true)
                    (occurrences value p)) →
            Forall (fun o => isIcuMessage o.2 = true)
              (entry_occurrences p value (occurrences value))) as Hentry.
  { intros [x|s|items|props] p H; try apply H.
    unfold entry_occurrences. destruct (isIcuMessage s) eqn:E; [|done].
    by constructor. }
  induction d as [x|s|items IH|props IH] using doc_ind'; intros p;
    [done | done | |].
  - cbn [occurrences]. generalize 0 as i.
    induction IH as [|value rest Hv _ IHrest]; intros i; [done|].
    cbn beta match fix. apply Forall_app. split; [by apply Hentry | apply IHrest].
  - cbn [occurrences].
    induction IH as [|[property value] rest Hv _ IHrest]; [done|].
    cbn beta match fix. apply Forall_app. split; [by apply Hentry | apply IHrest].
Qed.

(** X13. The walk throws exactly when some string it would replace fails
    to resolve or has a path that cannot be written; the exception is that
    of the first such string in document order. *)
Theorem replaceIcuMessageInstanceIds_throws locale map (inputObject : doc)
    (e : exn) :
  (replaceIcuMessageInstanceIds inputObject locale map).2 = inl e ↔
  ∃ pre o post,
    occurrences inputObject [] = pre ++ o :: post ∧
    Forall (fun o' => ∃ x, occurrence_outcome locale map o' = inr x) pre ∧
    occurrence_outcome locale map o = inl e.
Proof.
  rewrite <- (record_all_throws locale map _ ∅).
  unfold replaceIcuMessageInstanceIds.
  destruct (replaceInObject_spec locale map inputObject ∅ []) as (_ & He & _).
  destruct (replaceInObject locale map inputObject ∅ []) as [[d' r'] e'].
  simpl in *. rewrite <- He. destruct e'; split; congruence.
Qed.

(** X14. When the walk returns, the document is the input with every
    string entry of an array or object replaced by what [getFormatted]
    gives for it: keys, order, nesting and all other values are as
    before. *)
Theorem replaceIcuMessageInstanceIds_document locale map
    (inputObject : doc) (icuMessagePaths : report) :
  (replaceIcuMessageInstanceIds inputObject locale map).2
  = inr icuMessagePaths →
  (replaceIcuMessageInstanceIds inputObject locale map).1
  = map_entries (formatted_or_self locale map) inputObject ∧
  Forall (fun o => ∃ x, getFormatted o.2 locale map = inr x)
    (occurrences inputObject []).
Proof.
  unfold replaceIcuMessageInstanceIds.
  destruct (replaceInObject_spec locale map inputObject ∅ [])
    as (_ & He & Hd).
  destruct (replaceInObject locale map inputObject ∅ []) as [[d' r'] e'].
  simpl in *. destruct e' as [e|]; [done|]. intros _.
  split; [by apply Hd|].
  apply Forall_forall. intros [p s] Hin.
  destruct (occurrence_outcome locale map (p, s)) as [e|[[x key] entry]] eqn:Eo.
  - exfalso. apply list_elem_of_split in Hin as (pre & post & Hos).
    assert (∃ e0, (record_all locale map (occurrences inputObject []) ∅).2
                  = Some e0) as [e0 He0]; [|congruence].
    rewrite Hos. clear Hos He Hd.
    generalize (∅ : report).
    induction pre as [|o pre IH]; intros r; cbn [app record_all].
    + rewrite Eo. by eexists.
    + destruct (occurrence_outcome locale map o) as [e1|[[x1 k1] en1]];
        [by eexists | apply IH].
  - exists x. revert Eo. unfold occurrence_outcome, getFormatted. simpl.
    apply (proj1 (Forall_forall _ _) (occurrences_tokens inputObject [])) in Hin.
    simpl in Hin. rewrite Hin.
    destruct (_resolveIcuMessageInstanceId s locale map) as [e|[inst y]];
      [done|]. simpl.
    destruct (_formatPathAsString p) as [e|path]; [done|]. simpl.
    by intros [= -> _ _].
Qed.

Lemma walk_report locale map (inputObject : doc) (icuMessagePaths : report) :
  (replaceIcuMessageInstanceIds inputObject locale map).2
  = inr icuMessagePaths →
  ∀ id, icuMessagePaths !! id =
        match entries_for locale map id (occurrences inputObject []) with
        | [] => None
        | l => Some l
        end.
Proof.
  unfold replaceIcuMessageInstanceIds.
  destruct (replaceInObject_spec locale map inputObject ∅ [])
    as (Hr & He & _).
  destruct (replaceInObject locale map inputObject ∅ []) as [[d' r'] e'].
  simpl in *. destruct e' as [e|]; [done|]. intros [= <-] id.
  destruct (record_all locale map (occurrences inputObject []) ∅)
    as [r1 e1] eqn:E.
  simpl in *. subst.
  by rewrite (record_all_report _ _ _ _ _ E id), lookup_empty.
Qed.

(** X15. When the walk returns, the report holds, under each message id,
    one entry for every place where a token of that id stood, in document
    order: the path alone, or the path with the values of the instance; an
    id with no place in the document is absent from the report. *)
Theorem replaceIcuMessageInstanceIds_report locale map
    (inputObject : doc) (icuMessagePaths : report) :
  (replaceIcuMessageInstanceIds inputObject locale map).2
  = inr icuMessagePaths →
  ∀ id, icuMessagePaths !! id =
        match entries_for locale map id (occurrences inputObject []) with
        | [] => None
        | l => Some l
        end.
Proof. apply walk_report. Qed.

(** X16. A document in which no entry of an array or object is a string
    that [isIcuMessage] accepts is left as it is, and the report is
    empty. *)
Theorem replaceIcuMessageInstanceIds_no_tokens locale map (inputObject : doc) :
  occurrences inputObject [] = [] →
  replaceIcuMessageInstanceIds inputObject locale map = (inputObject, inr ∅).
Proof.
  intros Hos. unfold replaceIcuMessageInstanceIds.
  destruct (replaceInObject_spec locale map inputObject ∅ [])
    as (Hr & He & Hd).
  destruct (replaceInObject locale map inputObject ∅ []) as [[d' r'] e'].
  rewrite Hos in *. simpl in *. subst.
  rewrite (Hd eq_refl).
  rewrite (map_entries_unchanged _ _ (formatted_or_self_raw locale map) [] Hos).
  done.
Qed.

(** ** The renderer's strings *)

Lemma split_go_plain (s : string) :
  Str.any (Ascii.eqb "|"%char) s = false →
  JsStr.split_go " | " 0 s = [s].
Proof.
  induction s as [|a s IH]; [done|]. cbn [Str.any].
  intros [Ha Hs]%orb_false_iff. cbn [JsStr.split_go].
  assert (Str.starts_with " | " (String a s) = false) as ->.
  { cbn [Str.starts_with]. destruct s as [|b s]; [by rewrite andb_false_r|].
    cbn [Str.any] in Hs. apply orb_false_iff in Hs as [Hb _].
    cbn [Str.starts_with]. first [rewrite Hb | rewrite Ascii.eqb_sym in Hb; rewrite Hb].
    by rewrite andb_false_r. }
  by rewrite (IH Hs).
Qed.

Lemma split_pair (file name : string) :
  Str.any (Ascii.eqb "|"%char) file = false →
  Str.any (Ascii.eqb "|"%char) name = false →
  JsStr.split " | " (file +:+ " | " +:+ name) = [file; name].
Proof.
  intros Hf Hn. unfold JsStr.split.
  induction file as [|a file IH].
  - change (EmptyString +:+ " | " +:+ name)
      with (String " "%char (String "|"%char (String " "%char name))).
    simpl. by rewrite (split_go_plain _ Hn).
  - cbn [Str.any] in Hf. apply orb_false_iff in Hf as [Ha Hf].
    rewrite str_app_cons. cbn [JsStr.split_go].
    assert (Str.starts_with " | " (String a (file +:+ " | " +:+ name))
            = false) as ->.
    { cbn [Str.starts_with]. destruct file as [|b file].
      - rewrite str_app_nil_l. simpl. by rewrite andb_false_r.
      - cbn [Str.any] in Hf. apply orb_false_iff in Hf as [Hb _].
        rewrite str_app_cons. cbn [Str.starts_with].
        first [rewrite Hb | rewrite Ascii.eqb_sym in Hb; rewrite Hb]. by rewrite andb_false_r. }
    by rewrite (IH Hf).
Qed.

Lemma renderer_loop_spec (localeMessages : gmap string string)
    (icuMessageIds : list string) :
  (∀ id, id ∈ icuMessageIds →
     is_Some (localeMessages !! id) ∧
     ∃ file name, id = file +:+ " | " +:+ name ∧
                  Str.any (Ascii.eqb "|"%char) file = false ∧
                  Str.any (Ascii.eqb "|"%char) name = false) →
  ∀ acc,
    match renderer_loop localeMessages icuMessageIds acc with
    | inr strings =>
        (∀ file name,
           file +:+ " | " +:+ name ∈ icuMessageIds →
           Str.any (Ascii.eqb "|"%char) file = false →
           Str.any (Ascii.eqb "|"%char) name = false →
           JsStr.ends_with "util.js" file = true ∧
           is_Some (strings !! name)) ∧
        (∀ name, is_Some (acc !! name) → is_Some (strings !! name)) ∧
        (∀ name message,
           strings !! name = Some message →
           acc !! name = Some message ∨
           ∃ file, file +:+ " | " +:+ name ∈ icuMessageIds ∧
                   Str.any (Ascii.eqb "|"%char) file = false ∧
                   localeMessages !! (file +:+ " | " +:+ name) = Some message)
    | inl e =>
        ∃ file name,
          e = unexpected_message (file +:+ " | " +:+ name) ∧
          file +:+ " | " +:+ name ∈ icuMessageIds ∧
          Str.any (Ascii.eqb "|"%char) file = false ∧
          Str.any (Ascii.eqb "|"%char) name = false ∧
          JsStr.ends_with "util.js" file = false
    end.
Proof.
  induction icuMessageIds as [|id ids IH]; intros Hwf acc.
  - cbn [renderer_loop]. simpl. split; [|split].
    + intros file name Hin. by apply elem_of_nil in Hin.
    + done.
    + intros name message ?. by left.
  - destruct (Hwf id) as ([message Hm] & file & name & -> & Hf & Hn);
      [by left|].
    cbn [renderer_loop]. cbv zeta. rewrite (split_pair _ _ Hf Hn).
    cbn [head lookup list_lookup default from_option id].
    destruct (JsStr.ends_with "util.js" file) eqn:Eu.
    + rewrite Hm.
      specialize (IH (fun id' Hin => Hwf id' (list_elem_of_further _ _ _ Hin))
                    (<[name := message]> acc)).
      revert IH.
      destruct (renderer_loop localeMessages ids (<[name := message]> acc))
        as [e|strings]; intros IH.
      * destruct IH as (file' & name' & -> & Hin & IH).
        exists file', name'. split; [done|]. split; [by right | done].
      * destruct IH as (Hall & Hacc & Hfrom). split; [|split].
        -- intros file' name' Hin Hf' Hn'.
           apply elem_of_cons in Hin as [Heq|Hin]; [|by apply Hall].
           assert ([file'; name'] = [file; name]) as [= -> ->].
           { by rewrite <- (split_pair file' name'), Heq, split_pair. }
           split; [done|]. apply Hacc. rewrite lookup_insert_eq. by eexists.
        -- intros name' [x Hx]. apply Hacc.
           destruct (decide (name = name')) as [->|Hne].
           ++ rewrite lookup_insert_eq. by eexists.
           ++ rewrite lookup_insert_ne by done. by eexists.
        -- intros name' message' Hs.
           destruct (Hfrom name' message' Hs) as [Hins|(file' & Hin & Hrest)].
           ++ destruct (decide (name = name')) as [->|Hne].
              ** rewrite lookup_insert_eq in Hins. injection Hins as <-.
                 right. exists file. split; [by left | done].
              ** rewrite lookup_insert_ne in Hins by done. by left.
           ++ right. exists file'. split; [by right | done].
    + exists file, name. split; [done|]. split; [by left | done].
Qed.

(** X17. For a supported locale whose catalog keys are what [Object.keys]
    lists and whose ids under [core/report/html/] all read [file | name]
    with no further bar: [getRendererFormattedStrings] either throws
    "Unexpected message" for such an id whose file does not end in
    [util.js], or returns strings that hold a text for the name of every
    such id and nothing else, each text being the catalog's message of an
    id with that name; the catalog is never read at a missing key. *)
Theorem getRendererFormattedStrings_result (locale : string)
    (localeMessages : gmap string string) :
  LOCALES !! locale = Some localeMessages →
  (∀ id, id ∈ Object_keys localeMessages ↔ is_Some (localeMessages !! id)) →
  (∀ id, is_Some (localeMessages !! id) →
         Str.includes "core/report/html/" id = true →
         ∃ file name, id = file +:+ " | " +:+ name ∧
                      Str.any (Ascii.eqb "|"%char) file = false ∧
                      Str.any (Ascii.eqb "|"%char) name = false) →
  match getRendererFormattedStrings locale with
  | inr strings =>
      (∀ file name,
         is_Some (localeMessages !! (file +:+ " | " +:+ name)) →
         Str.includes "core/report/html/" (file +:+ " | " +:+ name) = true →
         Str.any (Ascii.eqb "|"%char) file = false →
         Str.any (Ascii.eqb "|"%char) name = false →
         JsStr.ends_with "util.js" file = true ∧ is_Some (strings !! name)) ∧
      (∀ name message,
         strings !! name = Some message →
         ∃ file,
           Str.includes "core/report/html/" (file +:+ " | " +:+ name) = true ∧
           Str.any (Ascii.eqb "|"%char) file = false ∧
           localeMessages !! (file +:+ " | " +:+ name) = Some message)
  | inl e =>
      ∃ file name,
        e = unexpected_message (file +:+ " | " +:+ name) ∧
        is_Some (localeMessages !! (file +:+ " | " +:+ name)) ∧
        Str.includes "core/report/html/" (file +:+ " | " +:+ name) = true ∧
        Str.any (Ascii.eqb "|"%char) file = false ∧
        Str.any (Ascii.eqb "|"%char) name = false ∧
        JsStr.ends_with "util.js" file = false
  end.
Proof.
  intros Hl Hkeys Hwf. unfold getRendererFormattedStrings. rewrite Hl.
  cbv zeta.
  assert (∀ id, id ∈ List.filter (Str.includes "core/report/html/")
                       (Object_keys localeMessages) ↔
                is_Some (localeMessages !! id) ∧
                Str.includes "core/report/html/" id = true) as Hin.
  { intros id. rewrite list_elem_of_In, filter_In, <- list_elem_of_In, Hkeys.
    done. }
  pose proof (renderer_loop_spec localeMessages
                (List.filter (Str.includes "core/report/html/")
                   (Object_keys localeMessages))) as H.
  specialize (H (fun id Hid => conj (proj1 (proj1 (Hin id) Hid))
                                 (Hwf id (proj1 (proj1 (Hin id) Hid))
                                    (proj2 (proj1 (Hin id) Hid)))) ∅).
  revert H. destruct (renderer_loop _ _ ∅) as [e|strings]; intros H.
  - destruct H as (file & name & -> & Hid & Hf & Hn & Hu).
    apply Hin in Hid as [Hs Hi]. by exists file, name.
  - destruct H as (Hall & _ & Hfrom). split.
    + intros file name Hs Hi Hf Hn. apply Hall; [|done|done].
      by apply Hin.
    + intros name message Hs.
      destruct (Hfrom name message Hs) as [He|(file & Hid & Hf & Hm)].
      * by rewrite lookup_empty in He.
      * apply Hin in Hid as [_ Hi]. by exists file.
Qed.

(** ** The paths of the report *)

Lemma entry_paths (value : doc) (p : list string) (k : string) :
  (∀ p o, o ∈ occurrences value p → ∃ k q, o.1 = p ++ k :: q) →
  ∀ o, o ∈ entry_occurrences (p ++ [k]) value (occurrences value) →
       ∃ q, o.1 = p ++ k :: q.
Proof.
  intros IH o Hin.
  assert (o ∈ occurrences value (p ++ [k]) → ∃ q, o.1 = p ++ k :: q) as Hrec.
  { intros (k' & q & ->)%IH. exists (k' :: q). by rewrite <- app_assoc. }
  destruct value as [x|s|items|props]; try by apply Hrec.
  unfold entry_occurrences in Hin. destruct (isIcuMessage s).
  - apply list_elem_of_singleton in Hin as ->. by exists [].
  - by apply elem_of_nil in Hin.
Qed.

Lemma entry_paths_NoDup (value : doc) (p : list string) :
  (∀ p, NoDup (map fst (occurrences value p))) →
  NoDup (map fst (entry_occurrences p value (occurrences value))).
Proof.
  intros IH. destruct value as [x|s|items|props]; try apply IH.
  unfold entry_occurrences. destruct (isIcuMessage s); simpl.
  - apply NoDup_singleton.
  - apply NoDup_nil_2.
Qed.

Lemma occurrences_paths (d : doc) :
  ∀ p,
    (∀ o, o ∈ occurrences d p → ∃ k q, o.1 = p ++ k :: q) ∧
    (distinct_keys d = true → NoDup (map fst (occurrences d p))).
Proof.
  induction d as [x|s|items IH|props IH] using doc_ind'; intros p.
  - split; [by intros o Hin%elem_of_nil | intros _; apply NoDup_nil_2].
  - split; [by intros o Hin%elem_of_nil | intros _; apply NoDup_nil_2].
  - cbn [occurrences distinct_keys].
    assert (∀ i,
      (∀ o, o ∈ (fix loop (items : list doc) (i : nat) : list occurrence :=
                   match items with
                   | [] => []
                   | value :: rest =>
                       entry_occurrences (p ++ [index_to_string i]) value
                         (occurrences value) ++ loop rest (S i)
                   end) items i →
            ∃ j q, i ≤ j ∧ o.1 = p ++ index_to_string j :: q) ∧
      (forallb distinct_keys items = true →
       NoDup (map fst
         ((fix loop (items : list doc) (i : nat) : list occurrence :=
             match items with
             | [] => []
             | value :: rest =>
                 entry_occurrences (p ++ [index_to_string i]) value
                   (occurrences value) ++ loop rest (S i)
             end) items i)))) as Hloop.
    { induction IH as [|value rest Hv _ IHrest]; intros i.
      - split; [by intros o Hin%elem_of_nil | intros _; apply NoDup_nil_2].
      - destruct (IHrest (S i)) as [Hpre Hnd]. split.
        + intros o [Hin|Hin]%elem_of_app.
          * destruct (entry_paths value p (index_to_string i)
                        (fun p' => proj1 (Hv p')) o Hin) as [q Hq].
            by exists i, q.
          * destruct (Hpre o Hin) as (j & q & Hj & Hq).
            exists j, q. split; [lia | done].
        + cbn [forallb]. intros [Hd Hds]%andb_true_iff.
          rewrite map_app. apply NoDup_app. split; [|split].
          * apply entry_paths_NoDup. intros p'. by apply Hv.
          * intros path (o & -> & Hin)%list_elem_of_fmap
              (o' & Heq & Hin')%list_elem_of_fmap.
            destruct (entry_paths value p (index_to_string i)
                        (fun p' => proj1 (Hv p')) o Hin) as [q Hq].
            destruct (Hpre o' Hin') as (j & q' & Hj & Hq').
            rewrite Hq, Hq' in Heq. apply app_inv_head in Heq.
            injection Heq as Heq _. apply index_to_string_inj in Heq. lia.
          * by apply Hnd. }
    destruct (Hloop 0) as [Hpre Hnd]. split; [|done].
    intros o Hin. destruct (Hpre o Hin) as (j & q & _ & Hq). by eexists _, _.
  - cbn [occurrences distinct_keys].
    assert (
      (∀ o, o ∈ (fix loop (props : list (string * doc)) : list occurrence :=
                   match props with
                   | [] => []
                   | (property, value) :: rest =>
                       entry_occurrences (p ++ [property]) value
                         (occurrences value) ++ loop rest
                   end) props →
            ∃ k q, k ∈ map fst props ∧ o.1 = p ++ k :: q) ∧
      (NoDup (map fst props) →
       forallb (fun kv => distinct_keys kv.2) props = true →
       NoDup (map fst
         ((fix loop (props : list (string * doc)) : list occurrence :=
             match props with
             | [] => []
             | (property, value) :: rest =>
                 entry_occurrences (p ++ [property]) value
                   (occurrences value) ++ loop rest
             end) props)))) as [Hpre Hnd].
    { induction IH as [|[property value] rest Hv _ [Hpre Hnd]].
      - split; [by intros o Hin%elem_of_nil | intros _ _; apply NoDup_nil_2].
      - simpl in Hv. split.
        + intros o [Hin|Hin]%elem_of_app.
          * destruct (entry_paths value p property
                        (fun p' => proj1 (Hv p')) o Hin) as [q Hq].
            exists property, q. split; [by left | done].
          * destruct (Hpre o Hin) as (k & q & Hk & Hq).
            exists k, q. split; [by right | done].
        + cbn [forallb map fst]. intros [Hfresh Hkeys]%NoDup_cons
            [Hd Hds]%andb_true_iff.
          rewrite map_app. apply NoDup_app. split; [|split].
          * apply entry_paths_NoDup. intros p'. by apply Hv.
          * intros path (o & -> & Hin)%list_elem_of_fmap
              (o' & Heq & Hin')%list_elem_of_fmap.
            destruct (entry_paths value p property
                        (fun p' => proj1 (Hv p')) o Hin) as [q Hq].
            destruct (Hpre o' Hin') as (k & q' & Hk & Hq').
            rewrite Hq, Hq' in Heq. apply app_inv_head in Heq.
            injection Heq as -> _. done.
          * by apply Hnd. }
    split.
    + intros o Hin. destruct (Hpre o Hin) as (k & q & _ & Hq).
      by exists k, q.
    + intros [Hkeys Hds]%andb_true_iff. apply Hnd; [|done].
      by apply bool_decide_eq_true in Hkeys.
Qed.

Lemma entries_for_elem locale map (id : string) (os : list occurrence)
    (entry : path_entry) :
  entry ∈ entries_for locale map id os ↔
  ∃ o x, o ∈ os ∧ occurrence_outcome locale map o = inr (x, id, entry).
Proof.
  unfold entries_for. rewrite list_elem_of_omap. split.
  - intros (o & Hin & Ho).
    destruct (occurrence_outcome locale map o) as [e|[[x key] entry']]
      eqn:Eo; [done|].
    destruct (decide (key = id)) as [->|]; [|done].
    injection Ho as ->. by exists o, x.
  - intros (o & x & Hin & Ho). exists o. split; [done|].
    rewrite Ho. by rewrite decide_True.
Qed.

Lemma outcome_path locale map (o : occurrence) (x id : string)
    (entry : path_entry) :
  occurrence_outcome locale map o = inr (x, id, entry) →
  _formatPathAsString o.1 = inr (path_of entry).
Proof.
  unfold occurrence_outcome.
  destruct (_resolveIcuMessageInstanceId o.2 locale map) as [e|[inst y]];
    [done|]. simpl.
  destruct (_formatPathAsString o.1) as [e|path]; [done|]. simpl.
  intros [= _ _ <-]. by destruct (Inst.values inst).
Qed.

Lemma same_path_same_occurrence (os : list occurrence) (o o' : occurrence) :
  NoDup (map fst os) → o ∈ os → o' ∈ os → o.1 = o'.1 → o = o'.
Proof.
  intros Hnd [i Hi]%list_elem_of_lookup [j Hj]%list_elem_of_lookup Heq.
  assert (i = j) as ->; [|congruence].
  apply (NoDup_lookup (map fst os) i j o.1); [done| |].
  - rewrite list_lookup_fmap. unfold occurrence in *. by rewrite Hi.
  - rewrite list_lookup_fmap. unfold occurrence in *. rewrite Hj. simpl.
    by rewrite Heq.
Qed.

Lemma entries_for_NoDup locale map (id : string) (os : list occurrence) :
  NoDup (List.map fst os) → NoDup (List.map path_of (entries_for locale map id os)).
Proof.
  induction os as [|o os IH]; [intros _; apply NoDup_nil_2|].
  cbn [List.map]. intros [Hfresh Hnd]%NoDup_cons. rewrite entries_for_cons.
  destruct (occurrence_outcome locale map o) as [e|[[x key] entry]] eqn:Eo;
    [by apply IH|].
  destruct (decide (key = id)) as [->|]; [|by apply IH].
  cbn [List.map]. apply NoDup_cons. split; [|by apply IH].
  intros (entry' & Heq & Hin)%list_elem_of_fmap.
  apply entries_for_elem in Hin as (o' & x' & Hin & Ho').
  apply outcome_path in Eo, Ho'. rewrite Heq in Eo.
  apply Hfresh. apply list_elem_of_fmap. exists o'. split; [|done].
  by apply (formatPath_injective _ _ _ Eo Ho').
Qed.

(** X18. For a document whose objects have distinct keys, no path occurs
    twice in the report the walk returns: neither twice under one message
    id nor under two ids.  Each entry names one place of the document. *)
Theorem report_paths_distinct locale map (inputObject : doc)
    (icuMessagePaths : report) :
  distinct_keys inputObject = true →
  (replaceIcuMessageInstanceIds inputObject locale map).2
  = inr icuMessagePaths →
  (∀ id l, icuMessagePaths !! id = Some l → NoDup (List.map path_of l)) ∧
  (∀ id id' l l' entry entry',
     icuMessagePaths !! id = Some l → icuMessagePaths !! id' = Some l' →
     entry ∈ l → entry' ∈ l' → path_of entry = path_of entry' → id = id').
Proof.
  intros Hd Hr.
  pose proof (proj2 (occurrences_paths inputObject []) Hd) as Hnd.
  pose proof (walk_report locale map inputObject icuMessagePaths Hr) as Hrep.
  assert (∀ id l, icuMessagePaths !! id = Some l →
                  l = entries_for locale map id (occurrences inputObject []))
    as Hl.
  { intros id l H. rewrite Hrep in H.
    destruct (entries_for locale map id (occurrences inputObject []));
      congruence. }
  split.
  - intros id l ->%Hl. by apply entries_for_NoDup.
  - intros id id' l l' entry entry' ->%Hl ->%Hl.
    intros (o & x & Hin & Ho)%entries_for_elem
           (o' & x' & Hin' & Ho')%entries_for_elem Heq.
    pose proof (outcome_path _ _ _ _ _ _ Ho) as Hp.
    pose proof (outcome_path _ _ _ _ _ _ Ho') as Hp'.
    rewrite Heq in Hp.
    pose proof (formatPath_injective _ _ _ Hp Hp') as Hpath.
    pose proof (same_path_same_occurrence _ o o' Hnd Hin Hin' Hpath) as <-.
    congruence.
Qed.
End I18n.

(** * Examples: the theorems at concrete inputs *)

Lemma Sample_isEqual_sym (a b : option (gmap string Sample.num)) :
  Sample.isEqual a b = Sample.isEqual b a.
Proof. unfold Sample.isEqual. apply bool_decide_ext. naive_solver. Qed.

Lemma Sample_isEqual_trans (a b c : option (gmap string Sample.num)) :
  Sample.isEqual a b = true → Sample.isEqual b c = true →
  Sample.isEqual a c = true.
Proof.
  unfold Sample.isEqual. intros ->%bool_decide_eq_true ->%bool_decide_eq_true.
  by apply bool_decide_eq_true.
Qed.

(** Registering the template of [foo.js] twice with the same values. *)
Lemma register_tokens_witness :
  let values : option (gmap string Sample.num) :=
    Some {["wastedMs" := Sample.number 1234]} in
  let call :=
    getMessageInstanceIdFn Sample.num Sample.isEqual (fun p => p)
      "lighthouse-core/lib/i18n/i18n.js"
      "lighthouse-core/audits/foo.js" [("title", "Foo")] "Foo" in
  (call values (call values ∅).2).1 = (call values ∅).1 ∧
  (call values ∅).1 = inr "lighthouse-core/audits/foo.js | title # 0".
Proof.
  intros values call.
  destruct (register_tokens Sample.num Sample.isEqual (fun p => p)
              "lighthouse-core/lib/i18n/i18n.js"
              "lighthouse-core/audits/foo.js" [("title", "Foo")] "Foo"
              values ∅ Sample_isEqual_sym Sample_isEqual_trans) as [HA HB].
  split.
  - apply HA; [vm_compute; reflexivity | constructor].
  - apply (HB "lighthouse-core/audits/foo.js | title"); [reflexivity|].
    intros inst Hin. rewrite lookup_empty in Hin. by apply elem_of_nil in Hin.
Defined.

(** The registry after one registration. *)
Lemma registry_invariant_witness :
  let values : option (gmap string Sample.num) :=
    Some {["wastedMs" := Sample.number 1234]} in
  let call :=
    getMessageInstanceIdFn Sample.num Sample.isEqual (fun p => p)
      "lighthouse-core/lib/i18n/i18n.js"
      "lighthouse-core/audits/foo.js" [("title", "Foo")] "Foo" in
  let map := (call values ∅).2 in
  let id := "lighthouse-core/audits/foo.js | title" in
  (∀ L i j a b,
     map !! id = Some L → L !! i = Some a → L !! j = Some b → i ≠ j →
     Sample.isEqual (Inst.values a) (Inst.values b) = false) ∧
  ∃ extra,
    (call None map).2 !! id = Some ([Inst.make id "Foo" values] ++ extra).
Proof.
  intros values call map id.
  destruct (registry_invariant Sample.num Sample.isEqual (fun p => p)
              "lighthouse-core/lib/i18n/i18n.js" map Sample_isEqual_sym)
    as [H1 H2].
  - apply calls_step. apply calls_refl.
  - split.
    + intros L i j a b. apply H1.
    + apply H2; [|vm_compute; reflexivity].
      apply calls_step. apply calls_refl.
Defined.

Lemma decode_encode_witness :
  decode (encode "lighthouse-core/lib/i18n/i18n.js | ms" 12) =
    Some ("lighthouse-core/lib/i18n/i18n.js | ms", "12") ∧
  Number "12" = 12.
Proof.
  apply (decode_encode "lighthouse-core/lib/i18n/i18n.js | ms" 12);
    vm_compute; reflexivity.
Defined.

Lemma isIcuMessage_accepts_witness :
  isIcuMessage (encode ("lighthouse-core/lib/i18n/i18n.js" +:+ " | " +:+ "ms") 3)
  = true.
Proof.
  apply (proj2 (proj2 isIcuMessage_accepts)). vm_compute. reflexivity.
Defined.

Lemma resolve_unknown_instance_witness :
  _resolveIcuMessageInstanceId Sample.num None Sample.div Sample.mul
    Sample.round Sample.number Sample.clone Sample.parse Sample.MessageFormat
    Sample.LOCALES "lighthouse-core/audits/foo.js | title # 0" "en" ∅
  = throw (TypeError "Cannot read property 'icuMessage' of undefined").
Proof.
  apply (resolve_unknown_instance Sample.num None Sample.div Sample.mul
           Sample.round Sample.number Sample.clone Sample.parse
           Sample.MessageFormat Sample.LOCALES _ "en" ∅
           "lighthouse-core/audits/foo.js | title" "0").
  - vm_compute. reflexivity.
  - left. reflexivity.
Defined.

(** The shared string [ms] formatted for [en] without its value. *)
Lemma missing_value_error_example :
  _formatIcuMessage Sample.num None Sample.div Sample.mul Sample.round
    Sample.number Sample.clone Sample.parse Sample.MessageFormat Sample.LOCALES
    "en" "lighthouse-core/lib/i18n/i18n.js | ms" None None
  = throw (value_not_provided "timeInMs").
Proof.
  destruct (missing_value_error Sample.num None Sample.div Sample.mul
              Sample.round Sample.number Sample.clone Sample.parse
              Sample.MessageFormat Sample.LOCALES
              ("{timeInMs, number, milliseconds}" +:+ nbsp +:+ "ms") None
              [argumentElement (IdStr "timeInMs")
                 (Some (simpleFormat "numberFormat" (Some "milliseconds")));
               messageTextElement (nbsp +:+ "ms")]
              (IdStr "timeInMs")
              (Some (simpleFormat "numberFormat" (Some "milliseconds"))))
    as (id & Hid & _ & H).
  - reflexivity.
  - apply list_elem_of_here.
  - reflexivity.
  - reflexivity.
  - vm_compute in Hid. injection Hid as <-.
    apply H. vm_compute. reflexivity.
Defined.

(** A template whose plural option references [x], formatted with values
    that lack [x]: no error is raised for [x]. *)
Lemma nested_value_not_checked_witness :
  let t := "{n, plural, one {{x}} other {}}" in
  let values : gmap string Sample.num := {["n" := Sample.number 1]} in
  Sample.parse t
  = inr [argumentElement (IdStr "n")
           (Some (pluralFormat false 0
              [("one", [argumentElement (IdStr "x") None]); ("other", [])]))] ∧
  js_in Sample.num "x" values = false ∧
  ∃ out,
    _preprocessMessageValues Sample.num None Sample.div Sample.mul Sample.round
      Sample.number Sample.clone Sample.parse t (Some values) = inr out.
Proof.
  intros t values. split; [reflexivity|]. split; [reflexivity|].
  destruct (nested_value_not_checked Sample.num None Sample.div Sample.mul
              Sample.round Sample.number Sample.clone Sample.parse
              Sample.MessageFormat Sample.LOCALES t (Some values)
              [argumentElement (IdStr "n")
                 (Some (pluralFormat false 0
                    [("one", [argumentElement (IdStr "x") None]);
                     ("other", [])]))]
              "x") as (out & Hout & _).
  - reflexivity.
  - vm_compute. apply list_elem_of_In. right. left. reflexivity.
  - reflexivity.
  - intros id fmt Hel _.
    apply elem_of_cons in Hel as [[= -> _]|Hel]; [reflexivity|].
    by apply elem_of_nil in Hel.
  - by exists out.
Defined.

(** A placeholder that two elements carry with the style bytes: 2097152
    bytes come out as 2, not as 2048. *)
Lemma bytes_divided_per_element_witness :
  ∃ out,
    _preprocessMessageValues Sample.num None Sample.div Sample.mul Sample.round
      Sample.number Sample.clone Sample.parse
      "{b, number, bytes} of {b, number, bytes}"
      (Some {["b" := Sample.number 2097152]}) = inr out ∧
    out !! "b" = Some (Sample.number 2) ∧
    bytes_to_kb Sample.num Sample.div Sample.number (Sample.number 2097152)
    = Sample.number 2048.
Proof.
  destruct (bytes_divided_per_element Sample.num None Sample.div Sample.mul
              Sample.round Sample.number Sample.clone Sample.parse
              "{b, number, bytes} of {b, number, bytes}"
              (Some {["b" := Sample.number 2097152]})
              [argumentElement (IdStr "b")
                 (Some (simpleFormat "numberFormat" (Some "bytes")));
               messageTextElement " of ";
               argumentElement (IdStr "b")
                 (Some (simpleFormat "numberFormat" (Some "bytes")))]
              "b" 1)
    as (out & Hout & Hb).
  - reflexivity.
  - intros id fmt Hel _.
    apply elem_of_cons in Hel as [[= -> _]|Hel]; [by eexists|].
    apply elem_of_cons in Hel as [?|Hel]; [done|].
    apply elem_of_cons in Hel as [[= -> _]|Hel]; [by eexists|].
    by apply elem_of_nil in Hel.
  - reflexivity.
  - reflexivity.
  - reflexivity.
  - exists out. split; [exact Hout|]. split; [|vm_compute; reflexivity].
    rewrite Hb. vm_compute. reflexivity.
Defined.

Lemma getFormatted_passthrough_witness :
  getFormatted Sample.num None Sample.div Sample.mul Sample.round
    Sample.number Sample.clone Sample.parse Sample.MessageFormat
    Sample.LOCALES "Largest Contentful Paint" "en" ∅
  = inr "Largest Contentful Paint".
Proof.
  apply (getFormatted_passthrough Sample.num None Sample.div Sample.mul
           Sample.round Sample.number Sample.clone Sample.parse
           Sample.MessageFormat Sample.LOCALES).
  vm_compute. reflexivity.
Defined.

(** * Where the code departs from the letter of the specification *)

(** C3 as stated fails for a key with a line terminator: the match starts
    after it and group 1 loses the first line. *)
Lemma decode_encode_line_terminator :
  let key := "x" +:+ String "010"%char "y | z" in
  Str.includes " | " key = true ∧
  RegExp.test MESSAGE_INSTANCE_ID_QUICK_REGEX key = false ∧
  decode (encode key 3) = Some ("y | z", "3") ∧
  decode (encode key 3) ≠ Some (key, index_to_string 3).
Proof. vm_compute. repeat split; discriminate. Defined.

(** C4 as stated fails for a string with a line terminator between the
    " | " and the " # ": it has the shape the specification describes and
    [isIcuMessage] rejects it. *)
Lemma isIcuMessage_line_terminator :
  let s := " | " +:+ String "010"%char " # 0" in
  spec_isToken s ∧ isIcuMessage s = false.
Proof.
  split; [|vm_compute; reflexivity].
  exists (" | " +:+ String "010"%char EmptyString), "0".
  repeat split; discriminate.
Defined.

(** C6 as stated fails for a tag that is not a well-formed language tag:
    the canonicalisation throws and [lookupLocale] with it. *)
Lemma lookupLocale_throws :
  lookupLocale Sample.LOCALES Sample.getCanonicalLocales (Some "en_US")
  = inl (RangeError "Incorrect locale information provided").
Proof. vm_compute. reflexivity. Defined.

(** The examples of the specification for the locale lookup. *)
Lemma lookupLocale_examples :
  lookupLocale Sample.LOCALES Sample.getCanonicalLocales (Some "de-CH-1996")
    = inr "de-CH" ∧
  lookupLocale Sample.LOCALES Sample.getCanonicalLocales (Some "xx-ZZ")
    = inr "en" ∧
  lookupLocale Sample.LOCALES Sample.getCanonicalLocales None = inr "en".
Proof. vm_compute. repeat split. Qed.

(** An argument named by the numeral 0 and one named like a member of
    [Object.prototype] pass the check without a value. *)
Lemma unchecked_ids_example :
  _preprocessMessageValues Sample.num None Sample.div Sample.mul Sample.round
    Sample.number Sample.clone Sample.parse "{0} of {toString}" None
  = inr ∅ ∧
  _preprocessMessageValues Sample.num None Sample.div Sample.mul Sample.round
    Sample.number Sample.clone Sample.parse "{x}" None
  = throw (value_not_provided "x").
Proof. vm_compute. split; reflexivity. Qed.

(** A locale named like a member of [Object.prototype] passes the test for
    a catalog. *)
Lemma inherited_locale_example :
  getFormattedFromIdAndValues Sample.num None Sample.div Sample.mul
    Sample.round Sample.number Sample.clone Sample.parse Sample.MessageFormat
    Sample.LOCALES "constructor" "lighthouse-core/lib/i18n/i18n.js | ms" None
  = throw (Error _ICUMsgNotFoundMsg) ∧
  getFormattedFromIdAndValues Sample.num None Sample.div Sample.mul
    Sample.round Sample.number Sample.clone Sample.parse Sample.MessageFormat
    Sample.LOCALES "fr" "lighthouse-core/lib/i18n/i18n.js | ms" None
  = throw (Error "Unsupported locale 'fr'").
Proof. vm_compute. split; reflexivity. Qed.

(** The second example of the specification: 5238 ms is shown as 5.2 s. *)
Lemma seconds_example :
  _preprocessMessageValues Sample.num None Sample.div Sample.mul Sample.round
    Sample.number Sample.clone Sample.parse
    ("{timeInMs, number, seconds}" +:+ nbsp +:+ "s")
    (Some {["timeInMs" := Sample.number 5238]})
  = inr {["timeInMs" := Some (Qmake 26 5)]}.
Proof. vm_compute. reflexivity. Qed.

Lemma _formatPathAsString_examples :
  _formatPathAsString ["audits"; "first-meaningful-paint"; "title"]
    = inr "audits[first-meaningful-paint].title" ∧
  _formatPathAsString ["categories"; "0"; "auditRefs"; "12"]
    = inr "categories[0].auditRefs[12]" ∧
  _formatPathAsString [EmptyString] = inr "[]" ∧
  _formatPathAsString ["audits"; "a b"] = inl (cannot_handle "a b").
Proof. vm_compute. repeat split. Qed.

(** The codec on tokens with several separators: the index is the last
    run of digits and the key is everything before its " # ". *)
Lemma codec_examples :
  decode "a | b # 5 # 7" = Some ("a | b # 5", "7") ∧
  decode "x | y | z # 10" = Some ("x | y | z", "10") ∧
  decode "no separator # 1" = None ∧
  isIcuMessage "lighthouse-core/lib/i18n/i18n.js | columnURL # 0" = true ∧
  isIcuMessage "Potential savings of 10 KB" = false ∧
  isIcuMessage "a | b # " = false.
Proof. vm_compute. repeat split. Qed.

(** Shared strings are registered under the path of [i18n.js]; of two
    declared names with the same text the first one is taken. *)
Lemma register_examples :
  let call :=
    getMessageInstanceIdFn Sample.num Sample.isEqual (fun p => p)
      "lighthouse-core/lib/i18n/i18n.js"
      "lighthouse-core/audits/foo.js" [("title", "Foo")] in
  (call "Potential Savings" None ∅).1
    = inr "lighthouse-core/lib/i18n/i18n.js | columnWastedBytes # 0" ∧
  (call "Foo" (Some {["n" := Sample.number 2]})
     (call "Foo" (Some {["n" := Sample.number 1]}) ∅).2).1
    = inr "lighthouse-core/audits/foo.js | title # 1" ∧
  (call "Bar" None ∅).1 = inl (Error "Could not locate: Bar").
Proof. vm_compute. repeat split. Qed.

(** * The further properties at concrete inputs *)

Lemma decode_accepts_witness :
  isIcuMessage "lighthouse-core/audits/foo.js | title # 12" = true.
Proof.
  apply (proj1 (decode_accepts "lighthouse-core/audits/foo.js | title # 12")).
  exists "lighthouse-core/audits/foo.js | title", "12".
  vm_compute. reflexivity.
Defined.

(** A backslash path is issued with slashes; the name is the declared
    one. *)
Lemma messageIdOf_declared_witness :
  ∃ file keyname,
    messageIdOf (fun p => p) "lighthouse-core/lib/i18n/i18n.js"
      "lighthouse-core\audits\foo.js" [("title", "Foo")] "Foo"
    = inr (replace_backslashes file +:+ " | " +:+ keyname) ∧
    keyname ≠ EmptyString.
Proof.
  pose proof (messageIdOf_declared (fun p => p)
                "lighthouse-core/lib/i18n/i18n.js"
                "lighthouse-core\audits\foo.js" [("title", "Foo")] "Foo")
    as H.
  destruct (messageIdOf (fun p => p) "lighthouse-core/lib/i18n/i18n.js"
              "lighthouse-core\audits\foo.js" [("title", "Foo")] "Foo")
    as [e|id] eqn:E; [vm_compute in E; discriminate|].
  destruct H as (file & keyname & -> & Hne & _).
  - apply NoDup_singleton.
  - reflexivity.
  - by exists file, keyname.
Defined.

Lemma registry_entries_witness :
  let call :=
    getMessageInstanceIdFn Sample.num Sample.isEqual (fun p => p)
      "lighthouse-core/lib/i18n/i18n.js"
      "lighthouse-core/audits/foo.js" [("title", "Foo")] "Foo" in
  (call None ∅).2 !! "lighthouse-core/audits/foo.js | title"
  = Some [Inst.make "lighthouse-core/audits/foo.js | title" "Foo" None] ∧
  Str.includes " | " "lighthouse-core/audits/foo.js | title" = true ∧
  ∃ filename fileStrings,
    messageIdOf (fun p => p) "lighthouse-core/lib/i18n/i18n.js" filename
      fileStrings "Foo"
    = inr "lighthouse-core/audits/foo.js | title".
Proof.
  intros call.
  assert ((call None ∅).2 !! "lighthouse-core/audits/foo.js | title"
          = Some [Inst.make "lighthouse-core/audits/foo.js | title" "Foo"
                    None]) as Hm.
  { vm_compute. reflexivity. }
  split; [exact Hm|].
  destruct (registry_entries Sample.num Sample.isEqual (fun p => p)
              "lighthouse-core/lib/i18n/i18n.js" (call None ∅).2
              (calls_step _ _ _ _ _ _ _ _ _ _ (calls_refl _ _ _ _ _))
              "lighthouse-core/audits/foo.js | title" _ Hm)
    as (_ & Hinc & H).
  split; [exact Hinc|].
  destruct (H (Inst.make "lighthouse-core/audits/foo.js | title" "Foo" None))
    as (_ & filename & fileStrings & Hid).
  - apply list_elem_of_here.
  - by exists filename, fileStrings.
Defined.

(** A token issued for the shared string [ms] resolves after a further
    registration. *)
Lemma registered_token_resolves_witness :
  let values : option (gmap string Sample.num) :=
    Some {["timeInMs" := Sample.number 1234]} in
  let ms := "{timeInMs, number, milliseconds}" +:+ nbsp +:+ "ms" in
  let call :=
    getMessageInstanceIdFn Sample.num Sample.isEqual (fun p => p)
      "lighthouse-core/lib/i18n/i18n.js"
      "lighthouse-core/audits/foo.js" [("title", "Foo")] in
  let map' := (call "Foo" None (call ms values ∅).2).2 in
  ∃ i inst,
    (call ms values ∅).1
      = inr (encode "lighthouse-core/lib/i18n/i18n.js | ms" i) ∧
    isIcuMessage (encode "lighthouse-core/lib/i18n/i18n.js | ms" i) = true ∧
    default [] (map' !! "lighthouse-core/lib/i18n/i18n.js | ms") !! i
      = Some inst ∧
    Inst.icuMessageId inst = "lighthouse-core/lib/i18n/i18n.js | ms".
Proof.
  intros values ms call map'.
  destruct (registered_token_resolves Sample.num None Sample.div Sample.mul
              Sample.round Sample.number Sample.clone Sample.isEqual
              Sample.parse Sample.MessageFormat Sample.LOCALES (fun p => p)
              "lighthouse-core/lib/i18n/i18n.js"
              "lighthouse-core/audits/foo.js" [("title", "Foo")] ms values
              ∅ map' "lighthouse-core/lib/i18n/i18n.js | ms" "en")
    as (i & inst & Htok & Hicu & Hinst & Hid & _).
  - apply calls_refl.
  - vm_compute. reflexivity.
  - vm_compute. reflexivity.
  - apply calls_step. apply calls_refl.
  - exists i, inst. exact (conj Htok (conj Hicu (conj Hinst Hid))).
Defined.

Lemma equal_tokens_equal_values_witness :
  Sample.isEqual (Some {["n" := Sample.number 1]})
    (Some {["n" := Sample.number 1]}) = true.
Proof.
  apply (equal_tokens_equal_values Sample.num Sample.isEqual (fun p => p)
           "lighthouse-core/lib/i18n/i18n.js"
           "lighthouse-core/audits/foo.js" [("title", "Foo")] "Foo"
           (Some {["n" := Sample.number 1]}) ∅
           "lighthouse-core/audits/foo.js" [("title", "Foo")] "Foo"
           (Some {["n" := Sample.number 1]})
           (getMessageInstanceIdFn Sample.num Sample.isEqual (fun p => p)
              "lighthouse-core/lib/i18n/i18n.js"
              "lighthouse-core/audits/foo.js" [("title", "Foo")] "Foo"
              (Some {["n" := Sample.number 1]}) ∅).2
           "lighthouse-core/audits/foo.js | title # 0").
  - apply Sample_isEqual_sym.
  - apply Sample_isEqual_trans.
  - vm_compute. reflexivity.
  - apply calls_refl.
  - vm_compute. reflexivity.
Defined.

Lemma lookupLocale_supported_witness : is_Some (Sample.LOCALES !! "de-CH").
Proof.
  destruct (lookupLocale_supported Sample.LOCALES Sample.getCanonicalLocales
              (Some "de-CH-1996") "de-CH") as (_ & _ & H).
  - vm_compute. reflexivity.
  - apply H. unfold Sample.LOCALES. rewrite lookup_insert_eq. by eexists.
Defined.

(** A placeholder that two elements carry with the style bytes is divided
    by 1024 twice. *)
Lemma preprocess_compounds_witness :
  ∃ out,
    _preprocessMessageValues Sample.num None Sample.div Sample.mul Sample.round
      Sample.number Sample.clone Sample.parse
      "{b, number, bytes} of {b, number, bytes}"
      (Some {["b" := Sample.number 2097152]}) = inr out ∧
    out !! "b" = Some (Sample.number 2).
Proof.
  destruct (preprocess_compounds Sample.num None Sample.div Sample.mul
              Sample.round Sample.number Sample.clone Sample.parse
              "{b, number, bytes} of {b, number, bytes}"
              (Some {["b" := Sample.number 2097152]})
              [argumentElement (IdStr "b")
                 (Some (simpleFormat "numberFormat" (Some "bytes")));
               messageTextElement " of ";
               argumentElement (IdStr "b")
                 (Some (simpleFormat "numberFormat" (Some "bytes")))])
    as (out & Hout & H).
  - reflexivity.
  - intros id fmt Hel Hne.
    apply elem_of_cons in Hel as [[= -> _]|Hel]; [by eexists|].
    apply elem_of_cons in Hel as [?|Hel]; [done|].
    apply elem_of_cons in Hel as [[= -> _]|Hel]; [by eexists|].
    by apply elem_of_nil in Hel.
  - exists out. split; [exact Hout|].
    destruct (H "b") as (Hb & _). rewrite Hb. vm_compute. reflexivity.
Defined.

Lemma _formatPathAsString_injective_witness :
  ["audits"; "first-meaningful-paint"; "0"]
  = ["audits"; "first-meaningful-paint"; "0"].
Proof.
  apply (_formatPathAsString_injective
           ["audits"; "first-meaningful-paint"; "0"]
           ["audits"; "first-meaningful-paint"; "0"]
           "audits[first-meaningful-paint][0]");
    vm_compute; reflexivity.
Defined.

Lemma getFormattedFromIdAndValues_cases_witness :
  getFormattedFromIdAndValues Sample.num None Sample.div Sample.mul
    Sample.round Sample.number Sample.clone Sample.parse Sample.MessageFormat
    Sample.LOCALES "en" "Largest Contentful Paint" None
  = throw (Error "This is not an ICU message ID") ∧
  getFormattedFromIdAndValues Sample.num None Sample.div Sample.mul
    Sample.round Sample.number Sample.clone Sample.parse Sample.MessageFormat
    Sample.LOCALES "de" "lighthouse-core/lib/i18n/i18n.js | ms" None
  = throw (Error _ICUMsgNotFoundMsg) ∧
  getFormattedFromIdAndValues Sample.num None Sample.div Sample.mul
    Sample.round Sample.number Sample.clone Sample.parse Sample.MessageFormat
    Sample.LOCALES "constructor" "lighthouse-core/lib/i18n/i18n.js | ms" None
  = throw (Error _ICUMsgNotFoundMsg).
Proof.
  split; [|split].
  - apply (proj1 (getFormattedFromIdAndValues_cases Sample.num None
                    Sample.div Sample.mul Sample.round Sample.number
                    Sample.clone Sample.parse Sample.MessageFormat
                    Sample.LOCALES "en" "Largest Contentful Paint" None)).
    intros a b Heq. exfalso.
    assert (Str.includes " | " "Largest Contentful Paint" = true) as H.
    { apply includes_true. by exists a, b. }
    vm_compute in H. discriminate.
  - rewrite (proj2 (getFormattedFromIdAndValues_cases Sample.num None
                      Sample.div Sample.mul Sample.round Sample.number
                      Sample.clone Sample.parse Sample.MessageFormat
                      Sample.LOCALES "de"
                      "lighthouse-core/lib/i18n/i18n.js | ms" None)
               "lighthouse-core/lib/i18n/i18n.js" "ms");
      vm_compute; reflexivity.
  - rewrite (proj2 (getFormattedFromIdAndValues_cases Sample.num None
                      Sample.div Sample.mul Sample.round Sample.number
                      Sample.clone Sample.parse Sample.MessageFormat
                      Sample.LOCALES "constructor"
                      "lighthouse-core/lib/i18n/i18n.js | ms" None)
               "lighthouse-core/lib/i18n/i18n.js" "ms");
      vm_compute; reflexivity.
Defined.

(** The token of a registered [ms] instance and its id with the values of
    the instance are formatted alike in a locale that has the message. *)
Lemma token_and_id_formatting_witness :
  let values : option (gmap string Sample.num) :=
    Some {["timeInMs" := Sample.number 1234]} in
  let ms := "{timeInMs, number, milliseconds}" +:+ nbsp +:+ "ms" in
  let map :=
    (getMessageInstanceIdFn Sample.num Sample.isEqual (fun p => p)
       "lighthouse-core/lib/i18n/i18n.js"
       "lighthouse-core/audits/foo.js" [("title", "Foo")] ms values ∅).2 in
  getFormatted Sample.num None Sample.div Sample.mul Sample.round
    Sample.number Sample.clone Sample.parse Sample.MessageFormat
    Sample.LOCALES (encode ("lighthouse-core/lib/i18n/i18n.js" +:+ " | " +:+ "ms") 0)
    "en" map
  = getFormattedFromIdAndValues Sample.num None Sample.div Sample.mul
      Sample.round Sample.number Sample.clone Sample.parse
      Sample.MessageFormat Sample.LOCALES "en"
      ("lighthouse-core/lib/i18n/i18n.js" +:+ " | " +:+ "ms") values.
Proof.
  intros values ms map.
  apply (proj1 (token_and_id_formatting Sample.num None Sample.div Sample.mul
                  Sample.round Sample.number Sample.clone Sample.parse
                  Sample.MessageFormat Sample.LOCALES
                  "lighthouse-core/lib/i18n/i18n.js" "ms" 0
                  (Inst.make "lighthouse-core/lib/i18n/i18n.js | ms" ms values)
                  map "en"
                  {["lighthouse-core/lib/i18n/i18n.js | ms" := ms]}
                  ltac:(vm_compute; reflexivity)
                  ltac:(vm_compute; reflexivity)
                  ltac:(vm_compute; reflexivity)));
    vm_compute; reflexivity.
Defined.

(** The example of the script's documentation. *)
Lemma bakePlaceholders_result_witness :
  ∃ baked,
    Bake.bakePlaceholders
      [("lighthouse-core/audits/seo/canonical.js | explanationDifferentDomain",
        {| Bake.message := "Points to a different domain ($ICU_0$)";
           Bake.description := None; Bake.meaning := None;
           Bake.placeholders :=
             Some [("ICU_0",
                    {| Bake.content := "{url}";
                       Bake.example := Some "https://example.com/" |})] |})]
    = inr baked ∧
    List.map fst baked =
      ["lighthouse-core/audits/seo/canonical.js | explanationDifferentDomain"].
Proof.
  pose proof (bakePlaceholders_result
    [("lighthouse-core/audits/seo/canonical.js | explanationDifferentDomain",
      {| Bake.message := "Points to a different domain ($ICU_0$)";
         Bake.description := None; Bake.meaning := None;
         Bake.placeholders :=
           Some [("ICU_0",
                  {| Bake.content := "{url}";
                     Bake.example := Some "https://example.com/" |})] |})]
    (NoDup_singleton _)) as H.
  destruct (find _ _) as [[key defn]|] eqn:E in H;
    [vm_compute in E; discriminate|].
  destruct H as (baked & Hb & HF & _). exists baked. split; [exact Hb|].
  apply Forall2_cons_inv_l in HF as ([k m] & rest & [Hk _] & ->%Forall2_nil_inv_l & ->).
  simpl in Hk. by rewrite Hk.
Defined.

Lemma bakeMessage_cases_witness :
  Bake.bakeMessage
    {| Bake.message := "Points to a different domain ($ICU_0$)";
       Bake.description := None; Bake.meaning := None;
       Bake.placeholders :=
         Some [("ICU_0",
                {| Bake.content := "{url}";
                   Bake.example := Some "https://example.com/" |})] |}
  = inr "Points to a different domain ({url})" ∧
  Bake.bakeMessage
    {| Bake.message := "Points to a different domain";
       Bake.description := None; Bake.meaning := None;
       Bake.placeholders :=
         Some [("ICU_0",
                {| Bake.content := "{url}";
                   Bake.example := Some "https://example.com/" |})] |}
  = throw (Bake.placeholder_not_found "ICU_0" "Points to a different domain").
Proof.
  split.
  - apply (proj2 (proj2 (bakeMessage_cases
                           "Points to a different domain ($ICU_0$)" None None))
             "Points to a different domain (" "ICU_0" ")"
             {| Bake.content := "{url}";
                Bake.example := Some "https://example.com/" |});
      vm_compute; reflexivity.
  - apply (proj1 (proj2 (bakeMessage_cases
                           "Points to a different domain" None None))).
    vm_compute. reflexivity.
Defined.

(** A token the registry does not know stops the walk. *)
Lemma replaceIcuMessageInstanceIds_throws_witness :
  (replaceIcuMessageInstanceIds Sample.num None Sample.div Sample.mul
     Sample.round Sample.number Sample.clone Sample.parse Sample.MessageFormat
     Sample.LOCALES Z
     (DObj Z [("score", DLeaf Z 1%Z);
              ("title", DStr Z "lighthouse-core/audits/foo.js | title # 0")])
     "en" ∅).2
  = inl (TypeError "Cannot read property 'icuMessage' of undefined").
Proof.
  apply (proj2 (replaceIcuMessageInstanceIds_throws Sample.num None
                  Sample.div Sample.mul Sample.round Sample.number
                  Sample.clone Sample.parse Sample.MessageFormat
                  Sample.LOCALES Z "en" ∅ _ _)).
  exists [], (["title"], "lighthouse-core/audits/foo.js | title # 0"), [].
  split; [vm_compute; reflexivity|]. split; [constructor|].
  vm_compute. reflexivity.
Defined.

(** A report with one registered token: the string is replaced by its
    formatted text and everything else is kept. *)
Lemma replaceIcuMessageInstanceIds_document_witness :
  let values : gmap string Sample.num :=
    {["timeInMs" := Sample.number 1234]} in
  let ms := "{timeInMs, number, milliseconds}" +:+ nbsp +:+ "ms" in
  let map :=
    (getMessageInstanceIdFn Sample.num Sample.isEqual (fun p => p)
       "lighthouse-core/lib/i18n/i18n.js"
       "lighthouse-core/audits/foo.js" [("title", "Foo")] ms (Some values)
       ∅).2 in
  (replaceIcuMessageInstanceIds Sample.num None Sample.div Sample.mul
     Sample.round Sample.number Sample.clone Sample.parse Sample.MessageFormat
     Sample.LOCALES Z
     (DObj Z [("score", DLeaf Z 1%Z);
              ("displayValue",
               DStr Z "lighthouse-core/lib/i18n/i18n.js | ms # 0")])
     "en" map).1
  = DObj Z [("score", DLeaf Z 1%Z); ("displayValue", DStr Z ms)].
Proof.
  intros values ms map.
  assert (
    (replaceIcuMessageInstanceIds Sample.num None Sample.div Sample.mul
       Sample.round Sample.number Sample.clone Sample.parse
       Sample.MessageFormat Sample.LOCALES Z
       (DObj Z [("score", DLeaf Z 1%Z);
                ("displayValue",
                 DStr Z "lighthouse-core/lib/i18n/i18n.js | ms # 0")])
       "en" map).2
    = inr {["lighthouse-core/lib/i18n/i18n.js | ms" :=
              [PathWithValues Sample.num values "displayValue"]]}) as Hr.
  { vm_compute. reflexivity. }
  destruct (replaceIcuMessageInstanceIds_document Sample.num None Sample.div
              Sample.mul Sample.round Sample.number Sample.clone Sample.parse
              Sample.MessageFormat Sample.LOCALES Z "en" map _ _ Hr)
    as [-> _].
  vm_compute. reflexivity.
Defined.

Lemma replaceIcuMessageInstanceIds_report_witness :
  let values : gmap string Sample.num :=
    {["timeInMs" := Sample.number 1234]} in
  let ms := "{timeInMs, number, milliseconds}" +:+ nbsp +:+ "ms" in
  let map :=
    (getMessageInstanceIdFn Sample.num Sample.isEqual (fun p => p)
       "lighthouse-core/lib/i18n/i18n.js"
       "lighthouse-core/audits/foo.js" [("title", "Foo")] ms (Some values)
       ∅).2 in
  let r : gmap string (list (path_entry Sample.num)) :=
    {["lighthouse-core/lib/i18n/i18n.js | ms" :=
        [PathWithValues Sample.num values "audits[0]";
         PathWithValues Sample.num values "audits[1]"]]} in
  (replaceIcuMessageInstanceIds Sample.num None Sample.div Sample.mul
     Sample.round Sample.number Sample.clone Sample.parse
     Sample.MessageFormat Sample.LOCALES Z
     (DObj Z [("audits",
               DArr Z [DStr Z "lighthouse-core/lib/i18n/i18n.js | ms # 0";
                       DStr Z "lighthouse-core/lib/i18n/i18n.js | ms # 0"])])
     "en" map).2 = inr r ∧
  r !! "lighthouse-core/audits/foo.js | title" = None.
Proof.
  intros values ms map r.
  assert (
    (replaceIcuMessageInstanceIds Sample.num None Sample.div Sample.mul
       Sample.round Sample.number Sample.clone Sample.parse
       Sample.MessageFormat Sample.LOCALES Z
       (DObj Z [("audits",
                 DArr Z [DStr Z "lighthouse-core/lib/i18n/i18n.js | ms # 0";
                         DStr Z "lighthouse-core/lib/i18n/i18n.js | ms # 0"])])
       "en" map).2 = inr r) as Hr.
  { vm_compute. reflexivity. }
  split; [exact Hr|].
  rewrite (replaceIcuMessageInstanceIds_report Sample.num None Sample.div
             Sample.mul Sample.round Sample.number Sample.clone Sample.parse
             Sample.MessageFormat Sample.LOCALES Z "en" map _ r Hr).
  vm_compute. reflexivity.
Defined.

Lemma replaceIcuMessageInstanceIds_no_tokens_witness :
  replaceIcuMessageInstanceIds Sample.num None Sample.div Sample.mul
    Sample.round Sample.number Sample.clone Sample.parse Sample.MessageFormat
    Sample.LOCALES Z
    (DObj Z [("score", DLeaf Z 1%Z);
             ("title", DStr Z "Largest Contentful Paint");
             ("items", DArr Z [DStr Z "a | b"; DObj Z []])])
    "en" ∅
  = (DObj Z [("score", DLeaf Z 1%Z);
             ("title", DStr Z "Largest Contentful Paint");
             ("items", DArr Z [DStr Z "a | b"; DObj Z []])],
     inr ∅).
Proof.
  apply (replaceIcuMessageInstanceIds_no_tokens Sample.num None Sample.div
           Sample.mul Sample.round Sample.number Sample.clone Sample.parse
           Sample.MessageFormat Sample.LOCALES Z "en" ∅).
  vm_compute. reflexivity.
Defined.

Lemma getRendererFormattedStrings_result_witness :
  let catalog : gmap string string :=
    {["lighthouse-core/report/html/renderer/util.js | varianceDisclaimer" :=
        "Values are estimated and may vary."]} in
  let LOCALES : gmap string (gmap string string) := {["en" := catalog]} in
  let Object_keys (m : gmap string string) := (map_to_list m).*1 in
  getRendererFormattedStrings LOCALES Object_keys "en"
  = inr {["varianceDisclaimer" := "Values are estimated and may vary."]} ∧
  JsStr.ends_with "util.js" "lighthouse-core/report/html/renderer/util.js"
  = true.
Proof.
  intros catalog LOCALES Object_keys.
  pose proof (getRendererFormattedStrings_result LOCALES Object_keys "en"
                catalog) as H.
  assert (getRendererFormattedStrings LOCALES Object_keys "en"
          = inr {["varianceDisclaimer" :=
                    "Values are estimated and may vary."]}) as E.
  { vm_compute. reflexivity. }
  rewrite E in H. split; [exact E|].
  destruct H as [Hall _].
  - apply lookup_singleton_eq.
  - intros id. unfold Object_keys. rewrite list_elem_of_fmap. split.
    + intros ([k m] & -> & Hin%elem_of_map_to_list). by eexists.
    + intros [m Hm]. exists (id, m). split; [done|].
      by apply elem_of_map_to_list.
  - intros id [m Hm] _. apply lookup_singleton_Some in Hm as [<- _].
    exists "lighthouse-core/report/html/renderer/util.js",
           "varianceDisclaimer".
    split; [reflexivity|]. split; vm_compute; reflexivity.
  - apply (Hall "lighthouse-core/report/html/renderer/util.js"
             "varianceDisclaimer").
    + exists "Values are estimated and may vary.". vm_compute. reflexivity.
    + vm_compute. reflexivity.
    + vm_compute. reflexivity.
    + vm_compute. reflexivity.
Defined.

Lemma report_paths_distinct_witness :
  let values : gmap string Sample.num :=
    {["timeInMs" := Sample.number 1234]} in
  let ms := "{timeInMs, number, milliseconds}" +:+ nbsp +:+ "ms" in
  let map :=
    (getMessageInstanceIdFn Sample.num Sample.isEqual (fun p => p)
       "lighthouse-core/lib/i18n/i18n.js"
       "lighthouse-core/audits/foo.js" [("title", "Foo")] ms (Some values)
       ∅).2 in
  let r : gmap string (list (path_entry Sample.num)) :=
    {["lighthouse-core/lib/i18n/i18n.js | ms" :=
        [PathWithValues Sample.num values "audits[0]";
         PathWithValues Sample.num values "audits[1]"]]} in
  (replaceIcuMessageInstanceIds Sample.num None Sample.div Sample.mul
     Sample.round Sample.number Sample.clone Sample.parse
     Sample.MessageFormat Sample.LOCALES Z
     (DObj Z [("audits",
               DArr Z [DStr Z "lighthouse-core/lib/i18n/i18n.js | ms # 0";
                       DStr Z "lighthouse-core/lib/i18n/i18n.js | ms # 0"])])
     "en" map).2 = inr r ∧
  ∀ id l, r !! id = Some l → NoDup (List.map (path_of Sample.num) l).
Proof.
  intros values ms map r.
  assert (
    (replaceIcuMessageInstanceIds Sample.num None Sample.div Sample.mul
       Sample.round Sample.number Sample.clone Sample.parse
       Sample.MessageFormat Sample.LOCALES Z
       (DObj Z [("audits",
                 DArr Z [DStr Z "lighthouse-core/lib/i18n/i18n.js | ms # 0";
                         DStr Z "lighthouse-core/lib/i18n/i18n.js | ms # 0"])])
       "en" map).2 = inr r) as Hr.
  { vm_compute. reflexivity. }
  split; [exact Hr|].
  apply (report_paths_distinct Sample.num None Sample.div Sample.mul
           Sample.round Sample.number Sample.clone Sample.parse
           Sample.MessageFormat Sample.LOCALES Z "en" map
           (DObj Z [("audits",
                     DArr Z
                       [DStr Z "lighthouse-core/lib/i18n/i18n.js | ms # 0";
                        DStr Z "lighthouse-core/lib/i18n/i18n.js | ms # 0"])])
           r);
    [vm_compute; reflexivity | exact Hr].
Defined.
